(** * MGeo fine-tuning flywheel: span encoding, decoding and 11-level classification

    A shallow embedding of the three pure text functions of the repository

    - [convert_address_to_token]      (data/convert_entity_to_token.py)
    - [extract_entities_from_tokens]  (inference_service/convert_tokens_to_entities.py)
    - [classify_elements_to_11_levels] (inference_service/convert_to_11_levels.py)

    together with the properties the specification states about them.

    Python strings are sequences of Unicode code points: a character is its
    code point (an [N]), a [str] is a list of characters, and offsets are
    natural numbers.  Dictionaries are association lists in insertion order
    (the order in which [dict.items()] yields them); a property that depends
    on keys being distinct says so with [NoDup].

    The encoder and the decoder are modelled on the types their callers pass
    (strings and lists of strings).  The classifier wraps its body in
    [try ... except Exception], so its [entities] argument ranges over every
    JSON value and the body is written in an error monad; the text is a
    [str] as annotated.  [find_value] is recursive, so the classifier also
    takes the number of frames the interpreter has left, and the body raises
    [RecursionError] when they run out; memory and the frames that logging
    needs are outside the model. *)

From Stdlib Require Import NArith ZArith Ascii String List Lia DecimalNat DecimalString.
From stdpp Require Import base list gmap sorting.

(** ** Python strings *)

Module Py.

Definition char := N.
Definition str := list char.

(** Literals are written as UTF-8 Rocq strings and decoded to code points. *)
Fixpoint utf8_decode (bs : list N) : str :=
  match bs with
  | [] => []
  | b0 :: t0 =>
    if (b0 <? 128)%N then b0 :: utf8_decode t0
    else match t0 with
         | [] => []
         | b1 :: t1 =>
           if (b0 <? 224)%N then ((b0 - 192) * 64 + (b1 - 128))%N :: utf8_decode t1
           else match t1 with
                | [] => []
                | b2 :: t2 =>
                  if (b0 <? 240)%N
                  then ((b0 - 224) * 4096 + (b1 - 128) * 64 + (b2 - 128))%N :: utf8_decode t2
                  else match t2 with
                       | [] => []
                       | b3 :: t3 =>
                         ((b0 - 240) * 262144 + (b1 - 128) * 4096
                          + (b2 - 128) * 64 + (b3 - 128))%N :: utf8_decode t3
                       end
                end
         end
  end.

Definition py (s : string) : str :=
  utf8_decode (map N_of_ascii (list_ascii_of_string s)).

Definition comma : char := 44%N.
Definition dash : char := 45%N.

(** [c.isspace()]: the characters removed by [str.strip()]. *)
Definition isspace (c : char) : bool :=
  ((9 <=? c) && (c <=? 13) || (28 <=? c) && (c <=? 32) || (c =? 133) || (c =? 160)
   || (c =? 5760) || (8192 <=? c) && (c <=? 8202) || (c =? 8232) || (c =? 8233)
   || (c =? 8239) || (c =? 8287) || (c =? 12288))%N.

Fixpoint lstrip (s : str) : str :=
  match s with
  | [] => []
  | c :: t => if isspace c then lstrip t else s
  end.

(** [s.strip()] *)
Definition strip (s : str) : str := rev (lstrip (rev (lstrip s))).

(** [c in s] for a one-character [c] *)
Definition contains (c : char) (s : str) : bool := existsb (N.eqb c) s.

(** [s.split(sep)] for a one-character separator: never the empty list. *)
Fixpoint split (sep : char) (s : str) : list str :=
  match s with
  | [] => [[]]
  | c :: t =>
    if (c =? sep)%N then [] :: split sep t
    else match split sep t with
         | h :: r => (c :: h) :: r
         | [] => [[c]]
         end
  end.

(** [s.startswith(p)] *)
Fixpoint startswith (s p : str) {struct p} : bool :=
  match p, s with
  | [], _ => true
  | _ :: _, [] => false
  | a :: p', b :: s' => (a =? b)%N && startswith s' p'
  end.

(** Leftmost occurrence of [sub] in [l], where [l] is the text from offset
    [pos] on. *)
Fixpoint find_at (l sub : str) (pos : nat) : option nat :=
  if startswith l sub then Some pos
  else match l with
       | [] => None
       | _ :: t => find_at t sub (S pos)
       end.

(** [s.find(sub, start)], with [None] for Python's [-1]. *)
Definition find (s sub : str) (start : nat) : option nat :=
  if start <=? length s then find_at (drop start s) sub start else None.

(** [s[a:b]] for offsets [0 <= a], [0 <= b] (empty when [b <= a]). *)
Definition slice (s : str) (a b : nat) : str := take (b - a) (drop a s).

(** [tag.split('-', 1)[1] if '-' in tag else tag] *)
Fixpoint after_dash_or_all (whole tag : str) : str :=
  match tag with
  | [] => whole
  | c :: t => if (c =? dash)%N then t else after_dash_or_all whole t
  end.

(** [''.join(parts)] *)
Definition join (parts : list str) : str := concat parts.

(** Dictionaries in insertion order. *)
Fixpoint dict_get {V} (k : str) (d : list (str * V)) : option V :=
  match d with
  | [] => None
  | (k', v) :: r => if decide (k = k') then Some v else dict_get k r
  end.

(** [d[k] = v]: an existing key keeps its place, a new key goes last. *)
Fixpoint dict_set {V} (k : str) (v : V) (d : list (str * V)) : list (str * V) :=
  match d with
  | [] => [(k, v)]
  | (k', v') :: r => if decide (k = k') then (k', v) :: r else (k', v') :: dict_set k v r
  end.

End Py.
Import Py.

(** ** The encoder: data/convert_entity_to_token.py *)

Module Encoder.

(** One element of [entity_positions]. *)
Record entity_position := mk_entity {
  e_start : nat;
  e_end : nat;
  e_text : str;
  e_type : str
}.

(** The candidate strings of one component value (lines 32-35). *)
Definition split_entities (component_value : str) : list str :=
  if contains comma component_value
  then map strip (split comma component_value)
  else [component_value].

(** Lines 37-49: each non-empty candidate is looked up once, from offset 0. *)
Definition locate (original_address component_type : str) (entity : str) : list entity_position :=
  match entity with
  | [] => []
  | _ =>
    match find original_address entity 0 with
    | Some start_pos =>
      [mk_entity start_pos (start_pos + length entity) entity component_type]
    | None => []
    end
  end.

(** Lines 27-49: the appends of the two nested loops, in order. *)
Definition entity_positions (address_components : list (str * str))
    (original_address : str) : list entity_position :=
  flat_map (fun '(component_type, component_value) =>
              match component_value with
              | [] => []
              | _ => flat_map (locate original_address component_type)
                              (split_entities component_value)
              end) address_components.

(** [list.sort(key=lambda x: x['start'])] is stable. *)
Fixpoint insert_by_start (x : entity_position) (l : list entity_position)
    : list entity_position :=
  match l with
  | [] => [x]
  | y :: l' =>
    if e_start x <=? e_start y then x :: y :: l' else y :: insert_by_start x l'
  end.

Fixpoint sort_by_start (l : list entity_position) : list entity_position :=
  match l with
  | [] => []
  | x :: l' => insert_by_start x (sort_by_start l')
  end.

(** The loop state: the two output lists and the cursor. *)
Record state := mk_state {
  tokens : list str;
  ner_tags : list str;
  current_pos : nat
}.

(** [for char in text: tokens.append(char); ner_tags.append('O')] *)
Definition emit_outside (st : state) (chars : str) : state :=
  mk_state (tokens st ++ map (fun c => [c]) chars)
           (ner_tags st ++ map (fun _ => py "O") chars)
           (current_pos st).

(** Lines 70-81: the tag of character [i] of an entity of [entity_length]
    characters. *)
Definition bioes_tag (ty : str) (entity_length i : nat) : str :=
  if entity_length =? 1 then py "S-" ++ ty
  else if i =? 0 then py "B-" ++ ty
  else if i =? entity_length - 1 then py "E-" ++ ty
  else py "I-" ++ ty.

(** One iteration of the loop at lines 56-83. *)
Definition emit_entity (original_address : str) (st : state)
    (entity : entity_position) : state :=
  let st1 :=
    if current_pos st <? e_start entity
    then emit_outside st (slice original_address (current_pos st) (e_start entity))
    else st in
  let entity_text := e_text entity in
  let entity_length := length entity_text in
  mk_state (tokens st1 ++ map (fun c => [c]) entity_text)
           (ner_tags st1 ++ imap (fun i _ => bioes_tag (e_type entity) entity_length i) entity_text)
           (e_end entity).

(** Lines 86-90. *)
Definition emit_remaining (original_address : str) (st : state) : state :=
  if current_pos st <? length original_address
  then emit_outside st (drop (current_pos st) original_address)
  else st.

Definition emit_all (original_address : str) (sorted : list entity_position) : state :=
  emit_remaining original_address
    (foldl (emit_entity original_address) (mk_state [] [] 0) sorted).

(** The value under ["result"]. *)
Record result := mk_result {
  r_tokens : list str;
  r_ner_tags : list str;
  r_text : str
}.

Definition convert_address_to_token (address_components : list (str * str))
    (original_address : str) : result :=
  let st := emit_all original_address
              (sort_by_start (entity_positions address_components original_address)) in
  mk_result (tokens st) (ner_tags st) original_address.

End Encoder.

(** ** The decoder: inference_service/convert_tokens_to_entities.py *)

Module Decoder.

(** The three locals of [extract_entities_from_tokens]. *)
Record state := mk_state {
  entities : list (str * list str);
  current_entity : option str;
  current_tokens : list str
}.

(** [if t not in entities: entities[t] = []] then [entities[t].append(text)] *)
Definition add_entity (entity_type entity_text : str)
    (entities : list (str * list str)) : list (str * list str) :=
  match dict_get entity_type entities with
  | Some l => dict_set entity_type (l ++ [entity_text]) entities
  | None => dict_set entity_type [entity_text] entities
  end.

(** The block guarded by [if current_entity and current_tokens]. *)
Definition flush (st : state) : list (str * list str) :=
  match current_entity st, current_tokens st with
  | Some tag, _ :: _ =>
    if bool_decide (tag = [])
    then entities st
    else add_entity (after_dash_or_all tag tag) (join (current_tokens st)) (entities st)
  | _, _ => entities st
  end.

(** [current_entity] used as a condition: neither [None] nor the empty string. *)
Definition is_open (st : state) : bool :=
  match current_entity st with
  | Some tag => negb (bool_decide (tag = []))
  | None => false
  end.

(** One iteration of the loop at lines 45-91. *)
Definition step (st : state) (token tag : str) : state :=
  if startswith tag (py "B-") || startswith tag (py "S-") then
    let entities1 := flush st in
    if startswith tag (py "S-")
    then mk_state (add_entity (after_dash_or_all tag tag) (join [token]) entities1)
                  None []
    else mk_state entities1 (Some tag) [token]
  else if startswith tag (py "I-") && is_open st then
    mk_state (entities st) (current_entity st) (current_tokens st ++ [token])
  else if startswith tag (py "E-") && is_open st then
    let current_tokens1 := current_tokens st ++ [token] in
    match current_entity st with
    | Some cur =>
      mk_state (add_entity (after_dash_or_all cur cur) (join current_tokens1) (entities st))
               None []
    | None => st
    end
  else
    mk_state (flush st) None [].

Definition extract_entities_from_tokens (tokens ner_tags : list str)
    : list (str * list str) :=
  flush (foldl (fun st '(token, tag) => step st token tag)
               (mk_state [] None []) (zip tokens ner_tags)).

End Decoder.

(** ** The level classifier: inference_service/convert_to_11_levels.py *)

Module Levels.

(** A located value: the tuple [(pos, end)], half open. *)
Definition span := (nat * nat)%type.

#[local] Set Warnings "-register-all".

(** The values a JSON-loaded [entities] argument can hold ([PyInt] stands
    for every number).  The function is annotated [Dict[str, str]], but
    nothing checks it: the [try] block is what meets any other value. *)
Inductive pyval :=
| PyStr (s : str)
| PyNone
| PyInt (z : Z)
| PyList (l : list pyval)
| PyDict (d : list (str * pyval)).

Inductive pytype := TStr | TNone | TInt | TList | TDict.

Definition type_of (v : pyval) : pytype :=
  match v with
  | PyStr _ => TStr
  | PyNone => TNone
  | PyInt _ => TInt
  | PyList _ => TList
  | PyDict _ => TDict
  end.

(** The exceptions the body can raise on such values; [str(e)] is determined
    by the constructor and its arguments. *)
Inductive exn :=
| AttributeError (ty : pytype) (attr : str)   (* 'ty' object has no attribute 'attr' *)
| TypeError_not_iterable (ty : pytype)        (* argument of type 'ty' is not iterable *)
| TypeError_must_be_str (ty : pytype)         (* must be str, not ty *)
| RecursionError.                             (* maximum recursion depth exceeded *)

Inductive outcome (A : Type) :=
| Ok (a : A)
| Raise (e : exn).
Arguments Ok {A} a.
Arguments Raise {A} e.

#[global] Instance outcome_ret : MRet outcome := fun A a => Ok a.
#[global] Instance outcome_bind : MBind outcome := fun A B f m =>
  match m with
  | Ok a => f a
  | Raise e => Raise e
  end.

(** [entities.items()] *)
Definition py_items (entities : pyval) : outcome (list (str * pyval)) :=
  match entities with
  | PyDict d => Ok d
  | v => Raise (AttributeError (type_of v) (py "items"))
  end.

(** [',' in value] *)
Definition py_contains_comma (value : pyval) : outcome bool :=
  match value with
  | PyStr s => Ok (contains comma s)
  | PyList l => Ok (existsb (fun x => match x with
                                      | PyStr s => bool_decide (s = [comma])
                                      | _ => false
                                      end) l)
  | PyDict d => Ok (existsb (fun kv => bool_decide (kv.1 = [comma])) d)
  | v => Raise (TypeError_not_iterable (type_of v))
  end.

(** [value.split(',')] *)
Definition py_split_comma (value : pyval) : outcome (list str) :=
  match value with
  | PyStr s => Ok (split comma s)
  | v => Raise (AttributeError (type_of v) (py "split"))
  end.

(** The first argument of [addr.find(value, start)] must be a [str]. *)
Definition py_find_arg (value : pyval) : outcome str :=
  match value with
  | PyStr s => Ok s
  | v => Raise (TypeError_must_be_str (type_of v))
  end.

(** [any(i in range(pos, end) for i in used_indices)] *)
Definition overlaps_used (used_indices : gset nat) (pos end_ : nat) : bool :=
  existsb (fun i => (pos <=? i) && (i <? end_)) (elements used_indices).

(** [used_indices.update(range(pos, end))] *)
Definition mark_used (used_indices : gset nat) (pos end_ : nat) : gset nat :=
  used_indices ∪ list_to_set (seq pos (end_ - pos)).

(** [find_value] (lines 28-39).  [frames] is the number of frames the
    interpreter can still push above the frame of this call (the recursion
    limit less the frames in use).  The generator expression of line 34
    runs in a frame of its own and the recursive call of line 35 in
    another: once [addr.find] has found a position, a call with no frame
    left raises [RecursionError].  The recursive call restarts at [end]. *)
Fixpoint find_value_from (frames : nat) (addr value : str) (start : nat)
    (used_indices : gset nat) {struct frames}
    : outcome (option (span * gset nat)) :=
  match find addr value start with
  | Some pos =>
    let end_ := pos + length value in
    match frames with
    | 0 => Raise RecursionError
    | S frames' =>
      if overlaps_used used_indices pos end_
      then find_value_from frames' addr value end_ used_indices
      else Ok (Some ((pos, end_), mark_used used_indices pos end_))
    end
  | None => Ok None
  end.

(** A call [find_value(v)] made from the body, which has [frames] frames
    left above such a call. *)
Definition find_value (frames : nat) (addr value : str) (used_indices : gset nat)
    : outcome (option (span * gset nat)) :=
  find_value_from frames addr value 0 used_indices.

(** [indices]: key to list of spans. *)
Definition index_map := list (str * list span).

(** Lines 47-52: one value of a comma-separated entry. *)
Definition index_value_step (frames : nat) (addr : str)
    (acc : outcome (list span * gset nat)) (v : str) : outcome (list span * gset nat) :=
  '(found, used) ← acc;
  index ← find_value frames addr (strip v) used;
  match index with
  | Some (index, used') => Ok (found ++ [index], used')
  | None => Ok (found, used)
  end.

(** Lines 44-52: the values of a comma-separated entry, in order. *)
Definition index_values (frames : nat) (addr : str) (values : list str)
    (used_indices : gset nat) : outcome (list span * gset nat) :=
  foldl (index_value_step frames addr) (Ok ([], used_indices)) values.

(** One iteration of the loop at lines 42-58. *)
Definition index_entry (frames : nat) (addr key : str) (value : pyval)
    (st : index_map * gset nat) : outcome (index_map * gset nat) :=
  has_comma ← py_contains_comma value;
  if has_comma : bool then
    values ← py_split_comma value;
    '(found, used) ← index_values frames addr values st.2;
    Ok (dict_set key found st.1, used)
  else
    v ← py_find_arg value;
    index ← find_value frames addr v st.2;
    match index with
    | Some (index, used) => Ok (dict_set key [index] st.1, used)
    | None => Ok st
    end.

Fixpoint build_indices (frames : nat) (addr : str) (items : list (str * pyval))
    (st : index_map * gset nat) : outcome (index_map * gset nat) :=
  match items with
  | [] => Ok st
  | (key, value) :: rest =>
    st' ← index_entry frames addr key value st;
    build_indices frames addr rest st'
  end.

(** The spans visited by
    [for key in keys: if key in indices and indices[key]: for start, end in indices[key]]. *)
Definition spans_of (keys : list str) (indices : index_map) : list span :=
  flat_map (fun key => default [] (dict_get key indices)) keys.

(** The update [if m is None or <better>: m = (start, end)] run over a
    sequence of spans: the first span no later span is better than. *)
Definition pick (better : span → span → bool) (l : list span) : option span :=
  foldl (fun m sp =>
           match m with
           | None => Some sp
           | Some m0 => if better sp m0 then Some sp else m
           end) None l.

(** [... or start < m[0]] *)
Definition min_by_start : list span → option span :=
  pick (fun sp m => sp.1 <? m.1).

(** [... or start > m[0]] *)
Definition max_by_start : list span → option span :=
  pick (fun sp m => m.1 <? sp.1).

(** The pair [(min_..._index, max_..._index)] a level's loop leaves behind:
    both variables are updated under the same guard [eligible start]. *)
Definition select (keys : list str) (indices : index_map) (eligible : nat → bool)
    : option span * option span :=
  let visited := List.filter (fun sp : span => eligible sp.1) (spans_of keys indices) in
  (min_by_start visited, max_by_start visited).

(** [bound[1] - 1 < start] on Python integers. *)
Definition after (bound : span) (start : nat) : bool :=
  (Z.of_nat bound.2 - 1 <? Z.of_nat start)%Z.

(** [max(valid_latest_keys, key=lambda x: x[1]) if valid_latest_keys else None]:
    the first entry with the largest end. *)
Definition latest_max (latest_keys : list (option span)) : option span :=
  pick (fun sp m => m.2 <? sp.2) (omap id latest_keys).

Definition poi_keys : list str :=
  [py "poi"; py "subpoi"; py "community"; py "devzone"; py "village_group"].
Definition admin_keys : list str := [py "prov"; py "city"; py "district"; py "town"].
Definition road_direction_keys : list str := [py "road"; py "direction"].
Definition roadno_keys : list str := [py "roadno"].
Definition additional_poi_keys : list str :=
  [py "poi"; py "subpoi"; py "road"; py "roadno"; py "direction"; py "community";
   py "devzone"; py "village_group"; py "houseno"].
Definition houseno_keys : list str := [py "houseno"].
Definition cellno_keys : list str := [py "cellno"].
Definition floorno_keys : list str := [py "floorno"].
Definition roomno_keys : list str := [py "roomno"].

(** Lines 61-67 and 70-76. *)
Definition poi_min_index (indices : index_map) : option span :=
  min_by_start (spans_of poi_keys indices).
Definition admin_max_index (indices : index_map) : option span :=
  max_by_start (spans_of admin_keys indices).

(** The span variables of the body once the level loops have run. *)
Record assignment := mk_assignment {
  a_poi : option span;
  a_admin : option span;
  a_road_direction : option span * option span;
  a_roadno : option span * option span;
  a_additional_poi : option span * option span;
  a_cellno : option span * option span;
  a_floorno : option span * option span;
  a_roomno : option span * option span
}.

Definition nothing : option span * option span := (None, None).

(** Lines 166-238: levels 8 to 11 when a POI anchor exists. *)
Definition assign_after_poi (indices : index_map) (poi : span) (admin : option span)
    (rd rn : option span * option span) : assignment :=
  let additional := select additional_poi_keys indices (after poi) in
  let cellno :=
    select cellno_keys indices
      (match additional.2 with
       | Some m => after m
       | None => after poi
       end) in
  let latest_keys := [admin; rd.2; rn.2; Some poi; additional.2; cellno.2] in
  match latest_max latest_keys with
  | Some latest =>
    let floorno := select floorno_keys indices (after latest) in
    match latest_max (latest_keys ++ [floorno.2]) with
    | Some latest' =>
      let roomno := select roomno_keys indices (after latest') in
      mk_assignment (Some poi) admin rd rn additional cellno floorno roomno
    | None => mk_assignment (Some poi) admin rd rn additional cellno floorno nothing
    end
  | None => mk_assignment (Some poi) admin rd rn additional cellno nothing nothing
  end.

(** Lines 284-369: levels 8 to 11 when only an administrative anchor exists. *)
Definition assign_after_admin (indices : index_map) (admin : span)
    (rd rn : option span * option span) : assignment :=
  let latest_keys := [Some admin; rd.2; rn.2] in
  match latest_max latest_keys with
  | Some latest =>
    let additional := select houseno_keys indices (after latest) in
    let latest_keys1 := latest_keys ++ [additional.2] in
    match latest_max latest_keys1 with
    | Some latest1 =>
      let cellno := select cellno_keys indices (after latest1) in
      let latest_keys2 := latest_keys1 ++ [cellno.2] in
      match latest_max latest_keys2 with
      | Some latest2 =>
        let floorno := select floorno_keys indices (after latest2) in
        let latest_keys3 := latest_keys2 ++ [floorno.2] in
        match latest_max latest_keys3 with
        | Some latest3 =>
          let roomno := select roomno_keys indices (after latest3) in
          mk_assignment None (Some admin) rd rn additional cellno floorno roomno
        | None => mk_assignment None (Some admin) rd rn additional cellno floorno nothing
        end
      | None => mk_assignment None (Some admin) rd rn additional cellno nothing nothing
      end
    | None => mk_assignment None (Some admin) rd rn additional nothing nothing nothing
    end
  | None => mk_assignment None (Some admin) rd rn nothing nothing nothing nothing
  end.

(** Lines 92-403: the four branches on the two anchors. *)
Definition assign (indices : index_map) : assignment :=
  match poi_min_index indices, admin_max_index indices with
  | Some poi, Some admin =>
    let rd := select road_direction_keys indices
                (fun start => after admin start && (start <? poi.1)) in
    let rn := select roadno_keys indices
                (fun start => match rd.2 with
                              | Some m => after m start && (start <? poi.1)
                              | None => after admin start && (start <? poi.1)
                              end) in
    assign_after_poi indices poi (Some admin) rd rn
  | Some poi, None =>
    let rd := select road_direction_keys indices (fun start => start <? poi.1) in
    let rn := select roadno_keys indices
                (fun start => match rd.2 with
                              | Some m => after m start && (start <? poi.1)
                              | None => start <? poi.1
                              end) in
    assign_after_poi indices poi None rd rn
  | None, Some admin =>
    let rd := select road_direction_keys indices (after admin) in
    let rn := select roadno_keys indices
                (fun start => match rd.2 with
                              | Some m => after m start
                              | None => after admin start
                              end) in
    assign_after_admin indices admin rd rn
  | None, None =>
    let rd := select road_direction_keys indices (fun _ => true) in
    let rn := select roadno_keys indices
                (fun start => match rd.2 with
                              | Some m => after m start
                              | None => true
                              end) in
    mk_assignment None None rd rn nothing nothing nothing nothing
  end.

(** [addr[min[0]:max[1]].strip()] under [if min or max], else the initial ['']. *)
Definition level_text (addr : str) (sel : option span * option span) : str :=
  match sel with
  | (Some mn, Some mx) => strip (slice addr mn.1 mx.2)
  | _ => []
  end.

(** Lines 421-424. *)
Definition used_indices_final (indices : index_map) : gset nat :=
  foldl (fun used kv =>
           foldl (fun used' sp => mark_used used' sp.1 sp.2) used kv.2)
        ∅ indices.

(** Line 426: [[addr[i] for i in range(len(addr)) if i not in used_indices_final]] *)
Definition remaining_offsets (addr : str) (used : gset nat) : list nat :=
  List.filter (fun i => negb (bool_decide (i ∈ used))) (seq 0 (length addr)).

Definition remaining_parts (addr : str) (used : gset nat) : list str :=
  omap (fun i => (fun c => [c]) <$> addr !! i) (remaining_offsets addr used).

(** The returned dictionary; [error] is present only in the [except] branch. *)
Record levels := mk_levels {
  level1 : pyval;
  level2 : pyval;
  level3 : pyval;
  level4 : pyval;
  level5 : str;
  level6 : str;
  level7 : str;
  level8 : str;
  level9 : str;
  level10 : str;
  level11 : str;
  remark : str;
  original_text : str;
  error : option exn
}.

(** The body of the [try] block, run with [frames] frames left above a
    call of [find_value]. *)
Definition classify_body (frames : nat) (entities : pyval) (original_text : str)
    : outcome levels :=
  let addr := original_text in
  items ← py_items entities;
  st ← build_indices frames addr items ([], ∅);
  let indices := st.1 in
  let a := assign indices in
  mret (mk_levels
          (default (PyStr (py "广东省")) (dict_get (py "prov") items))
          (default (PyStr []) (dict_get (py "city") items))
          (default (PyStr []) (dict_get (py "district") items))
          (default (PyStr []) (dict_get (py "town") items))
          (level_text addr (a_road_direction a))
          (level_text addr (a_roadno a))
          (match a_poi a with
           | Some poi => strip (slice addr poi.1 poi.2)
           | None => []
           end)
          (level_text addr (a_additional_poi a))
          (level_text addr (a_cellno a))
          (level_text addr (a_floorno a))
          (level_text addr (a_roomno a))
          (strip (join (remaining_parts addr (used_indices_final indices))))
          original_text
          None).

(** Lines 23 and 434-451: the [try] and its [except Exception]. *)
Definition classify_elements_to_11_levels (frames : nat) (entities : pyval)
    (original_text : str) : levels :=
  match classify_body frames entities original_text with
  | Ok r => r
  | Raise e =>
    mk_levels (PyStr []) (PyStr []) (PyStr []) (PyStr [])
              [] [] [] [] [] [] [] [] original_text (Some e)
  end.

End Levels.

(** ** Predicates used to state the properties *)

Module Props.
Import Encoder.

(** Two located spans share a character offset. *)
Definition overlap (a b : entity_position) : bool :=
  (e_start a <? e_end b) && (e_start b <? e_end a).

(** The located spans are pairwise non-overlapping. *)
Fixpoint pairwise_disjoint (l : list entity_position) : bool :=
  match l with
  | [] => true
  | x :: r => forallb (fun y => negb (overlap x y)) r && pairwise_disjoint r
  end.







(** The start offsets are in ascending order. *)
Fixpoint ascending (l : list entity_position) : bool :=
  match l with
  | [] => true
  | x :: r => forallb (fun y => e_start x <=? e_start y) r && ascending r
  end.


(** The characters of [s] as one-character strings. *)
Definition chars (s : str) : list str := map (fun c => [c]) s.

(** What the specification says of a span met behind the cursor: only its
    tail past the consumed mark is emitted, nothing if it lies inside. *)
Definition emits_tail_only (original_address : str) (st : state)
    (entity : entity_position) : Prop :=
  tokens (emit_entity original_address st entity)
  = tokens st ++ chars (slice original_address
                              (current_pos st `max` e_start entity) (e_end entity)).

(** What [find] guarantees about a located span. *)
Definition located_in (original_address : str) (e : entity_position) : Prop :=
  e_text e ≠ [] ∧ e_end e = e_start e + length (e_text e)
  ∧ slice original_address (e_start e) (e_end e) = e_text e
  ∧ e_end e ≤ length original_address.

(** The cursor invariant of the emission loop on non-overlapping spans. *)
Definition in_step (original_address : str) (st : state) : Prop :=
  tokens st = chars (take (current_pos st) original_address)
  ∧ current_pos st ≤ length original_address.


(** The decoder's loop over a list of pairs. *)
Definition decode (st : Decoder.state) (l : list (str * str)) : Decoder.state :=
  foldl (fun st '(token, tag) => Decoder.step st token tag) st l.


(** The decoder state with an accumulator open for [cat]. *)
Definition opened (ents : list (str * list str)) (cat : str) (acc : list str)
    : Decoder.state :=
  Decoder.mk_state ents (Some (py "B-" ++ cat)) acc.

(** The decoder state with no open accumulator. *)
Definition idle (ents : list (str * list str)) : Decoder.state :=
  Decoder.mk_state ents None [].

(** What the specification says of a tag read while [cat] is open: the
    accumulator is flushed under [cat] and the tag is read from [idle]. *)
Definition flushes_then_restarts (ents : list (str * list str)) (cat : str)
    (acc : list str) (token tag : str) : Prop :=
  Decoder.step (opened ents cat acc) token tag
  = Decoder.step (idle (Decoder.add_entity cat (join acc) ents)) token tag.

End Props.

Module LevelProps.
Import Levels.

(** A well-typed [entities] argument: every value is a [str]. *)
Definition str_items (d : list (str * str)) : list (str * pyval) :=
  map (fun kv : str * str => (kv.1, PyStr kv.2)) d.

Definition str_dict (d : list (str * str)) : pyval := PyDict (str_items d).

(** Every span of [indices], in insertion order. *)
Definition all_spans (indices : index_map) : list span :=
  flat_map snd indices.

(** The offsets of [range(start, end)] for each span, with repetitions. *)
Definition span_offsets (spans : list span) : list nat :=
  flat_map (fun sp : span => seq sp.1 (sp.2 - sp.1)) spans.

(** The [indices] the loop at lines 42-58 builds for a well-typed
    dictionary; none when the loop raises. *)
Definition indices_of (frames : nat) (d : list (str * str)) (addr : str) : index_map :=
  match build_indices frames addr (str_items d) ([], ∅) with
  | Ok st => st.1
  | Raise _ => []
  end.

(** The spans located for a well-typed dictionary, over all its categories. *)
Definition located_spans (frames : nat) (d : list (str * str)) (addr : str)
    : list span :=
  all_spans (indices_of frames d addr).

(** The offsets no span of [spans] covers, in ascending order. *)
Definition uncovered (addr : str) (spans : list span) : list nat :=
  List.filter (fun i => negb (bool_decide (i ∈ span_offsets spans)))
              (seq 0 (length addr)).

(** The characters of [addr] at the offsets [offs]. *)
Definition chars_at (addr : str) (offs : list nat) : str :=
  omap (fun i => addr !! i) offs.

(** The coverage the specification states: the offsets of [spans] and the
    offsets of the characters of [remark] make up [range(len(addr))], each
    offset once. *)
Definition covers (addr : str) (spans : list span) (remark : str) : Prop :=
  ∃ rest : list nat,
    remark = chars_at addr rest ∧ span_offsets spans ++ rest ≡ₚ seq 0 (length addr).

(** [start] lies at or past the end of every recorded entry of [bounds]. *)
Definition after_all (bounds : list (option span)) (start : nat) : bool :=
  forallb (fun x => after x start) (omap id bounds).

(** What [find_value] maintains: the used offsets are those of the spans
    located so far, which are pairwise disjoint and inside the text. *)
Definition consistent (addr : str) (spans : list span) (used : gset nat) : Prop :=
  NoDup (span_offsets spans)
  ∧ (∀ i, i ∈ used ↔ i ∈ span_offsets spans)
  ∧ (∀ i, i ∈ used → i < length addr).

End LevelProps.

(** ** Formatting decoded entities: inference_service/convert_tokens_to_entities.py *)

Module Formatter.

(** [sep.join(parts)] *)
Fixpoint join_with (sep : str) (parts : list str) : str :=
  match parts with
  | [] => []
  | p :: rest =>
    match rest with
    | [] => p
    | _ => p ++ sep ++ join_with sep rest
    end
  end.

(** [k in d] *)
Definition dict_mem {V} (k : str) (d : list (str * V)) : bool :=
  bool_decide (is_Some (dict_get k d)).

(** The dictionary a prediction is read from: a key may be missing. *)
Record raw_data := mk_raw {
  rd_tokens : option (list str);
  rd_ner_tags : option (list str);
  rd_text : option str
}.

Definition priority_order : list str :=
  [py "prov"; py "city"; py "district"; py "town"; py "community"; py "devzone";
   py "road"; py "roadno"; py "intersection"; py "poi"; py "subpoi";
   py "houseno"; py "cellno"; py "floorno"; py "roomno"; py "assist"; py "distance"].

Record formatted := mk_formatted {
  f_original_text : str;
  f_entities : list (str * str)
}.

(** Lines 134-139: the entity types of [priority_order] that were decoded. *)
Definition add_priority (entities : list (str * list str)) (out : list (str * str))
    : list (str * str) :=
  foldl (fun out entity_type =>
           match dict_get entity_type entities with
           | Some entity_list => dict_set entity_type (join_with (py ", ") entity_list) out
           | None => out
           end) out priority_order.

(** Lines 142-146: the decoded entity types outside [priority_order]. *)
Definition add_others (entities : list (str * list str)) (out : list (str * str))
    : list (str * str) :=
  foldl (fun out '(entity_type, entity_list) =>
           if bool_decide (entity_type ∈ priority_order) then out
           else dict_set entity_type (join_with (py ", ") entity_list) out)
        out entities.

Definition format_address (raw : raw_data) : formatted :=
  let tokens := default [] (rd_tokens raw) in
  let ner_tags := default [] (rd_ner_tags raw) in
  let text := default [] (rd_text raw) in
  let entities := Decoder.extract_entities_from_tokens tokens ner_tags in
  mk_formatted text (add_others entities (add_priority entities [])).

Definition field_mapping : list (str * str) :=
  [(py "prov", py "province"); (py "city", py "city"); (py "district", py "district");
   (py "town", py "town"); (py "community", py "community"); (py "road", py "road");
   (py "roadno", py "road_number"); (py "poi", py "poi"); (py "subpoi", py "sub_poi");
   (py "houseno", py "house_number"); (py "cellno", py "unit_number");
   (py "floorno", py "floor"); (py "roomno", py "room_number");
   (py "devzone", py "development_zone"); (py "intersection", py "intersection");
   (py "assist", py "additional_info")].

(** [', '.join(entity_list) if len(entity_list) > 1 else entity_list[0]];
    [None] is the [IndexError] of [entity_list[0]] on an empty list. *)
Definition simple_value (entity_list : list str) : option str :=
  if 1 <? length entity_list then Some (join_with (py ", ") entity_list)
  else head entity_list.

(** Lines 191-193, one entity type after the other; [None] when an
    iteration raises. *)
Fixpoint add_simple (entities : list (str * list str)) (simple_result : list (str * str))
    : option (list (str * str)) :=
  match entities with
  | [] => Some simple_result
  | (entity_type, entity_list) :: rest =>
    let field_name := default entity_type (dict_get entity_type field_mapping) in
    match simple_value entity_list with
    | Some v => add_simple rest (dict_set field_name v simple_result)
    | None => None
    end
  end.

Definition create_simple_format (raw : raw_data) : option (list (str * str)) :=
  let tokens := default [] (rd_tokens raw) in
  let ner_tags := default [] (rd_ner_tags raw) in
  let text := default [] (rd_text raw) in
  let entities := Decoder.extract_entities_from_tokens tokens ner_tags in
  add_simple entities [(py "original_text", text)].

End Formatter.

(** ** Turning model output into tags: inference_service/inference.py *)

Module Inference.

(** One element of the pipeline's result list, as the three [get] chains of
    lines 191-193 read it: a field is [None] when the key is missing, an
    offset is an integer and a label a string. *)
Record pipeline_result := mk_pipeline_result {
  pr_start : option Z;
  pr_span_start : option Z;
  pr_end : option Z;
  pr_span_end : option Z;
  pr_entity_group : option str;
  pr_entity : option str;
  pr_type : option str
}.

Record prediction := mk_prediction {
  p_tokens : list str;
  p_ner_tags : list str;
  p_text : str
}.

(** [label.startswith(('B-', 'I-', 'E-', 'S-'))] *)
Definition has_prefix (label : str) : bool :=
  startswith label (py "B-") || startswith label (py "I-")
  || startswith label (py "E-") || startswith label (py "S-").

(** [l[i] = x]; [None] is the [IndexError] of an index out of range. *)
Definition list_assign (l : list str) (i : nat) (x : str) : option (list str) :=
  if i <? length l then Some (<[i := x]> l) else None.

(** Line 208: [label[2:]] for a label that carries a prefix. *)
Definition base_label (label : str) : str :=
  if has_prefix label then drop 2 label else label.

(** Lines 201-209: the tag written at offset [i] of a span starting at [start]. *)
Definition span_tag (label : str) (start i : nat) : str :=
  if i =? start then
    if has_prefix label then label else py "B-" ++ label
  else
    py "I-" ++ base_label label.

(** Lines 191-193: the three [get] chains, with their defaults. *)
Definition result_label (result : pipeline_result) : str :=
  default (default (default (py "O") (pr_type result)) (pr_entity result))
          (pr_entity_group result).

(** Lines 196-197: [start] and [end] once clamped to the text. *)
Definition result_start (text : str) (result : pipeline_result) : nat :=
  let n := Z.of_nat (length text) in
  let start := default (default 0%Z (pr_span_start result)) (pr_start result) in
  Z.to_nat (Z.max 0 (Z.min start n)).

Definition result_end (text : str) (result : pipeline_result) : nat :=
  let n := Z.of_nat (length text) in
  let start := default (default 0%Z (pr_span_start result)) (pr_start result) in
  let end_ := default (default n (pr_span_end result)) (pr_end result) in
  let start := Z.max 0 (Z.min start n) in
  Z.to_nat (Z.max start (Z.min end_ n)).

(** Lines 190-209: one element of the result list. *)
Definition apply_result (text : str) (ner_tags : list str) (result : pipeline_result)
    : option (list str) :=
  let label := result_label result in
  let start := result_start text result in
  let end_ := result_end text result in
  foldl (fun tags i =>
           tags ← tags;
           list_assign tags i (span_tag label start i))
        (Some ner_tags) (seq start (end_ - start)).

(** Lines 186-209: the loop over the result list; an element is [None]
    when it is not a dictionary. *)
Definition apply_results (text : str) (ner_tags : list str)
    (results : list (option pipeline_result)) : option (list str) :=
  foldl (fun tags result =>
           tags ← tags;
           match result with
           | Some result => apply_result text tags result
           | None => Some tags
           end) (Some ner_tags) results.

(** [_process_pipeline_results]: [results] is [None] when it is not a list. *)
Definition process_pipeline_results (text : str)
    (results : option (list (option pipeline_result))) : option prediction :=
  let tokens := map (fun c => [c]) text in
  let ner_tags := replicate (length tokens) (py "O") in
  match results with
  | None => Some (mk_prediction tokens ner_tags text)
  | Some results =>
    ner_tags ← apply_results text ner_tags results;
    Some (mk_prediction tokens ner_tags text)
  end.

(** [str(i)] for a non-negative integer. *)
Definition str_of_nat (i : nat) : str :=
  map N_of_ascii (list_ascii_of_string (NilEmpty.string_of_uint (Nat.to_uint i))).

(** Lines 148-154 of [_predict_with_model]: the label of each predicted id;
    [None] is the [KeyError] of [self.id2label[str(id)]]. *)
Fixpoint labels_of (id2label : list (str * str)) (pred_ids : list nat)
    : option (list str) :=
  match pred_ids with
  | [] => Some []
  | i :: rest =>
    tag ← (if i <? length id2label then dict_get (str_of_nat i) id2label
           else Some (py "O"));
    tags ← labels_of id2label rest;
    Some (tag :: tags)
  end.

(** Lines 148-172 of [_predict_with_model], from the predicted ids on: the
    tags are cut or padded to the length of the text, and any exception
    gives the all-['O'] prediction. *)
Definition tags_of_predictions (id2label : list (str * str)) (pred_ids : list nat)
    (text : str) : prediction :=
  let tokens := map (fun c => [c]) text in
  match labels_of id2label pred_ids with
  | Some ner_tags =>
    let ner_tags := take (length tokens) ner_tags in
    let ner_tags := ner_tags ++ replicate (length tokens - length ner_tags) (py "O") in
    mk_prediction tokens ner_tags text
  | None => mk_prediction tokens (replicate (length tokens) (py "O")) text
  end.

(** Line 85 of [_get_default_label_mapping]:
    [{str(i): label for i, label in enumerate(labels)}]. *)
Definition label_mapping (labels : list str) : list (str * str) :=
  imap (fun i label => (str_of_nat i, label)) labels.

Definition default_labels : list str :=
  [py "B-assist"; py "B-cellno"; py "B-city"; py "B-community"; py "B-devzone";
   py "B-distance"; py "B-district"; py "B-floorno"; py "B-houseno";
   py "B-intersection"; py "B-poi"; py "B-prov"; py "B-road"; py "B-roadno";
   py "B-roomno"; py "B-subpoi"; py "B-town"; py "B-village_group";
   py "E-assist"; py "E-cellno"; py "E-city"; py "E-community"; py "E-devzone";
   py "E-distance"; py "E-district"; py "E-floorno"; py "E-houseno";
   py "E-intersection"; py "E-poi"; py "E-prov"; py "E-road"; py "E-roadno";
   py "E-roomno"; py "E-subpoi"; py "E-town"; py "E-village_group";
   py "I-assist"; py "I-cellno"; py "I-city"; py "I-community"; py "I-devzone";
   py "I-distance"; py "I-district"; py "I-floorno"; py "I-houseno";
   py "I-intersection"; py "I-poi"; py "I-prov"; py "I-road"; py "I-roadno";
   py "I-roomno"; py "I-subpoi"; py "I-town"; py "I-village_group";
   py "O"; py "S-assist"; py "S-community"; py "S-district"; py "S-intersection";
   py "S-poi"; py "S-roomno"].

(** [_get_default_label_mapping], its [id2label] component. *)
Definition get_default_label_mapping : list (str * str) :=
  label_mapping default_labels.

(** What [self.nlp(text)] gives, as far as [predict_single] looks at it: an
    exception, a string, a dictionary with its ['output'] if it has one, or
    any other value; [None] stands for a value that is not a list. *)
Inductive pipeline_answer :=
| PipelineRaises
| PipelineStr
| PipelineDict (output : option (option (list (option pipeline_result))))
| PipelineOther (results : option (list (option pipeline_result))).

(** The attributes of [MGeoInference] the predictions read.  [model] stands
    for the model with its preprocessor, which are set together (lines
    47-51); applied to a text it gives the predicted ids, or [None] for an
    exception raised while preprocessing or running the model. *)
Record inference := mk_inference {
  nlp : option (str → pipeline_answer);
  model : option (str → option (list nat));
  id2label : list (str * str)
}.

(** [__init__] with [_load_model]: [pipeline_] and [from_pretrained] are
    [None] when the corresponding loading raises; the result is [None] when
    both do. *)
Definition load_model (pipeline_ : option (str → pipeline_answer))
    (from_pretrained : option (str → option (list nat)))
    (id2label : list (str * str)) : option inference :=
  match pipeline_ with
  | Some nlp => Some (mk_inference (Some nlp) None id2label)
  | None =>
    match from_pretrained with
    | Some model => Some (mk_inference None (Some model) id2label)
    | None => None
    end
  end.

(** [_predict_with_model]; [None] is the exception of lines 127-128. *)
Definition predict_with_model (self : inference) (text : str) : option prediction :=
  match model self with
  | None => None
  | Some model =>
    let tokens := map (fun c => [c]) text in
    match model text with
    | Some pred_ids => Some (tags_of_predictions (id2label self) pred_ids text)
    | None => Some (mk_prediction tokens (replicate (length tokens) (py "O")) text)
    end
  end.

(** [predict_single]; [None] is an exception that leaves the function. *)
Definition predict_single (self : inference) (text : str) : option prediction :=
  match nlp self with
  | Some nlp =>
    let attempt :=
      match nlp text with
      | PipelineRaises => None
      | PipelineStr => predict_with_model self text
      | PipelineDict None => predict_with_model self text
      | PipelineDict (Some results) => process_pipeline_results text results
      | PipelineOther results => process_pipeline_results text results
      end in
    match attempt with
    | Some prediction => Some prediction
    | None => predict_with_model self text
    end
  | None => predict_with_model self text
  end.

(** [extract_entities]: lines 246-306 are, statement for statement, the
    loop of [AddressFormatter.extract_entities_from_tokens]. *)
Definition extract_entities (self : inference) (text : str)
    : option (list (str * list str)) :=
  prediction ← predict_single self text;
  Some (Decoder.extract_entities_from_tokens (p_tokens prediction)
                                             (p_ner_tags prediction)).

End Inference.

(** ** The label list of a training set: mgeo_finetune.py *)

Module Labels.

(** [a <= b] on Python strings: lexicographic on code points. *)
Fixpoint str_leb (a b : str) : bool :=
  match a, b with
  | [], _ => true
  | _ :: _, [] => false
  | x :: a', y :: b' => (x <? y)%N || ((x =? y)%N && str_leb a' b')
  end.

Definition str_le (a b : str) : Prop := str_leb a b = true.

#[global] Instance str_le_dec a b : Decision (str_le a b).
Proof. unfold str_le. apply _. Defined.

(** [get_label_list]: the union of the label sets, as a sorted list. *)
Definition get_label_list (labels : list (list str)) : list str :=
  let unique_labels :=
    foldl (fun unique_labels label => unique_labels ∪ list_to_set label)
          (∅ : gset str) labels in
  merge_sort str_le (elements unique_labels).

End Labels.

(** ** Requesting the service: inference_service/batch_mgeo_request.py *)

Module Client.

(** A condition on an optional string: neither [None] nor empty. *)
Definition given (u : option str) : list str :=
  match u with
  | Some (c :: s) => [c :: s]
  | _ => []
  end.

(** Lines 43-49: duplicates are dropped, the first occurrence stays. *)
Definition ordered_unique (urls : list str) : list str :=
  (foldl (fun '(ordered, seen) u =>
            if bool_decide (u ∈ (seen : gset str)) then (ordered, seen)
            else (ordered ++ [u], seen ∪ {[u]}))
         ([], ∅) urls).1.

Definition default_url : str := py "http://localhost:7869/standardaddr".

(** [resolve_mgeo_url]; [env_url] is [os.environ.get("MGEO_URL")]. *)
Definition resolve_mgeo_url (cli_url env_url : option str) : list str :=
  ordered_unique (given cli_url ++ given env_url ++ [default_url]).

(** What one call of [mgeo_post] gives: a response (any value but [None]),
    [None], or an exception. *)
Inductive reply (R : Type) :=
| Response (r : R)
| NoResponse
| Raised.
Arguments Response {R} r.
Arguments NoResponse {R}.
Arguments Raised {R}.

(** The loop of [post_with_fallback] (lines 57-64).  [mgeo_post] is the call
    [mgeo_post(data, url=u, timeout=timeout)]: it depends on the state [w] of
    the outside world and changes it.  [calls] records the requests made so
    far with their replies. *)
Fixpoint try_urls {W R} (mgeo_post : str → W → reply R * W)
    (candidate_urls : list str) (calls : list (str * reply R)) (w : W)
    : option R * list (str * reply R) * W :=
  match candidate_urls with
  | [] => (None, calls, w)
  | u :: rest =>
    let '(resp, w) := mgeo_post u w in
    match resp with
    | Response r => (Some r, calls ++ [(u, resp)], w)
    | _ => try_urls mgeo_post rest (calls ++ [(u, resp)]) w
    end
  end.

(** [post_with_fallback]: the value returned, the requests made and the new
    state of the world; [mgeo_post] is [None] when the client module could
    not be imported. *)
Definition post_with_fallback {W D R} (mgeo_post : option (D → str → W → reply R * W))
    (data : D) (candidate_urls : list str) (w : W)
    : option R * list (str * reply R) * W :=
  match mgeo_post with
  | None => (None, [], w)
  | Some mgeo_post => try_urls (mgeo_post data) candidate_urls [] w
  end.

(** A surrogate code point: [json.dumps(..., ensure_ascii=False)] leaves it
    as it is, and the UTF-8 encoder of the response file refuses it. *)
Definition is_surrogate (c : char) : bool :=
  (55296 <=? c)%N && (c <=? 57343)%N.

Definition has_surrogate (s : str) : bool := existsb is_surrogate s.

(** What [json.loads] makes of a line, as far as [batch_request_mgeo] looks
    at it: a parse error, a value without [get], or a dictionary with its
    ["address"] (the empty string when missing) and whether its
    ["entities"] can be encoded. *)
Inductive parsed :=
| ParseError
| NotADict
| Record_ (address : str) (entities_encodable : bool).

Record stats := mk_stats {
  total : nat;
  requests_success : nat;
  requests_failed : nat
}.

(** A record written to the response file: its line number, the response
    and whether its ["error"] field is set. *)
Record written (R : Type) := mk_written {
  w_line_num : nat;
  w_mgeo_response : option R;
  w_error : bool
}.
Arguments mk_written {R} _ _ _.
Arguments w_line_num {R} _.
Arguments w_mgeo_response {R} _.
Arguments w_error {R} _.

(** [if mgeo_response]: neither [None] nor a falsy value such as [{}]. *)
Definition truth {R} (truthy : R → bool) (mgeo_response : option R) : bool :=
  match mgeo_response with
  | Some r => truthy r
  | None => false
  end.

(** [if limit and stats["total"] >= limit] *)
Definition limit_reached (limit : option Z) (st : stats) : bool :=
  match limit with
  | Some l => negb (l =? 0)%Z && (l <=? Z.of_nat (total st))%Z
  | None => false
  end.

(** Whether [fout.write(json.dumps(record, ensure_ascii=False) + "\n")] of
    line 140 succeeds: the strings of the record hold no surrogate.
    [encodable] says so of a response. *)
Definition record_encodable {R} (encodable : R → bool) (address : str)
    (entities_encodable : bool) (mgeo_response : option R) : bool :=
  negb (has_surrogate address) && entities_encodable
  && match mgeo_response with
     | Some r => encodable r
     | None => true
     end.

(** The loop of [batch_request_mgeo] (lines 87-138) from line [line_num] on.
    The request data are determined by the address.  The result is [None]
    when an exception leaves the loop: [data.get] on a value that is not a
    dictionary, or the write of a record that cannot be encoded; neither is
    inside a [try]. *)
Fixpoint request_lines {W R} (loads : str → parsed) (truthy encodable : R → bool)
    (mgeo_post : option (str → str → W → reply R * W)) (candidate_urls : list str)
    (limit : option Z) (line_num : nat) (lines : list str)
    (st : stats) (out : list (written R)) (w : W)
    : option (stats * list (written R) * W) :=
  match lines with
  | [] => Some (st, out, w)
  | line :: rest =>
    if limit_reached limit st then Some (st, out, w)
    else
      let line := strip line in
      match line with
      | [] => request_lines loads truthy encodable mgeo_post candidate_urls limit
                (S line_num) rest st out w
      | _ =>
        let st := mk_stats (S (total st)) (requests_success st) (requests_failed st) in
        match loads line with
        | ParseError =>
          if has_surrogate line then None
          else
            request_lines loads truthy encodable mgeo_post candidate_urls limit
              (S line_num) rest
              (mk_stats (total st) (requests_success st) (S (requests_failed st)))
              (out ++ [mk_written line_num None true]) w
        | NotADict => None
        | Record_ address entities_encodable =>
          let '(mgeo_response, _, w) :=
            post_with_fallback mgeo_post address candidate_urls w in
          let record :=
            mk_written line_num mgeo_response (negb (truth truthy mgeo_response)) in
          let st :=
            if truth truthy mgeo_response
            then mk_stats (total st) (S (requests_success st)) (requests_failed st)
            else mk_stats (total st) (requests_success st) (S (requests_failed st)) in
          if record_encodable encodable address entities_encodable mgeo_response
          then request_lines loads truthy encodable mgeo_post candidate_urls limit
                 (S line_num) rest st (out ++ [record]) w
          else None
        end
      end
  end.

(** [batch_request_mgeo], as far as the statistics and the response file go:
    [lines] are the lines of the input file as decoded from UTF-8,
    [env_url] is [os.environ.get("MGEO_URL")]. *)
Definition batch_request_mgeo {W R} (loads : str → parsed) (truthy encodable : R → bool)
    (mgeo_post : option (str → str → W → reply R * W))
    (lines : list str) (mgeo_url env_url : option str) (limit : option Z) (w : W)
    : option (stats * list (written R) * W) :=
  request_lines loads truthy encodable mgeo_post (resolve_mgeo_url mgeo_url env_url)
    limit 1 lines (mk_stats 0 0 0) [] w.

End Client.

(** ** The service: inference_service/mgeo_service.py *)

Module Service.

(** What [standardize_address] answers: an [HTTPException] that is raised
    again, the response with [success=False] built in the [except] branch,
    or the response with [success=True] and its three results. *)
Inductive response :=
| HTTPException (status_code : nat)
| Failed
| Standardized (token_result : Inference.prediction)
               (entity_result : Formatter.formatted)
               (level11_result : Levels.levels).

(** [Level11Result(...)]: the thirteen fields read with [get]; an ['error']
    field is not carried over. *)
Definition Level11Result (level11_data : Levels.levels) : Levels.levels :=
  Levels.mk_levels
    (Levels.level1 level11_data) (Levels.level2 level11_data)
    (Levels.level3 level11_data) (Levels.level4 level11_data)
    (Levels.level5 level11_data) (Levels.level6 level11_data)
    (Levels.level7 level11_data) (Levels.level8 level11_data)
    (Levels.level9 level11_data) (Levels.level10 level11_data)
    (Levels.level11 level11_data) (Levels.remark level11_data)
    (Levels.original_text level11_data) None.

(** [standardize_address] (lines 150-273), without the timing and the
    logging; [inferencer] and [formatter] are the two globals, [formatter]
    as a condition, and [frames] the frames the interpreter has left above a
    call of [find_value] made by the classifier. *)
Definition standardize_address (frames : nat) (inferencer : option Inference.inference)
    (formatter : bool) (request_address : str) : response :=
  match inferencer, formatter with
  | Some inferencer, true =>
    let address := strip request_address in
    match address with
    | [] => HTTPException 400
    | _ =>
      match Inference.predict_single inferencer address with
      | None => Failed
      | Some token_prediction =>
        let entity_formatted :=
          Formatter.format_address
            (Formatter.mk_raw (Some (Inference.p_tokens token_prediction))
                              (Some (Inference.p_ner_tags token_prediction))
                              (Some (Inference.p_text token_prediction))) in
        let level11_data :=
          Levels.classify_elements_to_11_levels frames
            (LevelProps.str_dict (Formatter.f_entities entity_formatted)) address in
        Standardized token_prediction entity_formatted (Level11Result level11_data)
      end
    end
  | _, _ => HTTPException 503
  end.

End Service.

(** ** Predicates used to state further properties *)

Module MoreProps.

(** [v] is the concatenation of a non-empty run of consecutive tokens. *)
Definition run_of (tokens : list str) (v : str) : Prop :=
  ∃ i n, 0 < n ∧ i + n ≤ length tokens ∧ v = join (take n (drop i tokens)).

(** The decoder has read [k] pairs: every value found is a run of tokens and
    the accumulator holds the last tokens read. *)
Definition reading (tokens : list str) (k : nat) (st : Decoder.state) : Prop :=
  Forall (fun kv : str * list str => Forall (run_of tokens) kv.2) (Decoder.entities st)
  ∧ ∃ n, n ≤ k ∧ Decoder.current_tokens st = take n (drop (k - n) tokens).

(** The emission loop has handled the spans [seen]: there is one tag per
    consumed offset, every span of [seen] carries its tags, and the
    consumed offsets outside these spans carry ['O']. *)
Definition tagged (st : Encoder.state) (seen : list Encoder.entity_position) : Prop :=
  length (Encoder.ner_tags st) = Encoder.current_pos st
  ∧ (∀ e i, e ∈ seen → i < length (Encoder.e_text e) →
       Encoder.e_end e ≤ Encoder.current_pos st
       ∧ Encoder.ner_tags st !! (Encoder.e_start e + i)
         = Some (Encoder.bioes_tag (Encoder.e_type e) (length (Encoder.e_text e)) i))
  ∧ (∀ j, j < Encoder.current_pos st →
       (∀ e, e ∈ seen → ¬ (Encoder.e_start e ≤ j < Encoder.e_end e)) →
       Encoder.ner_tags st !! j = Some (py "O")).

(** A tag of the BIOES alphabet over the categories [types]. *)
Definition bioes_over (types : list str) (tag : str) : Prop :=
  tag = py "O"
  ∨ ∃ prefix ty, prefix ∈ [py "B-"; py "I-"; py "E-"; py "S-"] ∧ ty ∈ types
                 ∧ tag = prefix ++ ty.

(** The span [sp] recorded under [key] is an occurrence in [addr] of one of
    the candidate strings of a value [d] holds for [key]. *)
Definition occurrence_of (d : list (str * str)) (addr key : str) (sp : Levels.span)
    : Prop :=
  sp.2 ≤ length addr
  ∧ ∃ value cand, (key, value) ∈ d ∧ cand ∈ Encoder.split_entities value
                  ∧ sp.2 = sp.1 + length cand ∧ slice addr sp.1 sp.2 = cand.

(** The two span variables of a level are set together, the minimum not to
    the right of the maximum. *)
Definition set_together (sel : option Levels.span * option Levels.span) : Prop :=
  (sel.1 = None ↔ sel.2 = None)
  ∧ ∀ mn mx, sel = (Some mn, Some mx) → mn.1 ≤ mx.1.

(** [s] is a contiguous piece of [addr]. *)
Definition substring_of (addr s : str) : Prop := ∃ a b, s = slice addr a b.

(** A value that [', '.join] and [split(',')] with [strip()] give back
    unchanged: no comma, no outer whitespace. *)
Definition plain (v : str) : Prop := contains comma v = false ∧ strip v = v.

(** Offset [i] lies in the clamped range of [result]. *)
Definition in_range (text : str) (result : Inference.pipeline_result) (i : nat) : Prop :=
  Inference.result_start text result ≤ i < Inference.result_end text result.

(** The results cover non-empty ranges met from left to right from offset
    [k] on, none reaching into the next. *)
Fixpoint left_to_right (text : str) (k : nat)
    (results : list Inference.pipeline_result) : bool :=
  match results with
  | [] => true
  | r :: rest =>
    (k <=? Inference.result_start text r)
    && (Inference.result_start text r <? Inference.result_end text r)
    && left_to_right text (Inference.result_end text r) rest
  end.

(** A label whose first tag opens an entity in the decoder: it is bare or
    carries the prefix ['B-']. *)
Definition opening (label : str) : bool :=
  negb (startswith label (py "I-") || startswith label (py "E-")
        || startswith label (py "S-")).

(** A reply that ends the loop of [post_with_fallback]. *)
Definition is_response {R} (x : Client.reply R) : bool :=
  match x with
  | Client.Response _ => true
  | _ => false
  end.

(** Requesting every URL of [urls] in turn from the world [w]: the replies
    and the world left. *)
Fixpoint request_all {W R} (mgeo_post : str → W → Client.reply R * W)
    (urls : list str) (w : W) : list (str * Client.reply R) * W :=
  match urls with
  | [] => ([], w)
  | u :: rest =>
    let '(resp, w) := mgeo_post u w in
    let '(calls, w) := request_all mgeo_post rest w in
    ((u, resp) :: calls, w)
  end.

(** The lines the loop of [batch_request_mgeo] can read and answer without
    an uncaught exception: a line that is not blank holds either text that
    is not JSON and has no surrogate, or a JSON object whose address and
    entities have none. *)
Definition readable (loads : str → Client.parsed) (lines : list str) : Prop :=
  Forall (fun line =>
            strip line = []
            ∨ match loads (strip line) with
              | Client.ParseError => Client.has_surrogate (strip line) = false
              | Client.NotADict => False
              | Client.Record_ address entities_encodable =>
                Client.has_surrogate address = false ∧ entities_encodable = true
              end) lines.

(** The candidate strings of the dictionary's values that occur in the
    text: what the index loop can locate. *)
Definition occurring (d : list (str * str)) (addr : str) : list str :=
  List.filter (fun cand => bool_decide (is_Some (find addr cand 0)))
              (flat_map (fun kv : str * str => Encoder.split_entities kv.2) d).

(** [sp] is a span recorded in [indices] under one of the categories
    [keys]. *)
Definition located_under (keys : list str) (indices : Levels.index_map)
    (sp : Levels.span) : Prop :=
  ∃ key l, key ∈ keys ∧ dict_get key indices = Some l ∧ sp ∈ l.

(** The record of the [except] branch. *)
Definition failure_record (original_text : str) (e : Levels.exn) : Levels.levels :=
  Levels.mk_levels (Levels.PyStr []) (Levels.PyStr []) (Levels.PyStr []) (Levels.PyStr [])
                   [] [] [] [] [] [] [] [] original_text (Some e).

End MoreProps.

(** * Properties *)

(** * Facts about the string primitives *)

Section StringFacts.

Lemma startswith_spec (s p : str) :
  startswith s p = true ↔ take (length p) s = p ∧ length p ≤ length s.
Proof.
  revert s. induction p as [|a p IH]; intros s; simpl.
  - split; [intros _; split; [reflexivity | lia] | done].
  - destruct s as [|b s]; simpl.
    + split; [done | intros [_ ?]; lia].
    + rewrite andb_true_iff, IH, N.eqb_eq. split.
      * intros [-> [-> ?]]. split; [done | lia].
      * intros [[= -> ->] ?]. split; [done | split; [done | lia]].
Qed.

Lemma find_at_spec (l sub : str) (pos p : nat) :
  find_at l sub pos = Some p →
  pos ≤ p ∧ take (length sub) (drop (p - pos) l) = sub
  ∧ p - pos + length sub ≤ length l.
Proof.
  revert pos. induction l as [|c l IH]; intros pos; simpl.
  - destruct (startswith [] sub) eqn:E; [|done].
    intros [= <-]. apply startswith_spec in E as [E1 E2].
    rewrite Nat.sub_diag. simpl in *. split; [lia | split; [done | lia]].
  - destruct (startswith (c :: l) sub) eqn:E.
    + intros [= <-]. apply startswith_spec in E as [E1 E2].
      rewrite Nat.sub_diag. simpl in *. split; [lia | split; [done | lia]].
    + intros H. apply IH in H as (H1 & H2 & H3).
      replace (p - pos) with (S (p - S pos)) by lia. simpl.
      split; [lia | split; [done | lia]].
Qed.

Lemma find_spec (s sub : str) (start p : nat) :
  find s sub start = Some p →
  start ≤ p ∧ slice s p (p + length sub) = sub ∧ p + length sub ≤ length s.
Proof.
  unfold find, slice. destruct (start <=? length s) eqn:E; [|done].
  apply Nat.leb_le in E. intros H. apply find_at_spec in H as (H1 & H2 & H3).
  rewrite length_drop in H3. rewrite drop_drop in H2.
  replace (start + (p - start)) with p in H2 by lia.
  replace (p + length sub - p) with (length sub) by lia.
  split; [done | split; [done | lia]].
Qed.

Lemma slice_app_take (s : str) (a b : nat) :
  a ≤ b → take a s ++ slice s a b = take b s.
Proof.
  intros H. unfold slice.
  replace b with (a + (b - a)) at 2 by lia.
  by rewrite take_take_drop.
Qed.

End StringFacts.

(** * The encoder *)

Section EncoderFacts.
Import Encoder Props.

Variable original_address : str.

Lemma locate_located_in (ty v : str) :
  Forall (located_in original_address) (locate original_address ty v).
Proof.
  unfold locate. destruct v as [|c v]; [constructor|].
  destruct (find _ _ 0) as [p|] eqn:E; [|constructor].
  apply find_spec in E as (_ & E2 & E3).
  repeat constructor; simpl; try done.
Qed.

Lemma entity_positions_located_in (ac : list (str * str)) :
  Forall (located_in original_address) (entity_positions ac original_address).
Proof.
  unfold entity_positions. apply Forall_flat_map, Forall_forall.
  intros [ty v] _. destruct v as [|c v]; [constructor|].
  apply Forall_flat_map, Forall_forall. intros w _. apply locate_located_in.
Qed.

Lemma insert_by_start_perm (x : entity_position) l :
  insert_by_start x l ≡ₚ x :: l.
Proof.
  induction l as [|y l IH]; simpl; [done|].
  destruct (e_start x <=? e_start y); [done|].
  rewrite IH. apply Permutation_swap.
Qed.

Lemma sort_by_start_perm l : sort_by_start l ≡ₚ l.
Proof.
  induction l as [|x l IH]; simpl; [done|].
  by rewrite insert_by_start_perm, IH.
Qed.

Lemma ascending_cons x l :
  ascending (x :: l) = true ↔
  Forall (fun y => e_start x ≤ e_start y) l ∧ ascending l = true.
Proof.
  simpl. rewrite andb_true_iff, forallb_forall, Forall_forall.
  split; intros [H1 H2]; (split; [|done]); intros y Hy.
  - apply Nat.leb_le, H1. by apply list_elem_of_In.
  - apply Nat.leb_le, H1. by apply list_elem_of_In.
Qed.

Lemma insert_by_start_ascending x l :
  ascending l = true → ascending (insert_by_start x l) = true.
Proof.
  induction l as [|y l IH]; [done|].
  intros Hl. pose proof Hl as Hl'. apply ascending_cons in Hl' as [H1 H2].
  cbn [insert_by_start]. destruct (e_start x <=? e_start y) eqn:E.
  - apply ascending_cons. split; [|done].
    apply Nat.leb_le in E. constructor; [done|].
    eapply Forall_impl; [exact H1|]. simpl. lia.
  - apply Nat.leb_gt in E. apply ascending_cons. split; [|by apply IH].
    rewrite insert_by_start_perm. constructor; [lia | done].
Qed.

Lemma sort_by_start_ascending l : ascending (sort_by_start l) = true.
Proof.
  induction l as [|x l IH]; [done|]. by apply insert_by_start_ascending.
Qed.

Lemma overlap_sym a b : overlap a b = overlap b a.
Proof. unfold overlap. apply andb_comm. Qed.

Lemma pairwise_disjoint_cons x l :
  pairwise_disjoint (x :: l) = true ↔
  Forall (fun y => overlap x y = false) l ∧ pairwise_disjoint l = true.
Proof.
  simpl. rewrite andb_true_iff, forallb_forall, Forall_forall.
  split; intros [H1 H2]; (split; [|done]); intros y Hy.
  - apply negb_true_iff, H1. by apply list_elem_of_In.
  - apply negb_true_iff, H1. by apply list_elem_of_In.
Qed.

Lemma pairwise_disjoint_insert x l :
  pairwise_disjoint (x :: l) = true → pairwise_disjoint (insert_by_start x l) = true.
Proof.
  induction l as [|y l IH]; [done|].
  intros H. cbn [insert_by_start]. destruct (e_start x <=? e_start y); [done|].
  apply pairwise_disjoint_cons in H as [Hx Hl].
  apply pairwise_disjoint_cons in Hl as [Hy Hl].
  inversion Hx as [|? ? Hxy Hx']; subst.
  apply pairwise_disjoint_cons. split.
  - rewrite insert_by_start_perm. constructor; [by rewrite overlap_sym | done].
  - apply IH. by apply pairwise_disjoint_cons.
Qed.

Lemma pairwise_disjoint_sort l :
  pairwise_disjoint l = true → pairwise_disjoint (sort_by_start l) = true.
Proof.
  induction l as [|x l IH]; [done|].
  intros H. apply pairwise_disjoint_cons in H as [Hx Hl].
  cbn [sort_by_start]. apply pairwise_disjoint_insert, pairwise_disjoint_cons.
  split; [|by apply IH]. by rewrite sort_by_start_perm.
Qed.

Lemma join_chars (s : str) : join (chars s) = s.
Proof. unfold join, chars. induction s as [|c s IH]; simpl; by f_equal. Qed.

Lemma length_chars (s : str) : length (chars s) = length s.
Proof. unfold chars. by rewrite length_map. Qed.

(** Tokens and tags grow together. *)
Lemma emit_outside_lengths st s :
  length (tokens st) = length (ner_tags st) →
  length (tokens (emit_outside st s)) = length (ner_tags (emit_outside st s)).
Proof. intros H. simpl. rewrite !length_app, !length_map. lia. Qed.

Lemma emit_entity_lengths st e :
  length (tokens st) = length (ner_tags st) →
  length (tokens (emit_entity original_address st e))
  = length (ner_tags (emit_entity original_address st e)).
Proof.
  intros H. unfold emit_entity. cbn [tokens ner_tags].
  rewrite !length_app, length_map, length_imap.
  destruct (current_pos st <? e_start e); [|lia].
  rewrite (emit_outside_lengths _ _ H). lia.
Qed.

Lemma emit_loop_lengths st es :
  length (tokens st) = length (ner_tags st) →
  length (tokens (foldl (emit_entity original_address) st es))
  = length (ner_tags (foldl (emit_entity original_address) st es)).
Proof.
  revert st. induction es as [|e es IH]; intros st H; [done|].
  simpl. by apply IH, emit_entity_lengths.
Qed.

Lemma emit_all_lengths es :
  length (tokens (emit_all original_address es))
  = length (ner_tags (emit_all original_address es)).
Proof.
  unfold emit_all, emit_remaining.
  pose proof (emit_loop_lengths (mk_state [] [] 0) es eq_refl) as H.
  destruct (_ <? _); [by apply emit_outside_lengths | done].
Qed.

Lemma chars_app (s t : str) : chars (s ++ t) = chars s ++ chars t.
Proof. apply map_app. Qed.

Lemma emit_entity_in_step st e :
  in_step original_address st → located_in original_address e → current_pos st ≤ e_start e →
  in_step original_address (emit_entity original_address st e).
Proof.
  intros [H1 H2] (Ht & He & Hs & Hl) Hc. unfold in_step, emit_entity.
  cbn [tokens current_pos]. split; [|done].
  fold (chars (e_text e)).
  destruct (current_pos st <? e_start e) eqn:E.
  - cbn [emit_outside tokens].
    fold (chars (slice original_address (current_pos st) (e_start e))).
    rewrite H1, <- !chars_app, slice_app_take by done.
    rewrite <- Hs. f_equal. apply slice_app_take. lia.
  - apply Nat.ltb_ge in E. assert (current_pos st = e_start e) as Heq by lia.
    rewrite H1, <- chars_app, Heq, <- Hs. f_equal.
    apply slice_app_take. lia.
Qed.

Lemma emit_loop_in_step st es :
  in_step original_address st → Forall (located_in original_address) es →
  ascending es = true → pairwise_disjoint es = true →
  Forall (fun e => current_pos st ≤ e_start e) es →
  in_step original_address (foldl (emit_entity original_address) st es).
Proof.
  revert st. induction es as [|e es IH]; intros st Hst Hloc Hasc Hdis Hcur; [done|].
  simpl. apply ascending_cons in Hasc as [Ha1 Ha2].
  apply pairwise_disjoint_cons in Hdis as [Hd1 Hd2].
  inversion Hloc as [|? ? Hle Hles]; subst.
  inversion Hcur as [|? ? Hce Hces]; subst.
  apply IH; try done; [by apply emit_entity_in_step|].
  cbn [emit_entity current_pos].
  apply Forall_forall. intros y Hy.
  rewrite Forall_forall in Ha1, Hd1, Hles.
  specialize (Ha1 y Hy). specialize (Hd1 y Hy).
  destruct (Hles y Hy) as (Hty & Hey & _ & _).
  destruct Hle as (Hte & Hee & _ & _).
  unfold overlap in Hd1. apply andb_false_iff in Hd1.
  assert (0 < length (e_text y)) by (destruct (e_text y); [done | simpl; lia]).
  destruct Hd1 as [Hd1|Hd1]; apply Nat.ltb_ge in Hd1; lia.
Qed.

Lemma emit_all_chars es :
  Forall (located_in original_address) es → ascending es = true → pairwise_disjoint es = true →
  tokens (emit_all original_address es) = chars original_address.
Proof.
  intros Hloc Hasc Hdis.
  assert (in_step original_address
            (foldl (emit_entity original_address) (mk_state [] [] 0) es))
    as [H1 H2].
  { apply emit_loop_in_step; try done.
    - split; simpl; [done | lia].
    - apply Forall_forall. intros; simpl; lia. }
  unfold emit_all, emit_remaining.
  destruct (_ <? _) eqn:E.
  - cbn [emit_outside tokens]. fold (chars (drop (current_pos
      (foldl (emit_entity original_address) (mk_state [] [] 0) es)) original_address)).
    by rewrite H1, <- chars_app, take_drop.
  - apply Nat.ltb_ge in E. rewrite H1. f_equal. apply take_ge. lia.
Qed.

End EncoderFacts.

Section EncoderClaims.
Import Encoder Props.

(** C1 (as amended).  For every text and category map the encoder returns
    as many tags as tokens.  When the located spans are pairwise
    non-overlapping, the tokens are exactly the characters of the text:
    [len(tokens) == len(Text)] and ["".join(tokens) == Text]. *)
Theorem encoder_length_and_concatenation (address_components : list (str * str))
    (original_address : str) :
  let out := convert_address_to_token address_components original_address in
  length (r_tokens out) = length (r_ner_tags out)
  ∧ (pairwise_disjoint (entity_positions address_components original_address) = true →
     length (r_tokens out) = length original_address
     ∧ join (r_tokens out) = original_address).
Proof.
  cbn zeta. unfold convert_address_to_token. cbn [r_tokens r_ner_tags].
  split; [apply emit_all_lengths|]. intros Hdis.
  rewrite emit_all_chars.
  - by rewrite length_chars, join_chars.
  - eapply Forall_forall. intros e He. rewrite sort_by_start_perm in He.
    pose proof (entity_positions_located_in original_address address_components) as H.
    rewrite Forall_forall in H. by apply H.
  - apply sort_by_start_ascending.
  - by apply pairwise_disjoint_sort.
Qed.

Lemma encoder_length_and_concatenation_witness :
  let ac := [(py "floorno", py "五楼"); (py "roomno", py "501")] in
  let s := py "五楼501" in
  let out := convert_address_to_token ac s in
  pairwise_disjoint (entity_positions ac s) = true
  ∧ length (r_tokens out) = length (r_ner_tags out)
  ∧ length (r_tokens out) = length s ∧ join (r_tokens out) = s.
Proof.
  cbn zeta.
  pose proof (encoder_length_and_concatenation
                [(py "floorno", py "五楼"); (py "roomno", py "501")] (py "五楼501"))
    as [H1 H2].
  split; [reflexivity|]. split; [exact H1|]. apply H2. reflexivity.
Defined.

(** C1 as stated fails on overlapping values: ["ab"] and ["bc"] in ["abc"]
    yield four tokens for three characters. *)
Lemma encoder_length_overlap_counterexample :
  let out := convert_address_to_token [(py "x", py "ab"); (py "y", py "bc")] (py "abc") in
  r_tokens out = [py "a"; py "b"; py "b"; py "c"]
  ∧ length (r_tokens out) ≠ length (py "abc")
  ∧ join (r_tokens out) ≠ py "abc".
Proof. cbn zeta. split; [reflexivity|]. split; vm_compute; discriminate. Qed.

(** Example 2 of the specification. *)
Example encoder_example_floor_room :
  r_ner_tags (convert_address_to_token
                [(py "floorno", py "五楼"); (py "roomno", py "501")] (py "五楼501"))
  = [py "B-floorno"; py "E-floorno"; py "B-roomno"; py "I-roomno"; py "E-roomno"].
Proof. reflexivity. Qed.

(** C5 (as amended).  A span whose start lies before the cursor is emitted
    whole: no gap characters, then every character of the span with its
    B/I/E/S tag, and the cursor moves to the span's end, wherever it was. *)
Theorem encoder_span_behind_cursor_emitted_whole (original_address : str) (st : state)
    (entity : entity_position) :
  e_start entity < current_pos st →
  let st' := emit_entity original_address st entity in
  tokens st' = tokens st ++ chars (e_text entity)
  ∧ ner_tags st'
    = ner_tags st
      ++ imap (fun i _ => bioes_tag (e_type entity) (length (e_text entity)) i)
              (e_text entity)
  ∧ current_pos st' = e_end entity.
Proof.
  intros H. cbn zeta. unfold emit_entity.
  assert ((current_pos st <? e_start entity) = false) as -> by (apply Nat.ltb_ge; lia).
  done.
Qed.

Lemma encoder_span_behind_cursor_emitted_whole_witness :
  let s := py "abc" in
  let st := emit_entity s (mk_state [] [] 0) (mk_entity 0 2 (py "ab") (py "x")) in
  let st' := emit_entity s st (mk_entity 1 3 (py "bc") (py "y")) in
  1 < current_pos st
  ∧ tokens st' = [py "a"; py "b"; py "b"; py "c"]
  ∧ ner_tags st' = [py "B-x"; py "E-x"; py "B-y"; py "E-y"]
  ∧ current_pos st' = 3.
Proof.
  cbn zeta.
  pose proof (encoder_span_behind_cursor_emitted_whole (py "abc")
    (emit_entity (py "abc") (mk_state [] [] 0) (mk_entity 0 2 (py "ab") (py "x")))
    (mk_entity 1 3 (py "bc") (py "y"))) as H.
  split; [vm_compute; lia|].
  destruct H as (H1 & H2 & H3); [vm_compute; lia|].
  rewrite H1, H2, H3. repeat split; reflexivity.
Defined.

(** C5 as stated fails.  In ["abcde"] the span ["cde"] starts behind the
    cursor left at 3 by ["abc"] and should be emitted for its tail ["de"]
    only; the span ["bc"] lies inside the consumed region and should be
    dropped.  Both are emitted whole. *)
Lemma encoder_tail_only_counterexample :
  let s := py "abcde" in
  let abc := mk_entity 0 3 (py "abc") (py "x") in
  let cde := mk_entity 2 5 (py "cde") (py "y") in
  let bc := mk_entity 1 3 (py "bc") (py "z") in
  let st := emit_entity s (mk_state [] [] 0) abc in
  sort_by_start (entity_positions [(py "y", py "cde"); (py "x", py "abc")] s) = [abc; cde]
  ∧ sort_by_start (entity_positions [(py "z", py "bc"); (py "x", py "abc")] s) = [abc; bc]
  ∧ current_pos st = 3
  ∧ tokens (emit_entity s st cde) = chars (py "abccde")
  ∧ tokens (emit_entity s st bc) = chars (py "abcbc")
  ∧ (¬ emits_tail_only s st cde)
  ∧ (¬ emits_tail_only s st bc).
Proof.
  cbn zeta. do 5 (split; [reflexivity|]).
  split; unfold emits_tail_only; vm_compute; discriminate.
Qed.

End EncoderClaims.

(** * The decoder *)

Section DecoderFacts.
Import Encoder Props Decoder.

Lemma py_B : py "B-" = [66; 45]%N. Proof. reflexivity. Qed.
Lemma py_S : py "S-" = [83; 45]%N. Proof. reflexivity. Qed.
Lemma py_I : py "I-" = [73; 45]%N. Proof. reflexivity. Qed.
Lemma py_E : py "E-" = [69; 45]%N. Proof. reflexivity. Qed.

Lemma startswith_inv (s p : str) : startswith s p = true → ∃ rest, s = p ++ rest.
Proof.
  intros [H1 H2]%startswith_spec. exists (drop (length p) s).
  rewrite <- H1 at 1. by rewrite take_drop.
Qed.


Lemma dict_get_set_ne {V} (k k' : str) (v : V) d :
  k ≠ k' → dict_get k (dict_set k' v d) = dict_get k d.
Proof.
  intros Hne. induction d as [|[k'' v''] d IH]; simpl.
  - by rewrite decide_False.
  - destruct (decide (k' = k'')) as [->|Hne']; simpl.
    + by rewrite !decide_False.
    + destruct (decide (k = k'')); [done | apply IH].
Qed.






Lemma decode_app st p q : decode st (p ++ q) = decode (decode st p) q.
Proof. apply foldl_app. Qed.











End DecoderFacts.

Section DecoderClaims.
Import Encoder Props Decoder.





(** C6 (as amended).  While an accumulator is open for [cat]:
    an [I-] tag of any category, matching or not, appends the character and
    keeps the accumulator open; an [E-] tag of any category appends the
    character and closes the accumulator under [cat]; every other tag ([O],
    a fresh [B-] or [S-], anything else) flushes the accumulator as it is
    under [cat] and is then read by the idle rules. *)
Theorem decoder_open_transitions (ents : list (str * list str)) (cat : str)
    (acc : list str) (token tag : str) :
  acc ≠ [] →
  (startswith tag (py "I-") = true →
   step (opened ents cat acc) token tag = opened ents cat (acc ++ [token]))
  ∧ (startswith tag (py "E-") = true →
     step (opened ents cat acc) token tag
     = idle (add_entity cat (join (acc ++ [token])) ents))
  ∧ (startswith tag (py "I-") = false → startswith tag (py "E-") = false →
     flushes_then_restarts ents cat acc token tag).
Proof.
  intros Hacc. rewrite py_I, py_E. split; [|split].
  - intros [rest ->]%startswith_inv.
    unfold step, opened, is_open. rewrite py_B, py_S, py_I. done.
  - intros [rest ->]%startswith_inv.
    unfold step, opened, idle, is_open. rewrite py_B, py_S, py_I, py_E. done.
  - intros HI HE. unfold flushes_then_restarts, step.
    rewrite py_I, py_E, HI, HE.
    assert (flush (opened ents cat acc) = add_entity cat (join acc) ents) as ->.
    { unfold flush, opened. rewrite py_B. cbn [current_entity current_tokens].
      by destruct acc. }
    assert (flush (idle (add_entity cat (join acc) ents))
            = add_entity cat (join acc) ents) as -> by done.
    done.
Qed.

Lemma decoder_open_transitions_witness :
  let st := opened [] (py "road") [py "a"] in
  [py "a"] ≠ ([] : list str)
  ∧ step st (py "b") (py "I-poi") = opened [] (py "road") [py "a"; py "b"]
  ∧ step st (py "b") (py "E-poi") = idle [(py "road", [py "ab"])]
  ∧ step st (py "b") (py "O") = idle [(py "road", [py "a"])].
Proof.
  cbn zeta.
  pose proof (decoder_open_transitions [] (py "road") [py "a"] (py "b")) as H.
  split; [discriminate|]. split; [|split].
  - apply (H (py "I-poi")); [discriminate | reflexivity].
  - apply (H (py "E-poi")); [discriminate | reflexivity].
  - destruct (H (py "O")) as (_ & _ & H3); [discriminate|].
    etrans; [apply H3; reflexivity | reflexivity].
Defined.

(** C6 as stated fails for an [I-] tag of another category: the character
    is appended to the open accumulator and nothing is flushed. *)
Lemma decoder_mismatched_inside_counterexample :
  step (opened [] (py "road") [py "a"]) (py "b") (py "I-poi")
  = opened [] (py "road") [py "a"; py "b"]
  ∧ ¬ flushes_then_restarts [] (py "road") [py "a"] (py "b") (py "I-poi").
Proof.
  split; [reflexivity|]. unfold flushes_then_restarts. vm_compute. discriminate.
Qed.

End DecoderClaims.

Section LocateFacts.
Import Levels LevelProps.

Lemma overlaps_used_false used pos end_ :
  overlaps_used used pos end_ = false ↔ ∀ i, i ∈ used → ¬ (pos ≤ i < end_).
Proof.
  unfold overlaps_used. rewrite <- not_true_iff_false, existsb_exists. split.
  - intros H i Hi Hr. apply H. exists i. split.
    + by apply list_elem_of_In, elem_of_elements.
    + apply andb_true_iff. split; [apply Nat.leb_le | apply Nat.ltb_lt]; lia.
  - intros H (i & Hi & Hr). apply list_elem_of_In, elem_of_elements in Hi.
    apply andb_true_iff in Hr as [H1%Nat.leb_le H2%Nat.ltb_lt].
    apply (H i Hi). lia.
Qed.

Lemma overlaps_used_true_nonempty used pos end_ :
  overlaps_used used pos end_ = true → pos < end_.
Proof.
  unfold overlaps_used. rewrite existsb_exists. intros (i & _ & Hr).
  apply andb_true_iff in Hr as [H1%Nat.leb_le H2%Nat.ltb_lt]. lia.
Qed.

Lemma find_value_from_spec frames addr value start used sp used' :
  find_value_from frames addr value start used = Ok (Some (sp, used')) →
  start ≤ sp.1 ∧ sp.2 = sp.1 + length value ∧ sp.2 ≤ length addr
  ∧ slice addr sp.1 sp.2 = value
  ∧ (∀ i, i ∈ used → ¬ (sp.1 ≤ i < sp.2))
  ∧ used' = mark_used used sp.1 sp.2.
Proof.
  revert start. induction frames as [|frames IH]; intros start; simpl;
    destruct (find addr value start) as [pos|] eqn:Ef; try done.
  apply find_spec in Ef as (F1 & F2 & F3).
  destruct (overlaps_used used pos (pos + length value)) eqn:Eo.
  - intros H. apply IH in H as (H1 & H2). split; [lia | done].
  - intros [= <- <-]. simpl. pose proof (proj1 (overlaps_used_false _ _ _) Eo). done.
Qed.

(** The only exception [find_value] raises is [RecursionError]. *)
Lemma find_value_from_raise frames addr value start used e :
  find_value_from frames addr value start used = Raise e → e = RecursionError.
Proof.
  revert start. induction frames as [|frames IH]; intros start; simpl;
    destruct (find addr value start) as [pos|]; try done.
  - by intros [= <-].
  - destruct (overlaps_used used pos (pos + length value)); [apply IH | done].
Qed.

(** With more frames left than the text has characters past [start], the
    recursion ends before the frames run out. *)
Lemma find_value_from_enough frames addr value start used :
  length addr - start < frames →
  ∃ r, find_value_from frames addr value start used = Ok r.
Proof.
  revert start. induction frames as [|frames IH]; intros start Hlt; [lia|]. simpl.
  destruct (find addr value start) as [pos|] eqn:Ef; [|by eexists].
  apply find_spec in Ef as (F1 & F2 & F3).
  destruct (overlaps_used used pos (pos + length value)) eqn:Eo; [|by eexists].
  apply overlaps_used_true_nonempty in Eo. apply IH. lia.
Qed.

(** A result does not depend on the frames that were left over. *)
Lemma find_value_from_more frames frames' addr value start used r :
  find_value_from frames addr value start used = Ok r → frames ≤ frames' →
  find_value_from frames' addr value start used = Ok r.
Proof.
  revert frames' start. induction frames as [|frames IH]; intros frames' start; simpl.
  - destruct (find addr value start) as [pos|] eqn:Ef; [done|].
    intros H _. destruct frames'; simpl; by rewrite Ef.
  - destruct (find addr value start) as [pos|] eqn:Ef.
    + intros H Hle. destruct frames' as [|frames']; [lia|]. simpl. rewrite Ef.
      destruct (overlaps_used used pos (pos + length value)); [|done].
      apply IH; [done | lia].
    + intros H _. destruct frames'; simpl; by rewrite Ef.
Qed.

Lemma span_offsets_app l k : span_offsets (l ++ k) = span_offsets l ++ span_offsets k.
Proof. apply flat_map_app. Qed.

Lemma elem_of_span_offsets i spans :
  i ∈ span_offsets spans ↔ ∃ sp : span, sp ∈ spans ∧ sp.1 ≤ i < sp.2.
Proof.
  unfold span_offsets. rewrite list_elem_of_In, in_flat_map. split.
  - intros (sp & H1 & H2). exists sp. apply list_elem_of_In in H1.
    apply in_seq in H2. split; [done | lia].
  - intros (sp & H1 & H2). exists sp. split; [by apply list_elem_of_In|].
    apply in_seq. lia.
Qed.

Lemma elem_of_mark_used i used pos end_ :
  i ∈ mark_used used pos end_ ↔ i ∈ used ∨ pos ≤ i < end_.
Proof.
  unfold mark_used. rewrite elem_of_union, elem_of_list_to_set, list_elem_of_In, in_seq.
  split; (intros [H|H]; [by left | right; lia]).
Qed.

Lemma find_value_consistent frames addr value spans used sp used' :
  consistent addr spans used →
  find_value frames addr value used = Ok (Some (sp, used')) →
  consistent addr (spans ++ [sp]) used'.
Proof.
  intros (Hnd & Hin & Hlt) H. apply find_value_from_spec in H as (_ & E & L & _ & D & ->).
  unfold consistent. rewrite span_offsets_app. split; [|split].
  - apply NoDup_app. split; [done|]. split.
    + intros i Hi Hi'. apply Hin in Hi. apply elem_of_span_offsets in Hi' as (sp' & Hsp & Hr).
      apply list_elem_of_singleton in Hsp as ->. by apply (D i).
    + unfold span_offsets. simpl. rewrite app_nil_r. apply NoDup_ListNoDup, seq_NoDup.
  - intros i. rewrite elem_of_mark_used, elem_of_app, Hin. f_equiv.
    rewrite elem_of_span_offsets. split.
    + intros Hr. exists sp. split; [by apply list_elem_of_singleton | done].
    + by intros (sp' & ->%list_elem_of_singleton & Hr).
  - intros i [Hi|Hr]%elem_of_mark_used; [by apply Hlt | lia].
Qed.

Lemma index_values_raised frames addr values e :
  foldl (index_value_step frames addr) (Raise e) values = Raise e.
Proof. induction values as [|v values IH]; [done | exact IH]. Qed.

Lemma index_values_from frames addr values acc u :
  foldl (index_value_step frames addr) (Ok (acc, u)) values
  = '(found, used) ← index_values frames addr values u; Ok (acc ++ found, used).
Proof.
  unfold index_values.
  revert acc u. induction values as [|v values IH] using rev_ind; intros acc u.
  - cbn. by rewrite app_nil_r.
  - rewrite !foldl_app. cbn [foldl]. rewrite IH.
    destruct (foldl (index_value_step frames addr) (Ok ([], u)) values)
      as [[found used]|e]; [|done].
    cbn [mbind outcome_bind index_value_step].
    destruct (find_value frames addr (strip v) used) as [[[index used']|]|e]; cbn;
      [by rewrite app_assoc | done | done].
Qed.

Lemma index_values_cons frames addr v values used :
  index_values frames addr (v :: values) used
  = index ← find_value frames addr (strip v) used;
    match index with
    | Some (index, used') =>
      '(found, used'') ← index_values frames addr values used';
      Ok (index :: found, used'')
    | None => index_values frames addr values used
    end.
Proof.
  unfold index_values at 1. cbn [foldl].
  cbn [index_value_step mbind outcome_bind].
  destruct (find_value frames addr (strip v) used) as [[[index used']|]|e];
    cbn [mbind outcome_bind].
  - apply (index_values_from frames addr values [index] used').
  - reflexivity.
  - apply index_values_raised.
Qed.

Lemma index_values_consistent frames addr values spans used found used' :
  consistent addr spans used →
  index_values frames addr values used = Ok (found, used') →
  consistent addr (spans ++ found) used'.
Proof.
  revert spans used found. induction values as [|v values IH]; intros spans used found Hc.
  - intros [= <- <-]. by rewrite app_nil_r.
  - rewrite index_values_cons.
    destruct (find_value frames addr (strip v) used) as [[[index u1]|]|e] eqn:E;
      cbn [mbind outcome_bind]; [| by apply IH | done].
    destruct (index_values frames addr values u1) as [[found1 u2]|e] eqn:E1; [|done].
    cbn. intros [= <- <-].
    change (index :: found1) with ([index] ++ found1).
    rewrite (app_assoc spans [index]). eapply IH; [|exact E1].
    by eapply find_value_consistent.
Qed.

Lemma index_values_raise frames addr values used e :
  index_values frames addr values used = Raise e → e = RecursionError.
Proof.
  revert used. induction values as [|v values IH]; intros used; [done|].
  rewrite index_values_cons.
  destruct (find_value frames addr (strip v) used) as [[[index u1]|]|e'] eqn:E;
    cbn [mbind outcome_bind].
  - destruct (index_values frames addr values u1) as [[found1 u2]|e''] eqn:E1; [done|].
    cbn. intros [= <-]. by eapply IH.
  - apply IH.
  - intros [= <-]. by eapply find_value_from_raise.
Qed.

Lemma index_values_enough frames addr values used :
  length addr < frames → ∃ r, index_values frames addr values used = Ok r.
Proof.
  intros Hlt. revert used. induction values as [|v values IH]; intros used; [by eexists|].
  rewrite index_values_cons.
  destruct (find_value_from_enough frames addr (strip v) 0 used) as [r Hr]; [lia|].
  unfold find_value. rewrite Hr. cbn [mbind outcome_bind].
  destruct r as [[index u1]|]; [|apply IH].
  destruct (IH u1) as [[found u2] ->]. by eexists.
Qed.

Lemma dict_set_fresh {V} (k : str) (v : V) d :
  dict_get k d = None → dict_set k v d = d ++ [(k, v)].
Proof.
  induction d as [|[k' v'] d IH]; simpl; [done|].
  destruct (decide (k = k')); [done|]. intros H. by rewrite IH.
Qed.

Lemma dict_get_app_fresh {V} (k k' : str) (v : V) d :
  k ≠ k' → dict_get k (d ++ [(k', v)]) = dict_get k d.
Proof.
  intros Hne. induction d as [|[k'' v''] d IH]; simpl.
  - by rewrite decide_False.
  - by destruct (decide (k = k'')).
Qed.

Lemma all_spans_snoc indices key (l : list span) :
  all_spans (indices ++ [(key, l)]) = all_spans indices ++ l.
Proof. unfold all_spans. rewrite flat_map_app. simpl. by rewrite app_nil_r. Qed.

(** One entry of a well-typed dictionary keeps the located spans
    consistent and touches no key but its own. *)
Lemma index_entry_consistent frames addr key (value : str) indices used indices' used' :
  consistent addr (all_spans indices) used →
  dict_get key indices = None →
  index_entry frames addr key (PyStr value) (indices, used) = Ok (indices', used') →
  consistent addr (all_spans indices') used'
  ∧ ∀ k, k ≠ key → dict_get k indices' = dict_get k indices.
Proof.
  intros Hc Hk. unfold index_entry. cbn [py_contains_comma mbind outcome_bind].
  destruct (contains comma value); cbn [py_split_comma py_find_arg mbind outcome_bind fst snd].
  - destruct (index_values frames addr (split comma value) used) as [[found u1]|e] eqn:E;
      [|done].
    cbn. intros [= <- <-]. rewrite dict_set_fresh by done. split.
    + rewrite all_spans_snoc. by eapply index_values_consistent.
    + intros k Hne. by apply dict_get_app_fresh.
  - destruct (find_value frames addr value used) as [[[index u1]|]|e] eqn:E; cbn; [| |done].
    + intros [= <- <-]. rewrite dict_set_fresh by done. split.
      * rewrite all_spans_snoc. by eapply find_value_consistent.
      * intros k Hne. by apply dict_get_app_fresh.
    + by intros [= <- <-].
Qed.

(** On a string value the only exception is [RecursionError]. *)
Lemma index_entry_raise frames addr key (value : str) st e :
  index_entry frames addr key (PyStr value) st = Raise e → e = RecursionError.
Proof.
  unfold index_entry. cbn [py_contains_comma mbind outcome_bind].
  destruct (contains comma value); cbn [py_split_comma py_find_arg mbind outcome_bind].
  - destruct (index_values frames addr (split comma value) st.2) as [[found u1]|e'] eqn:E;
      [done|].
    cbn. intros [= <-]. by eapply index_values_raise.
  - destruct (find_value frames addr value st.2) as [[[index u1]|]|e'] eqn:E; cbn;
      [done | done |].
    intros [= <-]. by eapply find_value_from_raise.
Qed.

Lemma index_entry_enough frames addr key (value : str) st :
  length addr < frames → ∃ st', index_entry frames addr key (PyStr value) st = Ok st'.
Proof.
  intros Hlt. unfold index_entry. cbn [py_contains_comma mbind outcome_bind].
  destruct (contains comma value); cbn [py_split_comma py_find_arg mbind outcome_bind].
  - destruct (index_values_enough frames addr (split comma value) st.2 Hlt) as [[f u] ->].
    by eexists.
  - destruct (find_value_from_enough frames addr value 0 st.2) as [r Hr]; [lia|].
    unfold find_value. rewrite Hr. cbn. destruct r as [[index u]|]; by eexists.
Qed.

Lemma build_indices_consistent frames addr (d : list (str * str)) indices used
    indices' used' :
  NoDup (map fst d) →
  consistent addr (all_spans indices) used →
  (∀ k, k ∈ map fst d → dict_get k indices = None) →
  build_indices frames addr (str_items d) (indices, used) = Ok (indices', used') →
  consistent addr (all_spans indices') used'.
Proof.
  revert indices used. induction d as [|[key value] d IH]; intros indices used Hnd Hc Hk.
  - by intros [= <- <-].
  - cbn [map fst] in Hnd. apply NoDup_cons in Hnd as [Hkey Hnd].
    cbn [str_items map build_indices fst snd].
    destruct (index_entry frames addr key (PyStr value) (indices, used))
      as [[indices1 used1]|e] eqn:He; [|done].
    cbn [mbind outcome_bind].
    destruct (index_entry_consistent frames addr key value indices used indices1 used1 Hc)
      as (Hc1 & Hk1); [|done|].
    { apply Hk. simpl. apply list_elem_of_here. }
    apply IH; try done.
    intros k Hin. rewrite Hk1.
    + apply Hk. simpl. by apply list_elem_of_further.
    + intros ->. done.
Qed.

Lemma build_indices_raise frames addr (d : list (str * str)) st e :
  build_indices frames addr (str_items d) st = Raise e → e = RecursionError.
Proof.
  revert st. induction d as [|[key value] d IH]; intros st; [done|].
  cbn [str_items map build_indices fst snd].
  destruct (index_entry frames addr key (PyStr value) st) as [st1|e'] eqn:He;
    cbn [mbind outcome_bind].
  - apply IH.
  - intros [= <-]. by eapply index_entry_raise.
Qed.

Lemma build_indices_enough frames addr (d : list (str * str)) st :
  length addr < frames → ∃ st', build_indices frames addr (str_items d) st = Ok st'.
Proof.
  intros Hlt. revert st. induction d as [|[key value] d IH]; intros st; [by eexists|].
  cbn [str_items map build_indices fst snd].
  destruct (index_entry_enough frames addr key value st Hlt) as [st1 ->].
  cbn [mbind outcome_bind]. apply IH.
Qed.

Lemma consistent_empty addr : consistent addr [] ∅.
Proof.
  split; [constructor|]. split; [|set_solver].
  intros i. split; [set_solver | by intros ?%elem_of_nil].
Qed.

Lemma elem_of_used_indices_final i indices :
  i ∈ used_indices_final indices ↔ i ∈ span_offsets (all_spans indices).
Proof.
  unfold used_indices_final.
  assert (∀ (l : list span) u, i ∈ foldl (fun used' sp => mark_used used' sp.1 sp.2) u l
            ↔ i ∈ u ∨ i ∈ span_offsets l) as Hin.
  { induction l as [|sp l IH]; intros u; simpl.
    - split; [by left | intros [H|H%elem_of_nil]; done].
    - rewrite IH, elem_of_mark_used. change (span_offsets (sp :: l))
        with (seq sp.1 (sp.2 - sp.1) ++ span_offsets l).
      rewrite elem_of_app, elem_of_seq.
      split; [intros [[H|H]|H] | intros [H|[H|H]]]; eauto; try (right; left; lia).
      left; right; lia. }
  assert (∀ u, i ∈ foldl (fun used kv =>
             foldl (fun used' sp => mark_used used' sp.1 sp.2) used kv.2) u indices
            ↔ i ∈ u ∨ i ∈ span_offsets (all_spans indices)) as Hout.
  { induction indices as [|[k l] indices IH]; intros u; simpl.
    - split; [by left | intros [H|H%elem_of_nil]; done].
    - rewrite IH, Hin. change (all_spans ((k, l) :: indices)) with (l ++ all_spans indices).
      rewrite span_offsets_app, elem_of_app. tauto. }
  rewrite Hout. split; [intros [H|H]; [set_solver | done] | by right].
Qed.

Lemma remaining_offsets_uncovered addr indices :
  remaining_offsets addr (used_indices_final indices) = uncovered addr (all_spans indices).
Proof.
  unfold remaining_offsets, uncovered. apply filter_ext. intros i. f_equal.
  apply bool_decide_ext, elem_of_used_indices_final.
Qed.

Lemma join_remaining_parts addr used :
  join (remaining_parts addr used) = chars_at addr (remaining_offsets addr used).
Proof.
  unfold remaining_parts, chars_at, join.
  induction (remaining_offsets addr used) as [|i l IH]; [done|].
  simpl. destruct (addr !! i); simpl; [f_equal|]; exact IH.
Qed.

(** Disjoint spans inside the text and the offsets they leave uncovered
    partition the offsets of the text. *)
Lemma consistent_partition addr spans used :
  consistent addr spans used →
  span_offsets spans ++ uncovered addr spans ≡ₚ seq 0 (length addr).
Proof.
  intros (Hnd & Hin & Hlt). apply NoDup_Permutation.
  - apply NoDup_app. split; [done|]. split.
    + intros i Hi Hi'. unfold uncovered in Hi'.
      apply list_elem_of_In, filter_In in Hi' as [_ Hi'].
      apply negb_true_iff, bool_decide_eq_false in Hi'. done.
    + unfold uncovered. apply NoDup_ListNoDup, List.NoDup_filter, seq_NoDup.
  - apply NoDup_ListNoDup, seq_NoDup.
  - intros i. rewrite elem_of_app. unfold uncovered.
    rewrite !list_elem_of_In, filter_In, in_seq, negb_true_iff, bool_decide_eq_false.
    rewrite <- !list_elem_of_In. split.
    + intros [H|[H _]]; [|done]. apply Hin, Hlt in H. lia.
    + intros H. destruct (decide (i ∈ span_offsets spans)); [by left | by right].
Qed.

End LocateFacts.

Section SelectionFacts.
Import Levels LevelProps.

(** [pick] returns a span of the list that is at least as good as every
    span of the list, for any total preorder [R] the comparison decides. *)
Lemma pick_spec (better : span → span → bool) (R : span → span → Prop) (l : list span) :
  (∀ x, R x x) →
  (∀ x y z, R x y → R y z → R x z) →
  (∀ x y, better x y = true → R x y) →
  (∀ x y, better x y = false → R y x) →
  match pick better l with
  | Some m => m ∈ l ∧ ∀ x, x ∈ l → R m x
  | None => l = []
  end.
Proof.
  intros Hrefl Htrans Htrue Hfalse. unfold pick.
  induction l as [|sp l IH] using rev_ind; [done|].
  rewrite foldl_app. cbn [foldl].
  destruct (foldl _ None l) as [m|].
  - destruct IH as [Hm Hbest]. destruct (better sp m) eqn:E.
    + split; [apply elem_of_app; right; apply list_elem_of_here|].
      intros x [Hx|Hx%list_elem_of_singleton]%elem_of_app; [|by subst x].
      eapply Htrans; [by apply Htrue | by apply Hbest].
    + split; [by apply elem_of_app; left|].
      intros x [Hx|Hx%list_elem_of_singleton]%elem_of_app; [by apply Hbest|].
      subst x. by apply Hfalse.
  - subst l. split; [apply list_elem_of_here|].
    intros x Hx%list_elem_of_singleton. by subst x.
Qed.

Lemma min_by_start_spec (l : list span) :
  match min_by_start l with
  | Some m => m ∈ l ∧ ∀ x, x ∈ l → m.1 ≤ x.1
  | None => l = []
  end.
Proof.
  apply (pick_spec _ (fun a b : span => a.1 ≤ b.1)); intros *; try lia.
  - intros ?%Nat.ltb_lt. lia.
  - intros ?%Nat.ltb_ge. lia.
Qed.

Lemma max_by_start_spec (l : list span) :
  match max_by_start l with
  | Some m => m ∈ l ∧ ∀ x, x ∈ l → x.1 ≤ m.1
  | None => l = []
  end.
Proof.
  apply (pick_spec _ (fun a b : span => b.1 ≤ a.1)); intros *; try lia.
  - intros ?%Nat.ltb_lt. lia.
  - intros ?%Nat.ltb_ge. lia.
Qed.

Lemma latest_max_spec (latest_keys : list (option span)) :
  match latest_max latest_keys with
  | Some m => m ∈ omap id latest_keys ∧ ∀ x, x ∈ omap id latest_keys → x.2 ≤ m.2
  | None => omap id latest_keys = []
  end.
Proof.
  apply (pick_spec _ (fun a b : span => b.2 ≤ a.2)); intros *; try lia.
  - intros ?%Nat.ltb_lt. lia.
  - intros ?%Nat.ltb_ge. lia.
Qed.

Lemma elem_of_spans_of (sp : span) keys (indices : index_map) :
  sp ∈ spans_of keys indices
  ↔ ∃ key l, key ∈ keys ∧ dict_get key indices = Some l ∧ sp ∈ l.
Proof.
  unfold spans_of. rewrite list_elem_of_In, in_flat_map. split.
  - intros (key & Hk & Hsp). apply list_elem_of_In in Hk, Hsp.
    destruct (dict_get key indices) as [l|] eqn:E; [|by apply elem_of_nil in Hsp].
    by exists key, l.
  - intros (key & l & Hk & Hl & Hsp). exists key.
    rewrite Hl. split; by apply list_elem_of_In.
Qed.

Lemma select_ext keys indices (e1 e2 : nat → bool) :
  (∀ start, e1 start = e2 start) → select keys indices e1 = select keys indices e2.
Proof.
  intros H. unfold select.
  by rewrite (filter_ext (fun sp : span => e1 sp.1) (fun sp : span => e2 sp.1)).
Qed.

(** What a level's loop leaves in its two variables. *)
Lemma select_spec keys indices (eligible : nat → bool) :
  let sel := select keys indices eligible in
  (∀ a, sel.1 = Some a →
        a ∈ spans_of keys indices ∧ eligible a.1 = true
        ∧ ∀ x, x ∈ spans_of keys indices → eligible x.1 = true → a.1 ≤ x.1)
  ∧ (∀ b, sel.2 = Some b →
          b ∈ spans_of keys indices ∧ eligible b.1 = true
          ∧ ∀ x, x ∈ spans_of keys indices → eligible x.1 = true → x.1 ≤ b.1)
  ∧ (sel.1 = None ↔ sel.2 = None)
  ∧ (sel.1 = None ↔ ∀ x, x ∈ spans_of keys indices → eligible x.1 = false).
Proof.
  cbn zeta. unfold select. cbn [fst snd].
  set (l := List.filter (fun sp : span => eligible sp.1) (spans_of keys indices)).
  assert (∀ x, x ∈ l ↔ x ∈ spans_of keys indices ∧ eligible x.1 = true) as Hl.
  { intros x. subst l. by rewrite !list_elem_of_In, filter_In. }
  pose proof (min_by_start_spec l) as Hmin. pose proof (max_by_start_spec l) as Hmax.
  split; [|split; [|split]].
  - intros a Ha. rewrite Ha in Hmin. destruct Hmin as [H1 H2].
    apply Hl in H1 as [H1 H1']. split; [done|]. split; [done|].
    intros x Hx Hex. apply H2, Hl. done.
  - intros b Hb. rewrite Hb in Hmax. destruct Hmax as [H1 H2].
    apply Hl in H1 as [H1 H1']. split; [done|]. split; [done|].
    intros x Hx Hex. apply H2, Hl. done.
  - destruct (min_by_start l) as [a|], (max_by_start l) as [b|]; try done.
    + destruct Hmin as [Hmin _]. rewrite Hmax in Hmin. by apply elem_of_nil in Hmin.
    + destruct Hmax as [Hmax _]. rewrite Hmin in Hmax. by apply elem_of_nil in Hmax.
  - destruct (min_by_start l) as [a|].
    + destruct Hmin as [Hmin _]. apply Hl in Hmin as [H1 H2]. split; [done|].
      intros H. rewrite (H a H1) in H2. done.
    + split; [|done]. intros _ x Hx. apply not_true_iff_false. intros Hex.
      assert (x ∈ l) as Hxl by by apply Hl. rewrite Hmin in Hxl. by apply elem_of_nil in Hxl.
Qed.

(** The first four fields of an assignment computed after a POI anchor. *)
Lemma assign_after_poi_fields indices poi admin rd rn :
  let a := assign_after_poi indices poi admin rd rn in
  a_poi a = Some poi ∧ a_admin a = admin
  ∧ a_road_direction a = rd ∧ a_roadno a = rn
  ∧ a_additional_poi a = select additional_poi_keys indices (after poi)
  ∧ a_cellno a = select cellno_keys indices
                   (after (default poi (a_additional_poi a).2)).
Proof.
  cbn zeta. unfold assign_after_poi.
  set (additional := select additional_poi_keys indices (after poi)).
  assert (select cellno_keys indices
            match additional.2 with Some m => after m | None => after poi end
          = select cellno_keys indices (after (default poi additional.2))) as Hc
    by by destruct (additional.2).
  destruct (latest_max _) as [latest|]; [destruct (latest_max _) as [latest'|]|];
    cbn [a_poi a_admin a_road_direction a_roadno a_additional_poi a_cellno];
    repeat split; exact Hc.
Qed.

Lemma assign_after_admin_fields indices admin rd rn :
  let a := assign_after_admin indices admin rd rn in
  a_poi a = None ∧ a_admin a = Some admin
  ∧ a_road_direction a = rd ∧ a_roadno a = rn.
Proof.
  cbn zeta. unfold assign_after_admin.
  repeat (destruct (latest_max _) as [?|]); done.
Qed.

Lemma assign_anchors indices :
  a_poi (assign indices) = poi_min_index indices
  ∧ a_admin (assign indices) = admin_max_index indices.
Proof.
  unfold assign.
  destruct (poi_min_index indices) as [poi|], (admin_max_index indices) as [admin|].
  - by destruct (assign_after_poi_fields indices poi (Some admin)
                   (select road_direction_keys indices
                      (fun start => after admin start && (start <? poi.1)))
                   (select roadno_keys indices
                      (fun start =>
                         match (select road_direction_keys indices
                                  (fun start => after admin start && (start <? poi.1))).2 with
                         | Some m => after m start && (start <? poi.1)
                         | None => after admin start && (start <? poi.1)
                         end))) as (-> & -> & _).
  - by destruct (assign_after_poi_fields indices poi None
                   (select road_direction_keys indices (fun start => start <? poi.1))
                   (select roadno_keys indices
                      (fun start =>
                         match (select road_direction_keys indices
                                  (fun start => start <? poi.1)).2 with
                         | Some m => after m start && (start <? poi.1)
                         | None => start <? poi.1
                         end))) as (-> & -> & _).
  - by destruct (assign_after_admin_fields indices admin
                   (select road_direction_keys indices (after admin))
                   (select roadno_keys indices
                      (fun start =>
                         match (select road_direction_keys indices (after admin)).2 with
                         | Some m => after m start
                         | None => after admin start
                         end))) as (-> & -> & _).
  - done.
Qed.

End SelectionFacts.

Section ClassifierFacts.
Import Levels LevelProps MoreProps.

Lemma dict_get_str_items k (d : list (str * str)) :
  dict_get k (str_items d) = PyStr <$> dict_get k d.
Proof.
  induction d as [|[k' v] d IH]; [done|]. simpl.
  by destruct (decide (k = k')).
Qed.

Lemma build_indices_of frames addr (d : list (str * str)) st :
  build_indices frames addr (str_items d) ([], ∅) = Ok st →
  indices_of frames d addr = st.1.
Proof. intros H. unfold indices_of. by rewrite H. Qed.

(** The record returned for a well-typed dictionary: the one the body
    builds, or the record of the [except] branch when the frames ran out. *)
Lemma classify_str_dict (frames : nat) (d : list (str * str)) (addr : str) :
  let indices := indices_of frames d addr in
  let a := assign indices in
  let r := classify_elements_to_11_levels frames (str_dict d) addr in
  (error r = None
   ∧ r = mk_levels
      (default (PyStr (py "广东省")) (PyStr <$> dict_get (py "prov") d))
      (default (PyStr []) (PyStr <$> dict_get (py "city") d))
      (default (PyStr []) (PyStr <$> dict_get (py "district") d))
      (default (PyStr []) (PyStr <$> dict_get (py "town") d))
      (level_text addr (a_road_direction a))
      (level_text addr (a_roadno a))
      (match a_poi a with
       | Some poi => strip (slice addr poi.1 poi.2)
       | None => []
       end)
      (level_text addr (a_additional_poi a))
      (level_text addr (a_cellno a))
      (level_text addr (a_floorno a))
      (level_text addr (a_roomno a))
      (strip (chars_at addr (uncovered addr (located_spans frames d addr))))
      addr None)
  ∨ (indices = [] ∧ r = failure_record addr RecursionError).
Proof.
  cbn zeta. unfold classify_elements_to_11_levels, classify_body, str_dict.
  cbn zeta. cbn [py_items mbind outcome_bind].
  unfold located_spans, indices_of.
  destruct (build_indices frames addr (str_items d) ([], ∅)) as [st|e] eqn:H.
  - left. cbn [mbind outcome_bind mret outcome_ret fst error]. split; [done|].
    rewrite !dict_get_str_items, join_remaining_parts, remaining_offsets_uncovered.
    done.
  - right. apply build_indices_raise in H as ->. done.
Qed.

(** With more frames left than the text has characters, a well-typed
    dictionary never ends in the [except] branch. *)
Lemma classify_enough_frames (frames : nat) (d : list (str * str)) (addr : str) :
  length addr < frames →
  error (classify_elements_to_11_levels frames (str_dict d) addr) = None.
Proof.
  intros Hlt. unfold classify_elements_to_11_levels, classify_body, str_dict.
  cbn zeta. cbn [py_items mbind outcome_bind].
  destruct (build_indices_enough frames addr d ([], ∅) Hlt) as [st ->]. done.
Qed.

Lemma located_spans_consistent (frames : nat) (d : list (str * str)) (addr : str) :
  NoDup (map fst d) → ∃ used, consistent addr (located_spans frames d addr) used.
Proof.
  intros Hnd. unfold located_spans, indices_of.
  destruct (build_indices frames addr (str_items d) ([], ∅)) as [[indices used]|e] eqn:H.
  - exists used.
    apply (build_indices_consistent frames addr d [] ∅ indices used Hnd
             (consistent_empty addr)); [done | exact H].
  - exists ∅. apply consistent_empty.
Qed.

Lemma after_latest latest_keys latest start :
  latest_max latest_keys = Some latest →
  after latest start = after_all latest_keys start.
Proof.
  intros H. pose proof (latest_max_spec latest_keys) as Hs. rewrite H in Hs.
  destruct Hs as [Hin Hmax]. unfold after_all. apply eq_true_iff_eq.
  rewrite forallb_forall. unfold after. split.
  - intros Hl x Hx%list_elem_of_In. specialize (Hmax x Hx).
    apply Z.ltb_lt. apply Z.ltb_lt in Hl. lia.
  - intros Hall. apply (Hall latest). by apply list_elem_of_In.
Qed.

Lemma select_after_latest keys indices latest_keys latest :
  latest_max latest_keys = Some latest →
  select keys indices (after latest) = select keys indices (after_all latest_keys).
Proof. intros H. apply select_ext. intros start. by apply after_latest. Qed.

Lemma latest_max_is_Some latest_keys (sp : span) :
  Some sp ∈ latest_keys → is_Some (latest_max latest_keys).
Proof.
  intros Hin. pose proof (latest_max_spec latest_keys) as Hs.
  destruct (latest_max latest_keys) as [m|]; [by eexists|].
  assert (sp ∈ omap id latest_keys) as Hsp by (apply list_elem_of_omap; by exists (Some sp)).
  rewrite Hs in Hsp. by apply elem_of_nil in Hsp.
Qed.

End ClassifierFacts.

Section ClassifierClaims.
Import Levels LevelProps MoreProps.

(** The recursion of [find_value] through a stretch of the text where
    every offset starts an occurrence of the value and is already used:
    each call skips one occurrence, and the frames run out. *)
Lemma find_value_from_saturated frames addr (c : char) start used :
  (∀ p, start ≤ p ≤ start + frames → find addr [c] p = Some p) →
  (∀ p, start ≤ p ≤ start + frames → p ∈ used) →
  find_value_from frames addr [c] start used = Raise RecursionError.
Proof.
  revert start. induction frames as [|frames IH]; intros start Hfind Hused; simpl.
  - by rewrite Hfind by lia.
  - rewrite Hfind by lia.
    assert (overlaps_used used start (start + 1) = true) as ->.
    { apply not_false_iff_true. intros H.
      apply (proj1 (overlaps_used_false _ _ _) H start); [apply Hused|]; lia. }
    apply IH; intros p Hp; [apply Hfind | apply Hused]; lia.
Qed.

Lemma find_in_run (c : char) n rest p :
  p < n → find (replicate n c ++ rest) [c] p = Some p.
Proof.
  intros Hp. unfold find. rewrite length_app, length_replicate.
  destruct (p <=? n + length rest) eqn:E; [|apply Nat.leb_gt in E; lia].
  rewrite drop_app_le by (rewrite length_replicate; lia).
  rewrite drop_replicate. destruct (n - p) as [|k] eqn:Ek; [lia|].
  cbn [replicate app find_at startswith]. by rewrite N.eqb_refl.
Qed.

Lemma startswith_app (l rest : str) : startswith (l ++ rest) l = true.
Proof. induction l as [|c l IH]; [by destruct rest|]. cbn. by rewrite N.eqb_refl. Qed.

Lemma contains_replicate (c x : char) n :
  c ≠ x → contains x (replicate n c) = false.
Proof.
  intros Hne. unfold contains. induction n as [|n IH]; [done|].
  cbn [replicate existsb]. rewrite IH.
  assert ((x =? c)%N = false) as -> by (apply N.eqb_neq; congruence). done.
Qed.

(** A run of [n] equal characters located whole under one key and asked
    for again, one character, under another: the body raises
    [RecursionError] whenever fewer than [n] frames are left. *)
Lemma classify_body_run_raises frames (c : char) n (key1 key2 : str) rest :
  c ≠ comma → frames < n →
  classify_body frames (str_dict [(key1, replicate n c); (key2, [c])])
                (replicate n c ++ rest)
  = Raise RecursionError.
Proof.
  intros Hc Hlt. unfold classify_body, str_dict. cbn zeta.
  cbn [py_items str_items map mbind outcome_bind build_indices fst snd].
  unfold index_entry at 2. cbn [py_contains_comma mbind outcome_bind].
  rewrite contains_replicate by done. cbn [py_find_arg mbind outcome_bind snd].
  unfold find_value at 1. assert (find (replicate n c ++ rest) (replicate n c) 0 = Some 0) as Hf.
  { unfold find. cbn [Nat.leb drop].
    assert (∀ l sub pos, startswith l sub = true → find_at l sub pos = Some pos) as Hat.
    { intros l sub pos H. destruct l; cbn [find_at]; by rewrite H. }
    apply Hat, startswith_app. }
  destruct frames as [|frames]; cbn [find_value_from]; rewrite Hf; [done|].
  assert (overlaps_used ∅ 0 (0 + length (replicate n c)) = false) as ->.
  { apply overlaps_used_false. intros i Hi. by apply elem_of_empty in Hi. }
  cbn [mbind outcome_bind fst snd]. rewrite length_replicate.
  unfold index_entry. cbn [py_contains_comma mbind outcome_bind].
  assert (contains comma [c] = false) as -> by apply (contains_replicate c comma 1 Hc).
  cbn [py_find_arg mbind outcome_bind snd]. unfold find_value.
  rewrite find_value_from_saturated; [done | |].
  - intros p Hp. apply find_in_run. lia.
  - intros p Hp. apply elem_of_mark_used. right. lia.
Qed.

(** C3 (as amended).  For a dictionary of string values, the offsets
    covered by the located spans of all categories (whether or not a level
    uses them) together with the offsets no span covers are exactly the
    offsets of the text, each once.  When the record carries no [error],
    [remark] is made of the characters at the uncovered offsets, in order,
    with the outer whitespace stripped; it carries none when [find_value]
    has more frames left than the text has characters. *)
Theorem coverage_by_located_spans (frames : nat) (d : list (str * str)) (addr : str) :
  NoDup (map fst d) →
  let r := classify_elements_to_11_levels frames (str_dict d) addr in
  let spans := located_spans frames d addr in
  span_offsets spans ++ uncovered addr spans ≡ₚ seq 0 (length addr)
  ∧ (error r = None → remark r = strip (chars_at addr (uncovered addr spans)))
  ∧ (length addr < frames → error r = None).
Proof.
  intros Hnd. cbn zeta. split; [|split].
  - destruct (located_spans_consistent frames d addr Hnd) as [used Hc].
    by eapply consistent_partition.
  - intros He. destruct (classify_str_dict frames d addr) as [[_ ->]|[_ Hr]]; [done|].
    by rewrite Hr in He.
  - apply classify_enough_frames.
Qed.

Lemma coverage_by_located_spans_witness :
  let d := [(py "city", py "杭州市"); (py "assist", py "附近"); (py "roomno", py "1190房")] in
  let addr := py "浙江杭州市附近 1190房" in
  NoDup (map fst d)
  ∧ located_spans 1000 d addr = [(2, 5); (5, 7); (8, 13)]
  ∧ uncovered addr (located_spans 1000 d addr) = [0; 1; 7]
  ∧ remark (classify_elements_to_11_levels 1000 (str_dict d) addr) = py "浙江".
Proof.
  cbn zeta.
  assert (NoDup (map fst [(py "city", py "杭州市"); (py "assist", py "附近");
                          (py "roomno", py "1190房")])) as Hnd.
  { apply (bool_decide_unpack _). vm_compute. exact I. }
  split; [exact Hnd|].
  destruct (coverage_by_located_spans 1000 _ (py "浙江杭州市附近 1190房") Hnd)
    as (_ & H & He).
  split; [vm_compute; reflexivity|]. split; [vm_compute; reflexivity|].
  rewrite H by (apply He; vm_compute; lia). vm_compute. reflexivity.
Defined.

(** C3 as stated fails: in [" a"] with road ["a"] the leading blank is
    covered by no span, and [remark] is stripped to the empty string, so
    offset 0 is counted by nothing, whichever of the located spans are
    taken as the matched spans of the levels. *)
Lemma coverage_counterexample :
  let d := [(py "road", py "a")] in
  let addr := py " a" in
  let r := classify_elements_to_11_levels 1000 (str_dict d) addr in
  located_spans 1000 d addr = [(1, 2)]
  ∧ level5 r = py "a" ∧ remark r = [] ∧ error r = None
  ∧ ¬ ∃ spans, spans ⊆ located_spans 1000 d addr ∧ covers addr spans (remark r).
Proof.
  cbn zeta. split; [vm_compute; reflexivity|]. split; [vm_compute; reflexivity|].
  split; [vm_compute; reflexivity|]. split; [vm_compute; reflexivity|].
  intros (spans & Hsub & rest & Hrem & Hperm).
  assert (0 ∈ span_offsets spans ++ rest) as H0.
  { rewrite Hperm. apply elem_of_seq. simpl. lia. }
  apply elem_of_app in H0 as [H0|H0].
  - apply elem_of_span_offsets in H0 as (sp & Hsp & Hr).
    apply Hsub in Hsp. vm_compute in Hsp.
    apply list_elem_of_singleton in Hsp. subst sp. simpl in Hr. lia.
  - assert (32%N ∈ chars_at (py " a") rest) as Hc.
    { apply list_elem_of_omap. exists 0. split; [done | reflexivity]. }
    rewrite <- Hrem in Hc. vm_compute in Hc. by apply elem_of_nil in Hc.
Qed.

(** A located span of a category no level uses is covered by no level and
    is not part of [remark] either. *)
Example coverage_unused_category :
  let r := classify_elements_to_11_levels 1000 (str_dict [(py "assist", py "a")]) (py "ab") in
  located_spans 1000 [(py "assist", py "a")] (py "ab") = [(0, 1)]
  ∧ (level5 r, level6 r, level7 r, level8 r, level9 r, level10 r, level11 r)
    = ([], [], [], [], [], [], [])
  ∧ remark r = py "b".
Proof. cbn zeta. repeat split; vm_compute; reflexivity. Qed.

(** Example 3 of the specification: a value requested twice resolves to
    the next occurrence that overlaps nothing located before. *)
Example repeated_value_next_occurrence :
  indices_of 1000 [(py "road", py "中山路, 中山路")] (py "中山路与中山路")
  = [(py "road", [(0, 3); (4, 7)])].
Proof. vm_compute. reflexivity. Qed.

(** Example 4 of the specification: a value that is not in the text is
    dropped and the other levels are computed as usual. *)
Example missing_value_dropped :
  let r := classify_elements_to_11_levels 1000
             (str_dict [(py "city", py "广州市"); (py "road", py "解放路");
                        (py "roadno", py "12号")])
             (py "广州市中山路12号") in
  (level2 r, level5 r, level6 r, remark r, error r)
  = (PyStr (py "广州市"), [], py "12号", py "中山路", None).
Proof. vm_compute. reflexivity. Qed.

(** C4.  The function returns a record on every input; whenever the body
    of the [try] raises, the record has [level1] to [level11] and [remark]
    empty, [original_text] unchanged and [error] set to the exception. *)
Theorem classify_failure_record (frames : nat) (entities : pyval) (original_text : str)
    (e : exn) :
  classify_body frames entities original_text = Raise e →
  classify_elements_to_11_levels frames entities original_text
  = mk_levels (PyStr []) (PyStr []) (PyStr []) (PyStr [])
              [] [] [] [] [] [] [] [] original_text (Some e).
Proof. intros H. unfold classify_elements_to_11_levels. by rewrite H. Qed.

Lemma classify_failure_record_witness :
  let entities := PyDict [(py "city", PyStr (py "杭州市")); (py "road", PyNone)] in
  let r := classify_elements_to_11_levels 1000 entities (py "杭州市文三路") in
  classify_body 1000 entities (py "杭州市文三路") = Raise (TypeError_not_iterable TNone)
  ∧ level2 r = PyStr [] ∧ original_text r = py "杭州市文三路"
  ∧ error r = Some (TypeError_not_iterable TNone).
Proof.
  cbn zeta.
  assert (classify_body 1000 (PyDict [(py "city", PyStr (py "杭州市")); (py "road", PyNone)])
            (py "杭州市文三路") = Raise (TypeError_not_iterable TNone)) as H
    by (vm_compute; reflexivity).
  split; [exact H|].
  rewrite (classify_failure_record _ _ _ _ H). repeat split; reflexivity.
Defined.

(** When the body returns, its record is returned as it is. *)
Lemma classify_success_record (frames : nat) (entities : pyval) (original_text : str)
    (r : levels) :
  classify_body frames entities original_text = Ok r →
  classify_elements_to_11_levels frames entities original_text = r.
Proof. intros H. unfold classify_elements_to_11_levels. by rewrite H. Qed.

(** C8 (as amended).  Without a ['prov'] key, whenever the record carries no
    [error], [level1] is the default and levels 2 to 4 are the raw ['city'],
    ['district'] and ['town'] values (empty when the key is missing),
    whatever the text and the anchors are; the record carries no [error]
    when [find_value] has more frames left than the text has characters. *)
Theorem level1_default_without_prov (frames : nat) (d : list (str * str)) (addr : str) :
  dict_get (py "prov") d = None →
  let r := classify_elements_to_11_levels frames (str_dict d) addr in
  (error r = None →
   level1 r = PyStr (py "广东省")
   ∧ level2 r = PyStr (default [] (dict_get (py "city") d))
   ∧ level3 r = PyStr (default [] (dict_get (py "district") d))
   ∧ level4 r = PyStr (default [] (dict_get (py "town") d)))
  ∧ (length addr < frames → error r = None).
Proof.
  intros H. cbn zeta. split; [|apply classify_enough_frames].
  intros He. destruct (classify_str_dict frames d addr) as [[_ ->]|[_ Hr]].
  - cbn [level1 level2 level3 level4].
    rewrite H. clear H. repeat split; destruct (dict_get _ d); reflexivity.
  - by rewrite Hr in He.
Qed.

Lemma level1_default_without_prov_witness :
  let d := [(py "city", py "杭州市"); (py "district", py "江干区");
            (py "town", py "九堡镇"); (py "community", py "三村村");
            (py "poi", py "一区"); (py "roomno", py "1190房")] in
  let r := classify_elements_to_11_levels 1000 (str_dict d)
             (py "浙江杭州市江干区九堡镇三村村一区1190房") in
  dict_get (py "prov") d = None
  ∧ level1 r = PyStr (py "广东省") ∧ level2 r = PyStr (py "杭州市")
  ∧ level3 r = PyStr (py "江干区") ∧ level4 r = PyStr (py "九堡镇").
Proof.
  cbn zeta. split; [reflexivity|].
  destruct (level1_default_without_prov 1000
              [(py "city", py "杭州市"); (py "district", py "江干区");
               (py "town", py "九堡镇"); (py "community", py "三村村");
               (py "poi", py "一区"); (py "roomno", py "1190房")]
              (py "浙江杭州市江干区九堡镇三村村一区1190房") eq_refl)
    as [Hl He].
  destruct Hl as (H1 & H2 & H3 & H4); [apply He; vm_compute; lia|].
  rewrite H1, H2, H3, H4. repeat split; reflexivity.
Defined.

(** C8 as stated fails.  A text of 1100 ['a'] and a ['b'], with the run
    located whole under ['poi'] and ['a'] asked for under ['road']: the
    search for ['a'] skips the used occurrences one recursive call at a
    time, and with at most 1000 frames left (Python's default recursion
    limit is 1000) it raises [RecursionError].  The record of the [except]
    branch has an empty [level1], though ['prov'] is absent. *)
Lemma level1_default_recursion_counterexample :
  let d := [(py "poi", replicate 1100 97%N); (py "road", py "a")] in
  let addr := replicate 1100 97%N ++ py "b" in
  dict_get (py "prov") d = None
  ∧ ∀ frames, frames ≤ 1000 →
      let r := classify_elements_to_11_levels frames (str_dict d) addr in
      error r = Some RecursionError
      ∧ level1 r = PyStr [] ∧ level1 r ≠ PyStr (py "广东省").
Proof.
  cbn zeta. split; [reflexivity|]. intros frames Hle.
  unfold classify_elements_to_11_levels.
  assert (classify_body frames
            (str_dict [(py "poi", replicate 1100 97%N); (py "road", py "a")])
            (replicate 1100 97%N ++ py "b") = Raise RecursionError) as Hb.
  { apply (classify_body_run_raises frames 97%N 1100 (py "poi") (py "road") (py "b"));
      [done | lia]. }
  rewrite Hb.
  cbn [error level1]. split; [done|]. split; [done|]. discriminate.
Qed.

(** C9.  The POI anchor is a span recorded under one of the keys ['poi'],
    ['subpoi'], ['community'], ['devzone'], ['village_group'], and no span
    recorded under these keys starts to its left; the administrative
    anchor is a span recorded under one of ['prov'], ['city'],
    ['district'], ['town'], and no span recorded under these keys starts
    to its right; each is absent exactly when no span is recorded under
    its keys. *)
Theorem anchors_leftmost_poi_rightmost_admin (indices : index_map) :
  let a := assign indices in
  let poi_family := [py "poi"; py "subpoi"; py "community"; py "devzone";
                     py "village_group"] in
  let admin_family := [py "prov"; py "city"; py "district"; py "town"] in
  match a_poi a with
  | Some poi => located_under poi_family indices poi
                ∧ ∀ sp, located_under poi_family indices sp → poi.1 ≤ sp.1
  | None => ∀ sp, ¬ located_under poi_family indices sp
  end
  ∧ match a_admin a with
    | Some admin => located_under admin_family indices admin
                    ∧ ∀ sp, located_under admin_family indices sp → sp.1 ≤ admin.1
    | None => ∀ sp, ¬ located_under admin_family indices sp
    end.
Proof.
  cbn zeta. destruct (assign_anchors indices) as [-> ->]. split.
  - pose proof (min_by_start_spec (spans_of poi_keys indices)) as H.
    unfold poi_min_index. destruct (min_by_start _) as [poi|].
    + destruct H as [Hin Hmin]. split.
      * by apply elem_of_spans_of in Hin.
      * intros sp Hsp. apply Hmin. by apply elem_of_spans_of.
    + intros sp Hsp. apply (elem_of_spans_of sp poi_keys) in Hsp.
      rewrite H in Hsp. by apply elem_of_nil in Hsp.
  - pose proof (max_by_start_spec (spans_of admin_keys indices)) as H.
    unfold admin_max_index. destruct (max_by_start _) as [admin|].
    + destruct H as [Hin Hmax]. split.
      * by apply elem_of_spans_of in Hin.
      * intros sp Hsp. apply Hmax. by apply elem_of_spans_of.
    + intros sp Hsp. apply (elem_of_spans_of sp admin_keys) in Hsp.
      rewrite H in Hsp. by apply elem_of_nil in Hsp.
Qed.

Lemma anchors_leftmost_poi_rightmost_admin_witness :
  let d := [(py "city", py "广州市"); (py "district", py "天河区");
            (py "poi", py "万达广场"); (py "community", py "花园小区")] in
  let addr := py "广州市天河区花园小区旁万达广场" in
  let indices := indices_of 1000 d addr in
  indices = [(py "city", [(0, 3)]); (py "district", [(3, 6)]);
             (py "poi", [(11, 15)]); (py "community", [(6, 10)])]
  ∧ a_poi (assign indices) = Some (6, 10)
  ∧ a_admin (assign indices) = Some (3, 6)
  ∧ level7 (classify_elements_to_11_levels 1000 (str_dict d) addr) = py "花园小区"
  ∧ (∀ sp, located_under [py "poi"; py "subpoi"; py "community"; py "devzone";
                          py "village_group"] indices sp → 6 ≤ sp.1)
  ∧ (∀ sp, located_under [py "prov"; py "city"; py "district"; py "town"] indices sp
           → sp.1 ≤ 3).
Proof.
  cbn zeta.
  set (indices := indices_of 1000 _ _).
  assert (indices = [(py "city", [(0, 3)]); (py "district", [(3, 6)]);
                     (py "poi", [(11, 15)]); (py "community", [(6, 10)])]) as Hi
    by (vm_compute; reflexivity).
  assert (a_poi (assign indices) = Some (6, 10)) as Hp by (rewrite Hi; vm_compute; reflexivity).
  assert (a_admin (assign indices) = Some (3, 6)) as Ha by (rewrite Hi; vm_compute; reflexivity).
  pose proof (anchors_leftmost_poi_rightmost_admin indices) as H. cbn zeta in H.
  rewrite Hp, Ha in H. destruct H as [[_ Hmin] [_ Hmax]].
  split; [exact Hi|]. split; [exact Hp|]. split; [exact Ha|].
  split; [vm_compute; reflexivity|]. split; [exact Hmin | exact Hmax].
Defined.

End ClassifierClaims.

Section BoundaryFacts.
Import Levels LevelProps.

Ltac latest_is_some H :=
  match goal with
  | |- context [latest_max ?keys] =>
    destruct (latest_max keys) as [?latest|] eqn:H;
    [| exfalso;
       match keys with
       | context [Some ?sp] =>
         destruct (latest_max_is_Some keys sp) as [? Hsome];
         [set_solver | rewrite H in Hsome; discriminate]
       end]
  end.

Lemma assign_after_poi_latest indices poi admin rd rn :
  let a := assign_after_poi indices poi admin rd rn in
  let keys := [admin; rd.2; rn.2; Some poi; (a_additional_poi a).2; (a_cellno a).2] in
  a_floorno a = select floorno_keys indices (after_all keys)
  ∧ a_roomno a = select roomno_keys indices (after_all (keys ++ [(a_floorno a).2])).
Proof.
  cbn zeta. unfold assign_after_poi.
  set (additional := select additional_poi_keys indices (after poi)).
  set (cellno := select cellno_keys indices _).
  latest_is_some H1. latest_is_some H2.
  cbn [a_additional_poi a_cellno a_floorno a_roomno].
  split; by apply select_after_latest.
Qed.

Lemma assign_after_admin_latest indices admin rd rn :
  let a := assign_after_admin indices admin rd rn in
  let keys := [Some admin; rd.2; rn.2] in
  a_additional_poi a = select houseno_keys indices (after_all keys)
  ∧ a_cellno a = select cellno_keys indices (after_all (keys ++ [(a_additional_poi a).2]))
  ∧ a_floorno a
    = select floorno_keys indices
        (after_all (keys ++ [(a_additional_poi a).2; (a_cellno a).2]))
  ∧ a_roomno a
    = select roomno_keys indices
        (after_all (keys ++ [(a_additional_poi a).2; (a_cellno a).2; (a_floorno a).2])).
Proof.
  cbn zeta. unfold assign_after_admin.
  latest_is_some H1.
  set (additional := select houseno_keys indices _) in *.
  latest_is_some H2.
  set (cellno := select cellno_keys indices _) in *.
  latest_is_some H3.
  set (floorno := select floorno_keys indices _) in *.
  latest_is_some H4.
  cbn [a_additional_poi a_cellno a_floorno a_roomno].
  subst additional cellno floorno.
  repeat split; by apply select_after_latest.
Qed.

End BoundaryFacts.

Section BoundaryClaims.
Import Levels LevelProps.

(** C10.  When a POI anchor exists, the spans level 5 is built from are
    the road and direction spans that start strictly before the POI
    anchor's start and, when an administrative anchor exists too, past its
    last character; a road or direction span starting at or after the POI
    anchor's start is never one of them, and level 5 stays empty when no
    span is eligible. *)
Theorem level5_spans_before_poi (indices : index_map) (poi : span) :
  poi_min_index indices = Some poi →
  let a := assign indices in
  let eligible := fun start =>
    after_all [admin_max_index indices] start && (start <? poi.1) in
  a_road_direction a = select road_direction_keys indices eligible
  ∧ (∀ sp, (a_road_direction a).1 = Some sp ∨ (a_road_direction a).2 = Some sp →
       sp ∈ spans_of road_direction_keys indices ∧ sp.1 < poi.1
       ∧ ∀ admin, admin_max_index indices = Some admin →
                  (Z.of_nat admin.2 - 1 < Z.of_nat sp.1)%Z)
  ∧ (∀ sp, sp ∈ spans_of road_direction_keys indices → poi.1 ≤ sp.1 →
       (a_road_direction a).1 ≠ Some sp ∧ (a_road_direction a).2 ≠ Some sp)
  ∧ (∀ addr, (∀ sp, sp ∈ spans_of road_direction_keys indices → eligible sp.1 = false) →
       level_text addr (a_road_direction a) = []).
Proof.
  intros Hpoi. cbn zeta.
  set (eligible := fun start =>
         after_all [admin_max_index indices] start && (start <? poi.1)).
  assert (a_road_direction (assign indices)
          = select road_direction_keys indices eligible) as Hsel.
  { unfold assign. rewrite Hpoi. subst eligible.
    destruct (admin_max_index indices) as [admin|].
    - match goal with
      | |- a_road_direction (assign_after_poi ?i ?p ?a ?rd ?rn) = _ =>
        destruct (assign_after_poi_fields i p a rd rn) as (_ & _ & -> & _)
      end.
      apply select_ext. intros start. unfold after_all. simpl.
      by rewrite andb_true_r.
    - match goal with
      | |- a_road_direction (assign_after_poi ?i ?p ?a ?rd ?rn) = _ =>
        destruct (assign_after_poi_fields i p a rd rn) as (_ & _ & -> & _)
      end.
      by apply select_ext. }
  rewrite Hsel.
  destruct (select_spec road_direction_keys indices eligible) as (Hmin & Hmax & _ & Hnone).
  assert (∀ sp : span, eligible sp.1 = true →
            sp.1 < poi.1
            ∧ ∀ admin, admin_max_index indices = Some admin →
                       (Z.of_nat admin.2 - 1 < Z.of_nat sp.1)%Z) as Helig.
  { intros sp He. subst eligible. apply andb_true_iff in He as [He1 He2].
    apply Nat.ltb_lt in He2. split; [done|]. intros admin Ha. rewrite Ha in He1.
    unfold after_all, after in He1. simpl in He1. rewrite andb_true_r in He1.
    by apply Z.ltb_lt in He1. }
  split; [done|]. split; [|split].
  - intros sp [H|H]; [apply Hmin in H | apply Hmax in H];
      destruct H as (Hin & He & _); (split; [done | by apply Helig]).
  - intros sp Hin Hle.
    split; intros H; [apply Hmin in H | apply Hmax in H];
      destruct H as (_ & He & _); apply Helig in He as [He _]; lia.
  - intros addr Hno. apply Hnone in Hno. unfold level_text.
    destruct (select road_direction_keys indices eligible) as [[mn|] mx]; [done|].
    by destruct mx.
Qed.

Lemma level5_spans_before_poi_witness :
  let d := [(py "city", py "市"); (py "road", py "东路,西路"); (py "poi", py "园")] in
  let addr := py "市东路园西路" in
  let r := classify_elements_to_11_levels 1000 (str_dict d) addr in
  poi_min_index (indices_of 1000 d addr) = Some (3, 4)
  ∧ spans_of road_direction_keys (indices_of 1000 d addr) = [(1, 3); (4, 6)]
  ∧ a_road_direction (assign (indices_of 1000 d addr)) = (Some (1, 3), Some (1, 3))
  ∧ level5 r = py "东路" ∧ level8 r = py "西路".
Proof.
  cbn zeta.
  destruct (level5_spans_before_poi
              (indices_of 1000 [(py "city", py "市"); (py "road", py "东路,西路");
                           (py "poi", py "园")] (py "市东路园西路"))
              (3, 4) eq_refl) as (H & _).
  split; [reflexivity|]. split; [reflexivity|].
  rewrite H. repeat split; reflexivity.
Defined.

(** C7 (as amended).  Whenever an anchor exists, the window of level 10
    starts at the largest end among the administrative anchor, the
    rightmost spans of levels 5 and 6, the POI anchor and the rightmost
    spans of levels 8 and 9, and the window of level 11 at the largest end
    among these and the rightmost span of level 10.  Without a POI anchor
    the same holds for levels 8 and 9.  With a POI anchor, level 8 starts
    at the POI anchor's end and level 9 at the end of the rightmost span of
    level 8, or at the POI anchor's end when level 8 is empty. *)
Theorem level_windows_lower_bounds (indices : index_map) :
  let a := assign indices in
  a_poi a ≠ None ∨ a_admin a ≠ None →
  let earlier := [a_admin a; (a_road_direction a).2; (a_roadno a).2; a_poi a] in
  a_floorno a
  = select floorno_keys indices
      (after_all (earlier ++ [(a_additional_poi a).2; (a_cellno a).2]))
  ∧ a_roomno a
    = select roomno_keys indices
        (after_all (earlier ++ [(a_additional_poi a).2; (a_cellno a).2;
                                (a_floorno a).2]))
  ∧ (a_poi a = None →
     a_additional_poi a = select houseno_keys indices (after_all earlier)
     ∧ a_cellno a
       = select cellno_keys indices (after_all (earlier ++ [(a_additional_poi a).2])))
  ∧ (∀ poi, a_poi a = Some poi →
     a_additional_poi a = select additional_poi_keys indices (after poi)
     ∧ a_cellno a
       = select cellno_keys indices (after (default poi (a_additional_poi a).2))).
Proof.
  cbn zeta. unfold assign.
  destruct (poi_min_index indices) as [poi|], (admin_max_index indices) as [admin|].
  1, 2: intros _;
    match goal with
    | |- context [assign_after_poi ?i ?p ?a ?rd ?rn] =>
      destruct (assign_after_poi_fields i p a rd rn) as (Hp & Ha & Hrd & Hrn & Hadd & Hcell);
      destruct (assign_after_poi_latest i p a rd rn) as (Hfloor & Hroom);
      set (x := assign_after_poi i p a rd rn) in *
    end;
    rewrite Hp, Ha, Hrd, Hrn;
    (split; [exact Hfloor|]); (split; [exact Hroom|]);
    (split; [done|]); intros poi' [= <-]; by split.
  - intros _.
    match goal with
    | |- context [assign_after_admin ?i ?a ?rd ?rn] =>
      destruct (assign_after_admin_fields i a rd rn) as (Hp & Ha & Hrd & Hrn);
      destruct (assign_after_admin_latest i a rd rn) as (Hadd & Hcell & Hfloor & Hroom);
      set (x := assign_after_admin i a rd rn) in *
    end.
    rewrite Hp, Ha, Hrd, Hrn.
    split; [|split; [|split; [|done]]].
    + exact Hfloor.
    + exact Hroom.
    + intros _. split; [exact Hadd | exact Hcell].
  - intros [H|H]; done.
Qed.

Lemma level_windows_lower_bounds_witness :
  let d := [(py "city", py "广州市"); (py "road", py "中山路"); (py "roadno", py "12号");
            (py "floorno", py "3楼"); (py "roomno", py "301室")] in
  let addr := py "广州市中山路12号3楼301室" in
  let a := assign (indices_of 1000 d addr) in
  let r := classify_elements_to_11_levels 1000 (str_dict d) addr in
  (a_poi a ≠ None ∨ a_admin a ≠ None)
  ∧ a_floorno a = (Some (9, 11), Some (9, 11))
  ∧ a_roomno a = (Some (11, 15), Some (11, 15))
  ∧ level10 r = py "3楼" ∧ level11 r = py "301室".
Proof.
  cbn zeta.
  assert (a_poi (assign (indices_of 1000
            [(py "city", py "广州市"); (py "road", py "中山路"); (py "roadno", py "12号");
             (py "floorno", py "3楼"); (py "roomno", py "301室")]
            (py "广州市中山路12号3楼301室"))) ≠ None
          ∨ a_admin (assign (indices_of 1000
            [(py "city", py "广州市"); (py "road", py "中山路"); (py "roadno", py "12号");
             (py "floorno", py "3楼"); (py "roomno", py "301室")]
            (py "广州市中山路12号3楼301室"))) ≠ None) as Hanchor
    by (right; vm_compute; discriminate).
  split; [exact Hanchor|].
  destruct (level_windows_lower_bounds _ Hanchor) as (H1 & H2 & _).
  rewrite H1, H2. repeat split; reflexivity.
Defined.

(** C7 as stated fails for level 9 when a POI anchor exists: in
    ["万达广场1单元广州市"] the administrative anchor ends at offset 10, and
    level 9 is still taken from offset 4, right after the POI anchor. *)
Lemma level9_window_counterexample :
  let d := [(py "poi", py "万达广场"); (py "cellno", py "1单元"); (py "city", py "广州市")] in
  let addr := py "万达广场1单元广州市" in
  let a := assign (indices_of 1000 d addr) in
  a_poi a = Some (0, 4) ∧ a_admin a = Some (7, 10)
  ∧ a_cellno a = (Some (4, 7), Some (4, 7))
  ∧ level9 (classify_elements_to_11_levels 1000 (str_dict d) addr) = py "1单元"
  ∧ a_cellno a
    ≠ select cellno_keys (indices_of 1000 d addr)
        (after_all [a_admin a; (a_road_direction a).2; (a_roadno a).2; a_poi a;
                    (a_additional_poi a).2]).
Proof.
  cbn zeta. repeat split; try reflexivity. vm_compute. discriminate.
Qed.

End BoundaryClaims.

(** * Further properties of the decoder and of the formatter *)

Section DictFacts.

Lemma dict_get_None {V} (k : str) (d : list (str * V)) :
  dict_get k d = None ↔ k ∉ map fst d.
Proof.
  induction d as [|[k' v] d IH]; simpl.
  - split; [intros _ H; by apply elem_of_nil in H | done].
  - rewrite not_elem_of_cons. destruct (decide (k = k')) as [->|Hne].
    + split; [done | by intros [? _]].
    + rewrite IH. tauto.
Qed.

Lemma dict_get_Some_elem {V} (k : str) (v : V) (d : list (str * V)) :
  dict_get k d = Some v → (k, v) ∈ d.
Proof.
  induction d as [|[k' v'] d IH]; simpl; [done|].
  destruct (decide (k = k')) as [->|Hne].
  - intros [= ->]. apply list_elem_of_here.
  - intros H. apply list_elem_of_further. by apply IH.
Qed.

Lemma dict_get_NoDup {V} (k : str) (v : V) (d : list (str * V)) :
  NoDup (map fst d) → (k, v) ∈ d → dict_get k d = Some v.
Proof.
  induction d as [|[k' v'] d IH]; simpl; intros Hnd Hin.
  - by apply elem_of_nil in Hin.
  - apply NoDup_cons in Hnd as [Hk Hnd].
    apply elem_of_cons in Hin as [[= <- <-]|Hin].
    + by rewrite decide_True.
    + destruct (decide (k = k')) as [->|Hne]; [|by apply IH].
      exfalso. apply Hk. apply list_elem_of_fmap. by exists (k', v).
Qed.

Lemma dict_set_keys {V} (k : str) (v : V) (d : list (str * V)) :
  map fst (dict_set k v d)
  = if decide (k ∈ map fst d) then map fst d else map fst d ++ [k].
Proof.
  induction d as [|[k' v'] d IH].
  - cbn [dict_set map app]. destruct (decide _) as [H|]; [by apply elem_of_nil in H | done].
  - cbn [dict_set map fst]. destruct (decide (k = k')) as [->|Hne].
    + cbn [map fst]. clear IH. destruct (decide _) as [|H]; [done|].
      exfalso. apply H, list_elem_of_here.
    + cbn [map fst]. rewrite IH.
      destruct (decide (k ∈ map fst d)) as [Hin|Hnin];
        destruct (decide (k ∈ k' :: map fst d)) as [Hin'|Hnin']; try done.
      * exfalso. apply Hnin'. by apply list_elem_of_further.
      * exfalso. apply elem_of_cons in Hin' as [?|?]; done.
Qed.

Lemma dict_set_NoDup {V} (k : str) (v : V) (d : list (str * V)) :
  NoDup (map fst d) → NoDup (map fst (dict_set k v d)).
Proof.
  intros Hnd. rewrite dict_set_keys. destruct (decide _); [done|].
  apply NoDup_app. split; [done|]. split; [|apply NoDup_singleton].
  intros x Hx Hx'%list_elem_of_singleton. by subst.
Qed.

Lemma dict_set_Forall {V} (P : str * V → Prop) (k : str) (v : V) (d : list (str * V)) :
  Forall P d → P (k, v) → Forall P (dict_set k v d).
Proof.
  intros Hd Hk. induction d as [|[k' v'] d IH]; simpl.
  - by constructor.
  - inversion Hd; subst. destruct (decide (k = k')) as [->|Hne].
    + by constructor.
    + constructor; [done | by apply IH].
Qed.

End DictFacts.

Section DecoderInvariants.
Import Decoder Props.

(** What every state of the decoder satisfies. *)
Lemma add_entity_sound ty text (ents : list (str * list str)) :
  NoDup (map fst ents) → Forall (fun kv => kv.2 ≠ []) ents →
  NoDup (map fst (add_entity ty text ents))
  ∧ Forall (fun kv => kv.2 ≠ []) (add_entity ty text ents).
Proof.
  intros Hnd Hne. unfold add_entity. destruct (dict_get ty ents) as [l|].
  - split; [by apply dict_set_NoDup|]. apply dict_set_Forall; [done|].
    simpl. by destruct l.
  - split; [by apply dict_set_NoDup|]. by apply dict_set_Forall.
Qed.

Lemma flush_sound st :
  NoDup (map fst (entities st)) → Forall (fun kv => kv.2 ≠ []) (entities st) →
  NoDup (map fst (flush st)) ∧ Forall (fun kv => kv.2 ≠ []) (flush st).
Proof.
  intros Hnd Hne. unfold flush.
  destruct (current_entity st) as [tag|]; [|done].
  destruct (current_tokens st); [done|].
  destruct (bool_decide (tag = [])); [done|]. by apply add_entity_sound.
Qed.

Lemma step_sound st token tag :
  NoDup (map fst (entities st)) → Forall (fun kv => kv.2 ≠ []) (entities st) →
  NoDup (map fst (entities (step st token tag)))
  ∧ Forall (fun kv => kv.2 ≠ []) (entities (step st token tag)).
Proof.
  intros Hnd Hne. pose proof (flush_sound st Hnd Hne) as [Hf1 Hf2]. unfold step.
  destruct (startswith tag (py "B-") || startswith tag (py "S-")).
  - destruct (startswith tag (py "S-")); cbn [entities]; [|done].
    by apply add_entity_sound.
  - destruct (startswith tag (py "I-") && is_open st); [done|].
    destruct (startswith tag (py "E-") && is_open st); [|done].
    destruct (current_entity st); [|done]. cbn [entities].
    by apply add_entity_sound.
Qed.

Lemma decode_sound st l :
  NoDup (map fst (entities st)) → Forall (fun kv => kv.2 ≠ []) (entities st) →
  NoDup (map fst (entities (decode st l)))
  ∧ Forall (fun kv => kv.2 ≠ []) (entities (decode st l)).
Proof.
  revert st. induction l as [|[token tag] l IH]; intros st Hnd Hne; [done|].
  simpl. destruct (step_sound st token tag Hnd Hne). by apply IH.
Qed.

Lemma extract_sound tokens ner_tags :
  NoDup (map fst (extract_entities_from_tokens tokens ner_tags))
  ∧ Forall (fun kv => kv.2 ≠ []) (extract_entities_from_tokens tokens ner_tags).
Proof.
  unfold extract_entities_from_tokens.
  destruct (decode_sound (mk_state [] None []) (zip tokens ner_tags)) as [H1 H2];
    [constructor | constructor |].
  by apply flush_sound.
Qed.

End DecoderInvariants.

Section DecoderMore.
Import Decoder Props MoreProps.

Lemma run_of_suffix tokens k n :
  0 < n → n ≤ k → k ≤ length tokens →
  run_of tokens (join (take n (drop (k - n) tokens))).
Proof. intros. exists (k - n), n. split; [done|]. split; [lia | done]. Qed.

Lemma add_entity_runs tokens ty v (ents : list (str * list str)) :
  Forall (fun kv : str * list str => Forall (run_of tokens) kv.2) ents →
  run_of tokens v →
  Forall (fun kv : str * list str => Forall (run_of tokens) kv.2) (add_entity ty v ents).
Proof.
  intros Hents Hv. unfold add_entity. destruct (dict_get ty ents) as [l|] eqn:E.
  - apply dict_set_Forall; [done|]. simpl. apply Forall_app. split; [|by repeat constructor].
    apply dict_get_Some_elem in E. rewrite Forall_forall in Hents. apply (Hents _ E).
  - apply dict_set_Forall; [done|]. simpl. by repeat constructor.
Qed.

Lemma flush_runs tokens k st :
  k ≤ length tokens → reading tokens k st →
  Forall (fun kv : str * list str => Forall (run_of tokens) kv.2) (flush st).
Proof.
  intros Hk (Hents & n & Hn & Hcur). unfold flush.
  destruct (current_entity st) as [tag|]; [|done].
  destruct (current_tokens st) as [|t ts] eqn:E; [done|].
  destruct (bool_decide (tag = [])); [done|].
  apply add_entity_runs; [done|]. rewrite Hcur.
  apply run_of_suffix; try done. destruct n; [|lia]. by rewrite take_0 in Hcur.
Qed.

Lemma take_snoc_lookup (tokens : list str) k n token :
  n ≤ k → tokens !! k = Some token →
  take n (drop (k - n) tokens) ++ [token] = take (S n) (drop (S k - S n) tokens).
Proof.
  intros Hn Hk. replace (S k - S n) with (k - n) by lia.
  rewrite (take_S_r _ _ token); [done|].
  rewrite lookup_drop. by replace (k - n + n) with k by lia.
Qed.

Lemma step_reading tokens k st token tag :
  tokens !! k = Some token → reading tokens k st →
  reading tokens (S k) (step st token tag).
Proof.
  intros Htok Hst. pose proof (lookup_lt_Some _ _ _ Htok) as Hlt.
  assert (Forall (fun kv : str * list str => Forall (run_of tokens) kv.2) (flush st))
    as Hflush by (apply (flush_runs tokens k); [lia | done]).
  assert (run_of tokens (join [token])) as Hone.
  { exists k, 1. split; [lia|]. split; [lia|].
    by rewrite (take_S_r _ _ token), take_0 by (rewrite lookup_drop; by rewrite Nat.add_0_r). }
  destruct Hst as (Hents & n & Hn & Hcur). unfold step.
  destruct (startswith tag (py "B-") || startswith tag (py "S-")).
  - destruct (startswith tag (py "S-")); split; cbn [entities current_tokens].
    + by apply add_entity_runs.
    + exists 0. split; [lia|]. by rewrite take_0.
    + done.
    + exists 1. split; [lia|]. replace (S k - 1) with k by lia.
      by rewrite (take_S_r _ _ token), take_0 by (rewrite lookup_drop; by rewrite Nat.add_0_r).
  - unfold is_open. destruct (current_entity st) as [cur|] eqn:Ecur.
    + destruct (startswith tag (py "I-") && negb (bool_decide (cur = []))).
      { split; cbn [entities current_tokens]; [done|].
        exists (S n). split; [lia|]. rewrite Hcur. by apply take_snoc_lookup. }
      destruct (startswith tag (py "E-") && negb (bool_decide (cur = []))).
      { split; cbn [entities current_tokens].
        - apply add_entity_runs; [done|].
          rewrite Hcur, (take_snoc_lookup _ _ _ token) by done.
          apply (run_of_suffix tokens (S k) (S n)); lia.
        - exists 0. split; [lia|]. by rewrite take_0. }
      split; cbn [entities current_tokens]; [done|].
      exists 0. split; [lia|]. by rewrite take_0.
    + rewrite !andb_false_r. split; cbn [entities current_tokens]; [done|].
      exists 0. split; [lia|]. by rewrite take_0.
Qed.

Lemma decode_reading tokens l k st :
  (∀ j token tag, l !! j = Some (token, tag) → tokens !! (k + j) = Some token) →
  reading tokens k st → reading tokens (k + length l) (decode st l).
Proof.
  revert k st. induction l as [|[token tag] l IH]; intros k st Hl Hst.
  - by rewrite Nat.add_0_r.
  - cbn [decode foldl length]. replace (k + S (length l)) with (S k + length l) by lia.
    apply IH.
    + intros j token' tag' Hj. replace (S k + j) with (k + S j) by lia.
      by apply (Hl (S j) token' tag').
    + apply step_reading; [|done]. specialize (Hl 0 token tag eq_refl).
      by rewrite Nat.add_0_r in Hl.
Qed.

Lemma extract_runs tokens ner_tags :
  Forall (fun kv : str * list str => Forall (run_of tokens) kv.2)
         (extract_entities_from_tokens tokens ner_tags).
Proof.
  unfold extract_entities_from_tokens.
  assert (reading tokens (0 + length (zip tokens ner_tags))
            (decode (mk_state [] None []) (zip tokens ner_tags))) as Hr.
  { apply decode_reading.
    - intros j token tag Hj. simpl.
      apply lookup_zip_with_Some in Hj as (x & y & [= <- <-] & Hx & _). done.
    - split; [constructor|]. exists 0. split; [lia|]. by rewrite take_0. }
  eapply flush_runs; [|exact Hr]. rewrite length_zip. lia.
Qed.

End DecoderMore.

Section DecoderExtras.
Import Decoder Props MoreProps.

(** X1.  Whatever the tokens and the tags, the dictionary the decoder
    returns has no empty list, and every value in it is the concatenation
    of a non-empty run of consecutive tokens. *)
Theorem decoder_values_are_token_runs (tokens ner_tags : list str) :
  let ents := extract_entities_from_tokens tokens ner_tags in
  NoDup (map fst ents)
  ∧ Forall (fun kv : str * list str => kv.2 ≠ [] ∧ Forall (run_of tokens) kv.2) ents.
Proof.
  cbn zeta. destruct (extract_sound tokens ner_tags) as [Hnd Hne].
  split; [done|]. apply Forall_and. split; [done|]. apply extract_runs.
Qed.

(** X2.  A tag sequence without any [B-] or [S-] tag decodes to the empty
    dictionary: [I-] and [E-] tags met while nothing is open are ignored. *)
Theorem decoder_needs_an_opening_tag (tokens ner_tags : list str) :
  Forall (fun tag => startswith tag (py "B-") = false
                     ∧ startswith tag (py "S-") = false) ner_tags →
  extract_entities_from_tokens tokens ner_tags = [].
Proof.
  intros Htags. unfold extract_entities_from_tokens.
  assert (∀ l : list (str * str),
            Forall (fun p => startswith p.2 (py "B-") = false
                             ∧ startswith p.2 (py "S-") = false) l →
            foldl (fun st '(token, tag) => step st token tag) (mk_state [] None []) l
            = mk_state [] None []) as Hidle.
  { induction l as [|[token tag] l IH]; intros Hl; [done|].
    inversion Hl as [|? ? [Hb Hs] Hl']; subst. cbn [snd] in Hb, Hs.
    cbn [foldl]. unfold step at 2. rewrite Hb, Hs. cbn [orb is_open current_entity].
    rewrite !andb_false_r. by apply IH. }
  rewrite Hidle; [done|].
  apply Forall_forall. intros [token tag] Hin. simpl.
  rewrite Forall_forall in Htags. apply Htags.
  apply list_elem_of_lookup in Hin as [i Hi].
  apply lookup_zip_with_Some in Hi as (x & y & [= <- <-] & _ & Hy).
  by apply list_elem_of_lookup_2 in Hy.
Qed.

Lemma decoder_needs_an_opening_tag_witness :
  extract_entities_from_tokens [py "a"; py "b"; py "c"] [py "I-road"; py "E-road"; py "O"]
  = [].
Proof.
  apply decoder_needs_an_opening_tag. repeat constructor.
Defined.

End DecoderExtras.

Section FormatterFacts.
Import Decoder Formatter Levels Props MoreProps.

Lemma priority_order_NoDup : NoDup priority_order.
Proof. apply (bool_decide_unpack _). vm_compute. exact I. Qed.

Lemma add_priority_spec (entities : list (str * list str)) (keys : list str)
    (out : list (str * str)) :
  NoDup keys → (∀ k, k ∈ keys → k ∉ map fst out) →
  foldl (fun out entity_type =>
           match dict_get entity_type entities with
           | Some entity_list => dict_set entity_type (join_with (py ", ") entity_list) out
           | None => out
           end) out keys
  = out ++ omap (fun k => (fun l => (k, join_with (py ", ") l)) <$> dict_get k entities) keys.
Proof.
  revert out. induction keys as [|k keys IH]; intros out Hnd Hfresh.
  - by rewrite app_nil_r.
  - apply NoDup_cons in Hnd as [Hk Hnd]. cbn [foldl omap list_omap].
    destruct (dict_get k entities) as [l|]; cbn [fmap option_fmap option_map].
    + rewrite dict_set_fresh by (apply dict_get_None, Hfresh, list_elem_of_here).
      rewrite IH; [by rewrite <- app_assoc | done |].
      intros k' Hk'. rewrite map_app, not_elem_of_app. split.
      * apply Hfresh. by apply list_elem_of_further.
      * simpl. intros ->%list_elem_of_singleton. done.
    + apply IH; [done|]. intros k' Hk'. apply Hfresh. by apply list_elem_of_further.
Qed.

Lemma add_others_spec (entities : list (str * list str)) (out : list (str * str)) :
  NoDup (map fst entities) →
  (∀ kv, kv ∈ entities → kv.1 ∉ priority_order → kv.1 ∉ map fst out) →
  add_others entities out
  = out ++ omap (fun kv : str * list str =>
                   if bool_decide (kv.1 ∈ priority_order) then None
                   else Some (kv.1, join_with (py ", ") kv.2)) entities.
Proof.
  unfold add_others. revert out.
  induction entities as [|[k l] entities IH]; intros out Hnd Hfresh.
  - by rewrite app_nil_r.
  - cbn [map fst] in Hnd. apply NoDup_cons in Hnd as [Hk Hnd].
    cbn [foldl omap list_omap fst snd].
    destruct (bool_decide (k ∈ priority_order)) eqn:E.
    + apply IH; [done|]. intros kv Hkv. apply Hfresh. by apply list_elem_of_further.
    + apply bool_decide_eq_false in E.
      rewrite dict_set_fresh
        by (apply dict_get_None, (Hfresh (k, l)); [apply list_elem_of_here | done]).
      rewrite IH; [by rewrite <- app_assoc | done |].
      intros kv Hkv Hp. rewrite map_app, not_elem_of_app. split.
      * apply Hfresh; [by apply list_elem_of_further | done].
      * simpl. intros Heq%list_elem_of_singleton. apply Hk.
        rewrite <- Heq. apply list_elem_of_fmap. by exists kv.
Qed.

Lemma add_simple_defined (entities : list (str * list str)) (out : list (str * str)) :
  Forall (fun kv => kv.2 ≠ []) entities → is_Some (add_simple entities out).
Proof.
  revert out. induction entities as [|[k l] entities IH]; intros out Hne; [by eexists|].
  inversion Hne as [|? ? Hl Hne']; subst. cbn [add_simple].
  assert (is_Some (simple_value l)) as [v ->].
  { unfold simple_value. destruct (1 <? length l); [by eexists|].
    destruct l; [done | by eexists]. }
  by apply IH.
Qed.

Lemma py_comma_space : py ", " = [comma; 32%N].
Proof. reflexivity. Qed.

Lemma split_plain (v : str) : contains comma v = false → split comma v = [v].
Proof.
  induction v as [|c v IH]; [done|]. cbn [contains existsb]. intros H.
  apply orb_false_iff in H as [Hc Hv]. cbn [split].
  rewrite N.eqb_sym, Hc. unfold contains in IH. by rewrite IH.
Qed.

Lemma split_app_comma (v rest : str) :
  contains comma v = false → split comma (v ++ comma :: rest) = v :: split comma rest.
Proof.
  induction v as [|c v IH]; [done|]. cbn [contains existsb]. intros H.
  apply orb_false_iff in H as [Hc Hv]. cbn [app split].
  rewrite N.eqb_sym, Hc. unfold contains in IH. by rewrite IH.
Qed.

Lemma contains_app c (a b : str) : contains c (a ++ b) = contains c a || contains c b.
Proof. unfold contains. apply existsb_app. Qed.

Lemma strip_after_space (v : str) : strip (32%N :: v) = strip v.
Proof. reflexivity. Qed.

(** Splitting a joined value gives back the parts, each after a blank. *)
Lemma split_join_with (v : str) (vs : list str) :
  Forall (fun v => contains comma v = false) (v :: vs) →
  split comma (join_with (py ", ") (v :: vs)) = v :: map (cons 32%N) vs.
Proof.
  revert v. induction vs as [|w vs IH]; intros v Hall.
  - inversion Hall; subst. by apply split_plain.
  - inversion Hall as [|? ? Hv Hall']; subst.
    change (join_with (py ", ") (v :: w :: vs))
      with (v ++ py ", " ++ join_with (py ", ") (w :: vs)).
    rewrite py_comma_space. cbn [app]. rewrite split_app_comma by done.
    f_equal. rewrite <- py_comma_space. cbn [split].
    change (32 =? comma)%N with false. cbn match. by rewrite IH.
Qed.

Lemma format_address_listing (raw : raw_data) :
  let ents := extract_entities_from_tokens (default [] (rd_tokens raw))
                                           (default [] (rd_ner_tags raw)) in
  f_entities (format_address raw)
  = omap (fun k => (fun l => (k, join_with (py ", ") l)) <$> dict_get k ents)
         priority_order
    ++ omap (fun kv : str * list str =>
               if bool_decide (kv.1 ∈ priority_order) then None
               else Some (kv.1, join_with (py ", ") kv.2)) ents.
Proof.
  cbn zeta. unfold format_address. cbn [f_entities].
  set (ents := extract_entities_from_tokens _ _).
  assert (add_priority ents []
          = omap (fun k => (fun l => (k, join_with (py ", ") l)) <$> dict_get k ents)
                 priority_order) as Hp.
  { unfold add_priority. rewrite add_priority_spec; [done | apply priority_order_NoDup |].
    intros k _. apply not_elem_of_nil. }
  rewrite Hp. apply add_others_spec.
  - apply extract_sound.
  - intros kv _ Hnp Hin. apply Hnp.
    apply list_elem_of_fmap in Hin as ([k v] & -> & Hin).
    apply list_elem_of_omap in Hin as (k' & Hk' & Hsome).
    destruct (dict_get k' ents); [|done]. by injection Hsome as -> _.
Qed.

End FormatterFacts.

Section FormatterExtras.
Import Decoder Formatter Levels Props MoreProps.

(** X3.  [format_address] lists the decoded entity types of
    [priority_order] first, in that order, then the other decoded types in
    the order the decoder met them; each type appears once, with its values
    joined by [", "]. *)
Theorem format_address_entities (raw : raw_data) :
  let ents := extract_entities_from_tokens (default [] (rd_tokens raw))
                                           (default [] (rd_ner_tags raw)) in
  f_entities (format_address raw)
  = omap (fun k => (fun l => (k, join_with (py ", ") l)) <$> dict_get k ents)
         priority_order
    ++ omap (fun kv : str * list str =>
               if bool_decide (kv.1 ∈ priority_order) then None
               else Some (kv.1, join_with (py ", ") kv.2)) ents.
Proof. apply format_address_listing. Qed.

(** X4.  [create_simple_format] never fails on [entity_list[0]]: the
    decoder returns no empty list, whatever the tokens and tags are. *)
Theorem create_simple_format_never_fails (raw : raw_data) :
  is_Some (create_simple_format raw).
Proof. unfold create_simple_format. apply add_simple_defined, extract_sound. Qed.

Lemma index_values_strip frames addr (l1 l2 : list str) used :
  map strip l1 = map strip l2 →
  index_values frames addr l1 used = index_values frames addr l2 used.
Proof.
  unfold index_values. generalize (Ok (([] : list span), used)).
  revert l2. induction l1 as [|a l1 IH]; intros [|b l2] acc H; try done.
  injection H as Hab H. cbn [foldl].
  assert (index_value_step frames addr acc a = index_value_step frames addr acc b) as ->.
  { unfold index_value_step. by rewrite Hab. }
  by apply IH.
Qed.

(** X5.  The values [format_address] joins with [", "] are the ones the
    classifier (and the encoder) split off again, when no value contains a
    comma or has outer whitespace: [split_entities] returns them, and an
    entry of two or more values is indexed value by value. *)
Theorem joined_values_split_back (frames : nat) (vs : list str) (addr key : str)
    (st : index_map * gset nat) :
  vs ≠ [] → Forall plain vs →
  Encoder.split_entities (join_with (py ", ") vs) = vs
  ∧ (2 ≤ length vs →
     index_entry frames addr key (PyStr (join_with (py ", ") vs)) st
     = '(found, used) ← index_values frames addr vs st.2;
       Ok (dict_set key found st.1, used)).
Proof.
  intros Hne Hplain. destruct vs as [|v vs]; [done|].
  assert (Forall (fun v => contains comma v = false) (v :: vs)) as Hnc.
  { eapply Forall_impl; [exact Hplain|]. by intros ? [? _]. }
  assert (map strip (v :: map (cons 32%N) vs) = v :: vs) as Hstrip.
  { rewrite Forall_forall in Hplain. cbn [map]. f_equal.
    - apply Hplain, list_elem_of_here.
    - rewrite map_map. clear Hnc Hne.
      induction vs as [|w vs IH]; [done|]. cbn [map]. f_equal.
      + rewrite strip_after_space. apply (Hplain w).
        apply list_elem_of_further, list_elem_of_here.
      + apply IH. intros x [->|Hx]%elem_of_cons; apply Hplain.
        * apply list_elem_of_here.
        * by do 2 apply list_elem_of_further. }
  destruct vs as [|w vs].
  - split; [|simpl; lia]. unfold Encoder.split_entities. cbn [join_with].
    inversion Hnc as [|? ? Hv _]; subst. by rewrite Hv.
  - assert (contains comma (join_with (py ", ") (v :: w :: vs)) = true) as Hc.
    { change (join_with (py ", ") (v :: w :: vs))
        with (v ++ py ", " ++ join_with (py ", ") (w :: vs)).
      rewrite !contains_app. rewrite py_comma_space. cbn. apply orb_true_r. }
    split.
    + unfold Encoder.split_entities. rewrite Hc, split_join_with by done. exact Hstrip.
    + intros _. unfold index_entry.
      cbn [py_contains_comma py_split_comma mbind outcome_bind]. rewrite Hc.
      cbn [mbind outcome_bind].
      rewrite (index_values_strip frames addr _ (v :: w :: vs)); [done|].
      rewrite split_join_with by done. rewrite Hstrip.
      clear -Hplain. induction Hplain as [|x l [_ Hx] _ IH]; [done|].
      cbn [map]. by rewrite Hx, <- IH.
Qed.

Lemma joined_values_split_back_witness :
  let vs := [py "中山路"; py "解放路"] in
  vs ≠ [] ∧ Forall plain vs
  ∧ join_with (py ", ") vs = py "中山路, 解放路"
  ∧ Encoder.split_entities (py "中山路, 解放路") = vs.
Proof.
  cbn zeta.
  assert (Forall plain [py "中山路"; py "解放路"]) as Hp by (repeat constructor).
  split; [done|]. split; [exact Hp|]. split; [reflexivity|].
  destruct (joined_values_split_back 1000 [py "中山路"; py "解放路"] [] [] ([], ∅)) as [H _];
    [done | exact Hp |].
  exact H.
Defined.

End FormatterExtras.

(** * Further properties of the encoder *)

Section EncoderMore.
Import Encoder Props MoreProps.

Variable original_address : str.

Lemma length_slice (s : str) a b : b ≤ length s → length (slice s a b) = b - a.
Proof. intros H. unfold slice. rewrite length_take, length_drop. lia. Qed.

Lemma emit_entity_tagged st seen e :
  tagged st seen → located_in original_address e → current_pos st ≤ e_start e →
  tagged (emit_entity original_address st e) (seen ++ [e]).
Proof.
  intros (Hlen & Hseen & Hout) (Hne & Hend & _ & Hbound) Hcur.
  set (gap := map (fun _ : char => py "O")
                  (slice original_address (current_pos st) (e_start e))).
  assert (ner_tags (emit_entity original_address st e)
          = (ner_tags st ++ gap)
            ++ imap (fun i _ => bioes_tag (e_type e) (length (e_text e)) i) (e_text e))
    as Htags.
  { unfold emit_entity. cbn [ner_tags]. destruct (current_pos st <? e_start e) eqn:E.
    - done.
    - apply Nat.ltb_ge in E. subst gap.
      replace (e_start e) with (current_pos st) by lia.
      unfold slice. rewrite Nat.sub_diag. cbn. by rewrite app_nil_r. }
  assert (length gap = e_start e - current_pos st) as Hgap.
  { subst gap. rewrite length_map, length_slice; [done | lia]. }
  assert (length (ner_tags st ++ gap) = e_start e) as Hpre.
  { rewrite length_app. lia. }
  unfold tagged. rewrite Htags. cbn [emit_entity current_pos].
  split; [|split].
  - rewrite length_app, length_imap. lia.
  - intros e' i [He'|He']%elem_of_app Hi.
    + destruct (Hseen e' i He' Hi) as [H1 H2]. split; [lia|].
      rewrite <- app_assoc, lookup_app_l; [done|]. by apply lookup_lt_Some in H2.
    + apply list_elem_of_singleton in He'. subst e'. split; [lia|].
      rewrite lookup_app_r by lia. rewrite Hpre.
      replace (e_start e + i - e_start e) with i by lia.
      rewrite list_lookup_imap. destruct (lookup_lt_is_Some_2 (e_text e) i Hi) as [c ->].
      done.
  - intros j Hj Hfree.
    assert (¬ (e_start e ≤ j < e_end e)) as Hje.
    { apply Hfree. apply elem_of_app. right. apply list_elem_of_here. }
    assert (j < e_start e) as Hjs by lia.
    rewrite lookup_app_l by lia.
    destruct (decide (j < current_pos st)) as [Hlt|Hge].
    + rewrite lookup_app_l by lia. apply Hout; [done|].
      intros e' He'. apply Hfree. apply elem_of_app. by left.
    + rewrite lookup_app_r by lia. subst gap. rewrite list_lookup_fmap.
      destruct (lookup_lt_is_Some_2
                  (slice original_address (current_pos st) (e_start e))
                  (j - length (ner_tags st))) as [c ->]; [|done].
      rewrite length_slice; lia.
Qed.

Lemma emit_loop_tagged st seen es :
  tagged st seen → Forall (located_in original_address) es →
  ascending es = true → pairwise_disjoint es = true →
  Forall (fun e => current_pos st ≤ e_start e) es →
  tagged (foldl (emit_entity original_address) st es) (seen ++ es).
Proof.
  revert st seen. induction es as [|e es IH]; intros st seen Hst Hloc Hasc Hdis Hcur.
  - by rewrite app_nil_r.
  - apply ascending_cons in Hasc as [Ha1 Ha2].
    apply pairwise_disjoint_cons in Hdis as [Hd1 Hd2].
    inversion Hloc as [|? ? Hle Hles]; subst.
    inversion Hcur as [|? ? Hce Hces]; subst.
    cbn [foldl]. replace (seen ++ e :: es) with ((seen ++ [e]) ++ es)
      by (by rewrite <- app_assoc).
    apply IH; try done; [by apply emit_entity_tagged|].
    cbn [emit_entity current_pos].
    apply Forall_forall. intros y Hy.
    rewrite Forall_forall in Ha1, Hd1, Hles.
    specialize (Ha1 y Hy). specialize (Hd1 y Hy).
    destruct (Hles y Hy) as (Hty & Hey & _ & _).
    destruct Hle as (Hte & Hee & _ & _).
    unfold overlap in Hd1. apply andb_false_iff in Hd1.
    assert (0 < length (e_text y)) by (destruct (e_text y); [done | simpl; lia]).
    destruct Hd1 as [Hd1|Hd1]; apply Nat.ltb_ge in Hd1; lia.
Qed.

Lemma emit_all_tagged es :
  Forall (located_in original_address) es →
  ascending es = true → pairwise_disjoint es = true →
  let tags := ner_tags (emit_all original_address es) in
  (∀ e i, e ∈ es → i < length (e_text e) →
     tags !! (e_start e + i) = Some (bioes_tag (e_type e) (length (e_text e)) i))
  ∧ (∀ j, j < length original_address →
       (∀ e, e ∈ es → ¬ (e_start e ≤ j < e_end e)) → tags !! j = Some (py "O")).
Proof.
  intros Hloc Hasc Hdis. cbn zeta.
  assert (tagged (foldl (emit_entity original_address) (mk_state [] [] 0) es) ([] ++ es))
    as (Hlen & Hseen & Hout).
  { apply emit_loop_tagged; try done.
    - split; [done|]. split; [by intros ? ? ?%elem_of_nil | simpl; lia].
    - apply Forall_forall. intros; simpl; lia. }
  cbn [app] in *. unfold emit_all, emit_remaining.
  set (st := foldl (emit_entity original_address) (mk_state [] [] 0) es) in *.
  destruct (current_pos st <? length original_address) eqn:E.
  - apply Nat.ltb_lt in E. cbn [emit_outside ner_tags]. split.
    + intros e i He Hi. destruct (Hseen e i He Hi) as [_ H].
      rewrite lookup_app_l; [done|]. by apply lookup_lt_Some in H.
    + intros j Hj Hfree. destruct (decide (j < current_pos st)) as [Hlt|Hge].
      * rewrite lookup_app_l by lia. by apply Hout.
      * rewrite lookup_app_r by lia. rewrite list_lookup_fmap.
        destruct (lookup_lt_is_Some_2 (drop (current_pos st) original_address)
                    (j - length (ner_tags st))) as [c ->]; [|done].
        rewrite length_drop. lia.
  - apply Nat.ltb_ge in E. split.
    + intros e i He Hi. by destruct (Hseen e i He Hi).
    + intros j Hj Hfree. apply Hout; [lia | done].
Qed.

End EncoderMore.

Section EncoderExtras.
Import Encoder Props MoreProps.

(** X6.  When the located spans are pairwise non-overlapping, the tag at
    every offset is determined by position: character [i] of a located
    span carries that span's B/I/E/S tag (S for a one-character span, else
    B first, E last, I between), and every offset of the text outside all
    located spans carries ['O'].  In particular a map none of whose values
    occurs in the text yields only ['O']. *)
Theorem encoder_tags_by_position (address_components : list (str * str))
    (original_address : str) :
  pairwise_disjoint (entity_positions address_components original_address) = true →
  let tags := r_ner_tags (convert_address_to_token address_components original_address) in
  let es := entity_positions address_components original_address in
  (∀ e i, e ∈ es → i < length (e_text e) →
     tags !! (e_start e + i) = Some (bioes_tag (e_type e) (length (e_text e)) i))
  ∧ (∀ j, j < length original_address →
       (∀ e, e ∈ es → ¬ (e_start e ≤ j < e_end e)) → tags !! j = Some (py "O")).
Proof.
  intros Hdis. cbn zeta. unfold convert_address_to_token. cbn [r_ner_tags].
  destruct (emit_all_tagged original_address
              (sort_by_start (entity_positions address_components original_address)))
    as [H1 H2].
  - eapply Forall_forall. intros e He. rewrite sort_by_start_perm in He.
    pose proof (entity_positions_located_in original_address address_components) as H.
    rewrite Forall_forall in H. by apply H.
  - apply sort_by_start_ascending.
  - by apply pairwise_disjoint_sort.
  - split.
    + intros e i He Hi. apply H1; [|done]. by rewrite sort_by_start_perm.
    + intros j Hj Hfree. apply H2; [done|]. intros e He. apply Hfree.
      by rewrite sort_by_start_perm in He.
Qed.

Lemma encoder_tags_by_position_witness :
  let ac := [(py "road", py "中山路"); (py "roadno", py "8号")] in
  let s := py "广州中山路8号旁" in
  let tags := r_ner_tags (convert_address_to_token ac s) in
  pairwise_disjoint (entity_positions ac s) = true
  ∧ tags !! 1 = Some (py "O") ∧ tags !! 2 = Some (py "B-road")
  ∧ tags !! 4 = Some (py "E-road") ∧ tags !! 7 = Some (py "O").
Proof.
  cbn zeta.
  destruct (encoder_tags_by_position
              [(py "road", py "中山路"); (py "roadno", py "8号")] (py "广州中山路8号旁") eq_refl)
    as [H1 H2].
  split; [reflexivity|]. split; [|split; [|split]].
  - apply H2; [vm_compute; lia|]. intros e He. vm_compute in He.
    repeat (apply elem_of_cons in He as [->|He]; [simpl; lia|]). by apply elem_of_nil in He.
  - apply (H1 (mk_entity 2 5 (py "中山路") (py "road")) 0); [|vm_compute; lia].
    vm_compute. apply list_elem_of_here.
  - apply (H1 (mk_entity 2 5 (py "中山路") (py "road")) 2); [|vm_compute; lia].
    vm_compute. apply list_elem_of_here.
  - apply H2; [vm_compute; lia|]. intros e He. vm_compute in He.
    repeat (apply elem_of_cons in He as [->|He]; [simpl; lia|]). by apply elem_of_nil in He.
Defined.

Lemma entity_positions_types (ac : list (str * str)) (addr : str) e :
  e ∈ entity_positions ac addr → e_type e ∈ map fst ac.
Proof.
  unfold entity_positions. rewrite list_elem_of_In, in_flat_map.
  intros ([ty v] & Hin & He). apply list_elem_of_In in Hin.
  destruct v as [|c v]; [done|]. apply in_flat_map in He as (cand & _ & He).
  unfold locate in He. destruct cand; [done|].
  destruct (find addr _ 0); [|done]. destruct He as [<-|[]].
  simpl. apply list_elem_of_fmap. by exists (ty, c :: v).
Qed.

Lemma bioes_tag_over types ty n i : ty ∈ types → bioes_over types (bioes_tag ty n i).
Proof.
  intros Hty. right. unfold bioes_tag.
  destruct (n =? 1); [|destruct (i =? 0); [|destruct (i =? n - 1)]];
    eexists _, ty; (split; [|split; [exact Hty | reflexivity]]); set_solver.
Qed.

Lemma emit_outside_over types st s :
  Forall (bioes_over types) (ner_tags st) →
  Forall (bioes_over types) (ner_tags (emit_outside st s)).
Proof.
  intros H. cbn [emit_outside ner_tags]. apply Forall_app. split; [done|].
  apply Forall_forall. intros tag (? & -> & _)%list_elem_of_fmap. by left.
Qed.

(** X7.  Every tag the encoder emits is ['O'] or one of [B-], [I-], [E-],
    [S-] followed by a key of the category map, whether or not the located
    spans overlap. *)
Theorem encoder_tag_alphabet (address_components : list (str * str))
    (original_address : str) :
  Forall (bioes_over (map fst address_components))
         (r_ner_tags (convert_address_to_token address_components original_address)).
Proof.
  unfold convert_address_to_token. cbn [r_ner_tags].
  set (types := map fst address_components).
  assert (∀ es st,
            Forall (fun e => e_type e ∈ types) es →
            Forall (bioes_over types) (ner_tags st) →
            Forall (bioes_over types)
                   (ner_tags (foldl (emit_entity original_address) st es))) as Hloop.
  { induction es as [|e es IH]; intros st Hes Hst; [done|].
    inversion Hes; subst. cbn [foldl]. apply IH; [done|].
    unfold emit_entity. cbn [ner_tags]. apply Forall_app. split.
    - destruct (current_pos st <? e_start e); [apply emit_outside_over|]; exact Hst.
    - apply Forall_forall. intros tag Htag.
      apply list_elem_of_lookup in Htag as [i Hi].
      rewrite list_lookup_imap in Hi. apply fmap_Some in Hi as (c & _ & ->).
      by apply bioes_tag_over. }
  unfold emit_all, emit_remaining.
  assert (Forall (bioes_over types)
            (ner_tags (foldl (emit_entity original_address) (mk_state [] [] 0)
               (sort_by_start (entity_positions address_components original_address)))))
    as H.
  { apply Hloop; [|constructor]. apply Forall_forall. intros e He.
    rewrite sort_by_start_perm in He. by eapply entity_positions_types. }
  destruct (_ <? _); [by apply emit_outside_over | done].
Qed.

End EncoderExtras.

(** * Further properties of the level classifier *)

Section ClassifierMore.
Import Levels LevelProps MoreProps.

Lemma find_value_occurrence frames addr value used sp used' :
  find_value frames addr value used = Ok (Some (sp, used')) →
  sp.2 ≤ length addr ∧ sp.2 = sp.1 + length value ∧ slice addr sp.1 sp.2 = value.
Proof. intros H. apply find_value_from_spec in H as (_ & ? & ? & ? & _). done. Qed.

Lemma index_values_occurrences frames addr values used found used' (sp : span) :
  index_values frames addr values used = Ok (found, used') → sp ∈ found →
  sp.2 ≤ length addr
  ∧ ∃ v, v ∈ values ∧ sp.2 = sp.1 + length (strip v) ∧ slice addr sp.1 sp.2 = strip v.
Proof.
  revert used found. induction values as [|v values IH]; intros used found.
  - intros [= <- <-] Hsp. by apply elem_of_nil in Hsp.
  - rewrite index_values_cons.
    destruct (find_value frames addr (strip v) used) as [[[index u1]|]|e] eqn:E;
      cbn [mbind outcome_bind]; [| |done].
    + destruct (index_values frames addr values u1) as [[found1 u2]|e] eqn:E1; [|done].
      cbn. intros [= <- <-] [->|Hsp]%elem_of_cons.
      * apply find_value_occurrence in E as (? & ? & ?).
        split; [done|]. exists v. split; [apply list_elem_of_here | done].
      * destruct (IH _ _ E1 Hsp) as (Hb & w & Hw & Hrest).
        split; [done|]. exists w. split; [by apply list_elem_of_further | done].
    + intros H Hsp. destruct (IH _ _ H Hsp) as (Hb & w & Hw & Hrest).
      split; [done|]. exists w. split; [by apply list_elem_of_further | done].
Qed.

Lemma elem_of_dict_set {V} (k : str) (v : V) (d : list (str * V)) (kv : str * V) :
  kv ∈ dict_set k v d → kv = (k, v) ∨ kv ∈ d.
Proof.
  induction d as [|[k' v'] d IH]; cbn [dict_set].
  - intros H%list_elem_of_singleton. by left.
  - destruct (decide (k = k')) as [->|Hne].
    + intros [->|H]%elem_of_cons; [by left | right; by apply list_elem_of_further].
    + intros [->|H]%elem_of_cons; [right; apply list_elem_of_here|].
      destruct (IH H) as [?|?]; [by left | right; by apply list_elem_of_further].
Qed.

Lemma index_entry_occurrences frames d addr key (value : str) indices used
    indices' used' :
  (key, value) ∈ d →
  (∀ k l sp, (k, l) ∈ indices → sp ∈ l → occurrence_of d addr k sp) →
  index_entry frames addr key (PyStr value) (indices, used) = Ok (indices', used') →
  ∀ k l sp, (k, l) ∈ indices' → sp ∈ l → occurrence_of d addr k sp.
Proof.
  intros Hin Hold. unfold index_entry, Encoder.split_entities.
  cbn [py_contains_comma mbind outcome_bind].
  destruct (contains comma value) eqn:Ec;
    cbn [py_split_comma py_find_arg mbind outcome_bind fst snd].
  - destruct (index_values frames addr (split comma value) used) as [[found u]|e] eqn:E;
      [|done].
    cbn. intros [= <- <-] k l sp [[= -> ->]|Hkl]%elem_of_dict_set Hsp; [|by eapply Hold].
    destruct (index_values_occurrences _ _ _ _ _ _ _ E Hsp) as (Hb & v & Hv & Hlen & Hsl).
    split; [done|]. exists value, (strip v). unfold Encoder.split_entities. rewrite Ec.
    split; [done|]. split; [|done]. apply list_elem_of_fmap. by exists v.
  - destruct (find_value frames addr value used) as [[[index u]|]|e] eqn:E; cbn; [| |done].
    + intros [= <- <-] k l sp [[= -> ->]|Hkl]%elem_of_dict_set Hsp; [|by eapply Hold].
      apply list_elem_of_singleton in Hsp. subst sp.
      apply find_value_occurrence in E as (? & ? & ?).
      split; [done|]. exists value, value. unfold Encoder.split_entities. rewrite Ec.
      split; [done|]. split; [apply list_elem_of_here | done].
    + intros [= <- <-]. exact Hold.
Qed.

Lemma build_indices_occurrences frames d addr (items : list (str * str)) st st' :
  items ⊆ d →
  (∀ k l sp, (k, l) ∈ st.1 → sp ∈ l → occurrence_of d addr k sp) →
  build_indices frames addr (str_items items) st = Ok st' →
  ∀ k l sp, (k, l) ∈ st'.1 → sp ∈ l → occurrence_of d addr k sp.
Proof.
  revert st. induction items as [|[key value] items IH]; intros [indices used] Hsub Hold.
  - by intros [= <-].
  - cbn [str_items map build_indices fst snd].
    destruct (index_entry frames addr key (PyStr value) (indices, used))
      as [[i1 u1]|e] eqn:E; cbn [mbind outcome_bind]; [|done].
    apply IH.
    + intros x Hx. apply Hsub. by apply list_elem_of_further.
    + eapply index_entry_occurrences; [|exact Hold|exact E].
      apply Hsub, list_elem_of_here.
Qed.

Lemma build_indices_keys frames addr (items : list (str * str)) st st' k :
  build_indices frames addr (str_items items) st = Ok st' →
  is_Some (dict_get k st'.1) → is_Some (dict_get k st.1) ∨ k ∈ map fst items.
Proof.
  revert st. induction items as [|[key value] items IH]; intros [indices used].
  - intros [= <-]. by left.
  - cbn [str_items map build_indices fst snd].
    destruct (index_entry frames addr key (PyStr value) (indices, used))
      as [[i1 u1]|e] eqn:E; cbn [mbind outcome_bind]; [|done].
    intros H Hk. destruct (IH _ H Hk) as [Hk1|Hk1]; [|right; by apply list_elem_of_further].
    cbn [fst] in *. destruct (decide (k = key)) as [->|Hne]; [right; apply list_elem_of_here|].
    left. revert E. unfold index_entry. cbn [py_contains_comma mbind outcome_bind].
    destruct (contains comma value); cbn [py_split_comma py_find_arg mbind outcome_bind fst snd].
    + destruct (index_values _ _ _ _) as [[? ?]|?]; [|done]. cbn. intros [= <- <-].
      by rewrite dict_get_set_ne in Hk1.
    + destruct (find_value _ _ _ _) as [[[? ?]|]|?]; cbn; [| |done]; intros [= <- <-]; [|done].
      by rewrite dict_get_set_ne in Hk1.
Qed.

Lemma indices_of_keys frames d addr k :
  is_Some (dict_get k (indices_of frames d addr)) → k ∈ map fst d.
Proof.
  unfold indices_of.
  destruct (build_indices frames addr (str_items d) ([], ∅)) as [st|e] eqn:H.
  - intros Hk. destruct (build_indices_keys _ _ _ _ _ k H Hk) as [[? Hnil]|?]; done.
  - by intros [? ?].
Qed.

Lemma spans_of_absent frames keys (d : list (str * str)) addr :
  (∀ k, k ∈ keys → k ∉ map fst d) → spans_of keys (indices_of frames d addr) = [].
Proof.
  intros Hkeys. unfold spans_of. induction keys as [|k keys IH]; [done|].
  cbn [flat_map]. rewrite IH by (intros; apply Hkeys; by apply list_elem_of_further).
  destruct (dict_get k (indices_of frames d addr)) as [l|] eqn:E; [|done].
  exfalso. apply (Hkeys k); [apply list_elem_of_here|].
  apply indices_of_keys with (frames := frames) (addr := addr). by rewrite E.
Qed.

(** An index loop that returns has met only string values. *)
Lemma build_indices_ok_strs frames addr (items : list (str * pyval)) st st' :
  build_indices frames addr items st = Ok st' → ∃ d, items = str_items d.
Proof.
  revert st. induction items as [|[key value] items IH]; intros st H.
  - by exists [].
  - cbn [build_indices] in H.
    destruct (index_entry frames addr key value st) as [st1|e] eqn:E;
      cbn [mbind outcome_bind] in H; [|done].
    destruct (IH _ H) as [d ->].
    destruct value as [s| |z|l|l]; try done.
    + by exists ((key, s) :: d).
    + unfold index_entry in E. cbn [py_contains_comma mbind outcome_bind] in E.
      match type of E with context [existsb ?f ?x] => destruct (existsb f x) end; done.
    + unfold index_entry in E. cbn [py_contains_comma mbind outcome_bind] in E.
      match type of E with context [existsb ?f ?x] => destruct (existsb f x) end; done.
Qed.

Lemma lstrip_drop (s : str) : ∃ k, lstrip s = drop k s.
Proof.
  induction s as [|c s [k IH]]; [by exists 0|]. cbn [lstrip].
  destruct (isspace c); [exists (S k); exact IH | by exists 0].
Qed.

Lemma strip_substring (s : str) : ∃ i j, strip s = slice s i j.
Proof.
  unfold strip. destruct (lstrip_drop s) as [k Hk]. rewrite Hk.
  destruct (lstrip_drop (rev (drop k s))) as [m Hm]. rewrite Hm.
  exists k, (k + (length (drop k s) - m)). unfold slice.
  replace (k + (length (drop k s) - m) - k) with (length (drop k s) - m) by lia.
  by rewrite skipn_rev, rev_involutive.
Qed.

Lemma slice_slice (addr : str) a b i j : ∃ a' b', slice (slice addr a b) i j = slice addr a' b'.
Proof.
  unfold slice. exists (a + i), (a + i + (j - i) `min` (b - a - i)).
  replace (a + i + (j - i) `min` (b - a - i) - (a + i)) with ((j - i) `min` (b - a - i)) by lia.
  destruct (decide (i ≤ b - a)) as [Hle|Hgt].
  - replace (b - a) with (i + (b - a - i)) at 1 by lia.
    by rewrite <- take_drop_commute, take_take, drop_drop.
  - rewrite (drop_ge (take _ _)) by (rewrite length_take; lia).
    replace (b - a - i) with 0 by lia. by rewrite Nat.min_0_r, take_nil.
Qed.

Lemma level_text_substring addr sel : substring_of addr (level_text addr sel).
Proof.
  unfold level_text. destruct sel as [[mn|] [mx|]]; try (by exists 0, 0).
  destruct (strip_substring (slice addr mn.1 mx.2)) as (i & j & ->).
  destruct (slice_slice addr mn.1 mx.2 i j) as (a' & b' & ->). by exists a', b'.
Qed.

Lemma levels_pieces_of_text (frames : nat) (d : list (str * str)) (addr : str) :
  let r := classify_elements_to_11_levels frames (str_dict d) addr in
  Forall (substring_of addr)
    [level5 r; level6 r; level7 r; level8 r; level9 r; level10 r; level11 r].
Proof.
  cbn zeta. destruct (classify_str_dict frames d addr) as [[_ ->]|[_ ->]].
  - cbn [level5 level6 level7 level8 level9 level10 level11].
    repeat constructor; try apply level_text_substring.
    destruct (a_poi _) as [poi|]; [|by exists 0, 0].
    apply (level_text_substring addr (Some poi, Some poi)).
  - cbn. repeat constructor; by exists 0, 0.
Qed.

(** What the [error] field tells of the argument. *)
Lemma classify_error_of (frames : nat) (entities : pyval) (original_text : str) :
  let r := classify_elements_to_11_levels frames entities original_text in
  (error r = None → ∃ d, entities = str_dict d)
  ∧ (∀ d, entities = str_dict d → error r = None ∨ error r = Some RecursionError)
  ∧ (∀ d, entities = str_dict d → length original_text < frames → error r = None).
Proof.
  cbn zeta. split; [|split].
  - unfold classify_elements_to_11_levels.
    destruct (classify_body frames entities original_text) as [r|e] eqn:E; [|done].
    intros _. unfold classify_body in E. destruct entities as [| | | |items]; try done.
    cbn [py_items mbind outcome_bind] in E.
    destruct (build_indices frames original_text items ([], ∅)) as [st|e] eqn:Eb; [|done].
    destruct (build_indices_ok_strs _ _ _ _ _ Eb) as [d ->]. by exists d.
  - intros d ->. destruct (classify_str_dict frames d original_text) as [[He _]|[_ ->]];
      [by left | by right].
  - intros d ->. apply classify_enough_frames.
Qed.

End ClassifierMore.

Section ClassifierExtras.
Import Levels LevelProps MoreProps.

(** X8.  Every span the index loop records under a key is an occurrence, in
    the text, of one of the candidate strings of the value the dictionary
    holds for that key (the value itself, or a stripped part of it when it
    contains a comma), and lies inside the text. *)
Theorem located_spans_are_occurrences (frames : nat) (d : list (str * str))
    (addr key : str) (l : list span) (sp : span) :
  (key, l) ∈ indices_of frames d addr → sp ∈ l → occurrence_of d addr key sp.
Proof.
  unfold indices_of.
  destruct (build_indices frames addr (str_items d) ([], ∅)) as [st|e] eqn:H.
  - intros Hkl Hsp.
    eapply (build_indices_occurrences frames d addr d ([], ∅));
      [done | | exact H | exact Hkl | exact Hsp].
    by intros k' l' sp' ?%elem_of_nil.
  - by intros ?%elem_of_nil.
Qed.

Lemma located_spans_are_occurrences_witness :
  let d := [(py "road", py "中山路, 解放路")] in
  let addr := py "中山路与解放路" in
  indices_of 1000 d addr = [(py "road", [(0, 3); (4, 7)])]
  ∧ occurrence_of d addr (py "road") (4, 7)
  ∧ slice addr 4 7 = py "解放路".
Proof.
  cbn zeta. split; [vm_compute; reflexivity|]. split; [|reflexivity].
  apply (located_spans_are_occurrences 1000 _ _ _ [(0, 3); (4, 7)]).
  - vm_compute. apply list_elem_of_here.
  - apply list_elem_of_further, list_elem_of_here.
Defined.

(** X9.  A record without [error] comes from a dictionary whose values
    are all strings: a non-dictionary, or a [None], a number, a list or a
    dictionary among the values met by the loop, ends in the [except]
    branch.  On a dictionary of strings the only possible error is the
    [RecursionError] of [find_value], and there is none when [find_value]
    has more frames left than the text has characters. *)
Theorem classify_error_absent_cases (frames : nat) (entities : pyval)
    (original_text : str) :
  let r := classify_elements_to_11_levels frames entities original_text in
  (error r = None → ∃ d, entities = str_dict d)
  ∧ (∀ d, entities = str_dict d → error r = None ∨ error r = Some RecursionError)
  ∧ (∀ d, entities = str_dict d → length original_text < frames → error r = None).
Proof. apply classify_error_of. Qed.

Lemma select_set_together keys indices eligible :
  set_together (select keys indices eligible).
Proof.
  destruct (select_spec keys indices eligible) as (Hmin & Hmax & Hboth & _).
  split; [done|]. intros mn mx Hsel. rewrite Hsel in Hmin, Hmax.
  destruct (Hmin mn eq_refl) as (_ & _ & Hle).
  destruct (Hmax mx eq_refl) as (Hin & He & _). by apply Hle.
Qed.

Lemma nothing_set_together : set_together nothing.
Proof. split; [done | by intros ? ? [=]]. Qed.

(** X10.  For every level the minimum and the maximum span variables are
    either both unset or both set, the minimum starting no later than the
    maximum: the slice [addr[min[0]:max[1]]] never meets a [None]. *)
Theorem level_spans_set_together (indices : index_map) :
  let a := assign indices in
  Forall set_together
    [a_road_direction a; a_roadno a; a_additional_poi a; a_cellno a;
     a_floorno a; a_roomno a].
Proof.
  cbn zeta. unfold assign.
  destruct (poi_min_index indices) as [poi|], (admin_max_index indices) as [admin|].
  1, 2: match goal with
    | |- context [assign_after_poi ?i ?p ?a ?rd ?rn] =>
      destruct (assign_after_poi_fields i p a rd rn) as (_ & _ & Hrd & Hrn & Hadd & Hcell);
      destruct (assign_after_poi_latest i p a rd rn) as (Hfloor & Hroom);
      set (x := assign_after_poi i p a rd rn) in *
    end;
    rewrite Hrd, Hrn, Hfloor, Hroom; rewrite Hcell; rewrite Hadd;
    repeat constructor; apply select_set_together.
  - match goal with
    | |- context [assign_after_admin ?i ?a ?rd ?rn] =>
      destruct (assign_after_admin_fields i a rd rn) as (_ & _ & Hrd & Hrn);
      destruct (assign_after_admin_latest i a rd rn) as (Hadd & Hcell & Hfloor & Hroom);
      set (x := assign_after_admin i a rd rn) in *
    end.
    rewrite Hrd, Hrn, Hfloor, Hroom. rewrite Hcell. rewrite Hadd.
    repeat constructor; apply select_set_together.
  - cbn. repeat constructor; first [apply select_set_together | apply nothing_set_together].
Qed.

(** X11.  When the dictionary has none of the POI keys and none of the
    administrative keys, levels 7 to 11 are empty, whatever house, cell,
    floor or room numbers are located in the text. *)
Theorem no_anchor_no_structure (frames : nat) (d : list (str * str)) (addr : str) :
  (∀ k, k ∈ poi_keys ++ admin_keys → k ∉ map fst d) →
  let r := classify_elements_to_11_levels frames (str_dict d) addr in
  level7 r = [] ∧ level8 r = [] ∧ level9 r = [] ∧ level10 r = [] ∧ level11 r = [].
Proof.
  intros Hkeys. cbn zeta.
  destruct (classify_str_dict frames d addr) as [[_ ->]|[_ ->]]; [|done].
  cbn [level7 level8 level9 level10 level11].
  assert (poi_min_index (indices_of frames d addr) = None) as Hpoi.
  { unfold poi_min_index. rewrite spans_of_absent; [done|].
    intros k Hk. apply Hkeys, elem_of_app. by left. }
  assert (admin_max_index (indices_of frames d addr) = None) as Hadmin.
  { unfold admin_max_index. rewrite spans_of_absent; [done|].
    intros k Hk. apply Hkeys, elem_of_app. by right. }
  unfold assign. rewrite Hpoi, Hadmin. done.
Qed.

Lemma no_anchor_no_structure_witness :
  let d := [(py "road", py "中山路"); (py "roadno", py "8号");
            (py "floorno", py "3楼"); (py "roomno", py "301室")] in
  let r := classify_elements_to_11_levels 1000 (str_dict d) (py "中山路8号3楼301室") in
  (∀ k, k ∈ poi_keys ++ admin_keys → k ∉ map fst d)
  ∧ level5 r = py "中山路" ∧ level6 r = py "8号"
  ∧ level10 r = [] ∧ level11 r = [] ∧ remark r = [].
Proof.
  cbn zeta.
  assert (∀ k, k ∈ poi_keys ++ admin_keys
               → k ∉ map fst [(py "road", py "中山路"); (py "roadno", py "8号");
                              (py "floorno", py "3楼"); (py "roomno", py "301室")]) as Hk.
  { intros k Hk Hin. vm_compute in Hk, Hin.
    repeat (apply elem_of_cons in Hin as [->|Hin];
            [repeat (apply elem_of_cons in Hk as [Hk|Hk]; [discriminate|]);
             by apply elem_of_nil in Hk|]).
    by apply elem_of_nil in Hin. }
  split; [exact Hk|].
  destruct (no_anchor_no_structure 1000 _ (py "中山路8号3楼301室") Hk)
    as (_ & _ & _ & H10 & H11).
  rewrite H10, H11. repeat split; vm_compute; reflexivity.
Defined.

(** X12.  Levels 5 to 11 are always contiguous pieces of the original text
    (possibly empty); only levels 1 to 4 are copied from the dictionary. *)
Theorem levels_are_substrings (frames : nat) (d : list (str * str)) (addr : str) :
  let r := classify_elements_to_11_levels frames (str_dict d) addr in
  Forall (substring_of addr)
    [level5 r; level6 r; level7 r; level8 r; level9 r; level10 r; level11 r].
Proof. apply levels_pieces_of_text. Qed.

End ClassifierExtras.

Section InferenceFacts.
Import Props Decoder Inference MoreProps.

Lemma result_end_bound text r : result_end text r ≤ length text.
Proof. unfold result_end. cbn zeta. lia. Qed.

Lemma result_start_le_end text r : result_start text r ≤ result_end text r.
Proof. unfold result_start, result_end. cbn zeta. lia. Qed.

Lemma write_range (f : nat → str) (tags : list str) (a m : nat) :
  a + m ≤ length tags →
  ∃ tags', foldl (fun tags i => tags ← tags; list_assign tags i (f i))
                 (Some tags) (seq a m) = Some tags'
           ∧ length tags' = length tags
           ∧ ∀ i, tags' !! i
                  = if bool_decide (a ≤ i < a + m) then Some (f i) else tags !! i.
Proof.
  revert a tags. induction m as [|m IH]; intros a tags Hlen.
  - exists tags. split; [done|]. split; [done|]. intros i.
    rewrite bool_decide_eq_false_2; [done | lia].
  - cbn [seq foldl mbind option_bind]. unfold list_assign at 2.
    destruct (a <? length tags) eqn:E; [|apply Nat.ltb_ge in E; lia].
    destruct (IH (S a) (<[a := f a]> tags)) as (tags' & Hf & Hl & Hi).
    { rewrite length_insert. lia. }
    exists tags'. split; [exact Hf|]. split; [by rewrite Hl, length_insert|].
    intros i. rewrite Hi. destruct (decide (i = a)) as [->|Hne].
    + rewrite bool_decide_eq_false_2 by lia. rewrite bool_decide_eq_true_2 by lia.
      apply list_lookup_insert_eq. by apply Nat.ltb_lt.
    + rewrite list_lookup_insert_ne by done.
      destruct (decide (S a ≤ i < S a + m)).
      * by rewrite !bool_decide_eq_true_2 by lia.
      * by rewrite !bool_decide_eq_false_2 by lia.
Qed.

Lemma apply_result_spec text tags r :
  length tags = length text →
  ∃ tags', apply_result text tags r = Some tags'
           ∧ length tags' = length text
           ∧ ∀ i, tags' !! i
                  = if bool_decide (in_range text r i)
                    then Some (span_tag (result_label r) (result_start text r) i)
                    else tags !! i.
Proof.
  intros Hlen. unfold apply_result. cbn zeta.
  pose proof (result_end_bound text r). pose proof (result_start_le_end text r).
  destruct (write_range (span_tag (result_label r) (result_start text r)) tags
              (result_start text r) (result_end text r - result_start text r))
    as (tags' & Hf & Hl & Hi); [lia|].
  exists tags'. split; [exact Hf|]. split; [lia|].
  intros i. rewrite Hi. unfold in_range.
  destruct (decide (result_start text r ≤ i < result_end text r)).
  - by rewrite !bool_decide_eq_true_2 by lia.
  - by rewrite !bool_decide_eq_false_2 by lia.
Qed.

Lemma apply_results_snoc text tags results r :
  apply_results text tags (results ++ [r])
  = tags ← apply_results text tags results;
    match r with Some r => apply_result text tags r | None => Some tags end.
Proof. unfold apply_results. by rewrite foldl_app. Qed.

Lemma apply_results_spec text tags results :
  length tags = length text →
  ∃ tags', apply_results text tags results = Some tags'
           ∧ length tags' = length text
           ∧ (∀ i, (∀ r, Some r ∈ results → ¬ in_range text r i) →
                   tags' !! i = tags !! i)
           ∧ (∀ pre r post i, results = pre ++ Some r :: post → in_range text r i →
                   (∀ r', Some r' ∈ post → ¬ in_range text r' i) →
                   tags' !! i
                   = Some (span_tag (result_label r) (result_start text r) i)).
Proof.
  intros Hlen. induction results as [|x results IH] using rev_ind.
  - exists tags. repeat split; try done.
    intros pre r post i H. by destruct pre.
  - destruct IH as (tags1 & Hf & Hl & Hout & Hin).
    rewrite apply_results_snoc, Hf. cbn [mbind option_bind].
    destruct x as [r|].
    + destruct (apply_result_spec text tags1 r Hl) as (tags2 & Hf2 & Hl2 & Hi2).
      exists tags2. split; [exact Hf2|]. split; [exact Hl2|]. split.
      * intros i Hno. rewrite Hi2. rewrite bool_decide_eq_false_2.
        -- apply Hout. intros r' Hr'. apply Hno, elem_of_app. by left.
        -- apply Hno, elem_of_app. right. apply list_elem_of_here.
      * intros pre r' post i Heq Hr' Hpost. rewrite Hi2.
        destruct post as [|y post _] using rev_ind.
        -- apply app_inj_tail in Heq as [Hpre Hr]. injection Hr as Hr. subst r' pre.
           by rewrite bool_decide_eq_true_2.
        -- rewrite app_comm_cons, app_assoc in Heq.
           apply app_inj_tail in Heq as [-> <-].
           rewrite bool_decide_eq_false_2.
           ++ eapply Hin; [done | done |]. intros r'' H''. apply Hpost, elem_of_app. by left.
           ++ apply Hpost, elem_of_app. right. apply list_elem_of_here.
    + exists tags1. split; [done|]. split; [done|]. split.
      * intros i Hno. apply Hout. intros r' Hr'. apply Hno, elem_of_app. by left.
      * intros pre r' post i Heq Hr' Hpost.
        destruct post as [|y post _] using rev_ind.
        -- apply app_inj_tail in Heq as [_ Hr]. discriminate Hr.
        -- rewrite app_comm_cons, app_assoc in Heq.
           apply app_inj_tail in Heq as [-> <-].
           eapply Hin; [done | done |]. intros r'' H''. apply Hpost, elem_of_app. by left.
Qed.

Lemma process_pipeline_results_unfold text results :
  process_pipeline_results text (Some results)
  = ner_tags ← apply_results text (replicate (length text) (py "O")) results;
    Some (mk_prediction (chars text) ner_tags text).
Proof.
  unfold process_pipeline_results, chars. cbn zeta.
  by rewrite length_map.
Qed.


Lemma flush_idle D : flush (idle D) = D.
Proof. done. Qed.

Lemma step_outside st tok : step st tok (py "O") = idle (flush st).
Proof. done. Qed.

Lemma step_begin st tok b :
  step st tok (py "B-" ++ b) = mk_state (flush st) (Some (py "B-" ++ b)) [tok].
Proof. unfold step. rewrite py_B, py_S. done. Qed.

Lemma step_inside D tg acc tok b :
  tg ≠ [] →
  step (mk_state D (Some tg) acc) tok (py "I-" ++ b) = mk_state D (Some tg) (acc ++ [tok]).
Proof.
  intros Hne. unfold step, is_open. rewrite py_B, py_S, py_I. cbn.
  by rewrite bool_decide_eq_false_2.
Qed.

Lemma flush_begun D b tok acc :
  flush (mk_state D (Some (py "B-" ++ b)) (tok :: acc))
  = add_entity b (join (tok :: acc)) D.
Proof. unfold flush. rewrite py_B. done. Qed.

Lemma decode_outside_run st toks m :
  flush (decode st (zip toks (replicate m (py "O")))) = flush st.
Proof.
  revert st toks. induction m as [|m IH]; intros st toks.
  - by destruct toks.
  - destruct toks as [|tok toks]; [done|].
    cbn [replicate zip zip_with decode foldl]. rewrite step_outside.
    etrans; [apply IH|]. done.
Qed.

Lemma decode_inside_run D tg acc toks b :
  tg ≠ [] →
  decode (mk_state D (Some tg) acc)
         (zip toks (replicate (length toks) (py "I-" ++ b)))
  = mk_state D (Some tg) (acc ++ toks).
Proof.
  intros Hne. revert acc. induction toks as [|tok toks IH]; intros acc.
  - by rewrite app_nil_r.
  - cbn [length replicate zip zip_with decode foldl]. rewrite step_inside by done.
    etrans; [apply IH|]. by rewrite <- app_assoc.
Qed.

Lemma span_tag_first l s :
  opening l = true → span_tag l s s = py "B-" ++ base_label l.
Proof.
  unfold opening, span_tag, base_label, has_prefix. rewrite Nat.eqb_refl.
  intros H. apply negb_true_iff in H.
  apply orb_false_iff in H as [H HS]. apply orb_false_iff in H as [HI HE].
  rewrite HI, HE, HS. rewrite !orb_false_r.
  destruct (startswith l (py "B-")) eqn:E; [|done].
  apply startswith_inv in E as [rest ->]. done.
Qed.

Lemma span_tag_rest l s i : i ≠ s → span_tag l s i = py "I-" ++ base_label l.
Proof. intros H. unfold span_tag. by apply Nat.eqb_neq in H as ->. Qed.

Lemma map_seq_const {A} (f : nat → A) c a m :
  (∀ i, a ≤ i < a + m → f i = c) → map f (seq a m) = replicate m c.
Proof.
  revert a. induction m as [|m IH]; intros a H; [done|].
  cbn [seq map replicate]. rewrite H by lia. f_equal. apply IH. intros i Hi. apply H. lia.
Qed.

Lemma chars_slice text s e :
  take (e - s) (drop s (chars text)) = chars (slice text s e).
Proof. unfold chars, slice. by rewrite <- fmap_drop, <- fmap_take. Qed.

Lemma decode_result text st l s e :
  opening l = true → s < e ≤ length text →
  flush (decode st (zip (chars (slice text s e)) (map (span_tag l s) (seq s (e - s)))))
  = add_entity (base_label l) (slice text s e) (flush st).
Proof.
  intros Hl Hse.
  assert (length (slice text s e) = e - s) as Hlen.
  { unfold slice. rewrite length_take, length_drop. lia. }
  destruct (slice text s e) as [|c rest] eqn:E; [simpl in Hlen; lia|].
  simpl in Hlen. replace (e - s) with (S (length rest)) by lia.
  cbn [seq map chars zip zip_with decode foldl].
  rewrite span_tag_first, step_begin by done.
  rewrite (map_seq_const _ (py "I-" ++ base_label l)).
  2: { intros i Hi. apply span_tag_rest. lia. }
  fold (chars rest). rewrite <- (length_chars rest) at 1.
  etrans; [apply f_equal, decode_inside_run; by rewrite py_B|].
  cbn [app]. rewrite flush_begun. f_equal.
  change ([c] :: chars rest) with (chars (c :: rest)). apply join_chars.
Qed.

Lemma write_range_app (f : nat → str) (A M B : list str) :
  foldl (fun tags i => tags ← tags; list_assign tags i (f i))
        (Some (A ++ M ++ B)) (seq (length A) (length M))
  = Some (A ++ map f (seq (length A) (length M)) ++ B).
Proof.
  destruct (write_range f (A ++ M ++ B) (length A) (length M))
    as (tags' & -> & Hl & Hi).
  { rewrite !length_app. lia. }
  f_equal. apply list_eq. intros i. rewrite Hi.
  destruct (decide (i < length A)) as [H1|H1].
  - rewrite bool_decide_eq_false_2 by lia. by rewrite !lookup_app_l.
  - destruct (decide (i < length A + length M)) as [H2|H2].
    + rewrite bool_decide_eq_true_2 by lia.
      rewrite lookup_app_r by lia.
      rewrite lookup_app_l by (rewrite length_map, length_seq; lia).
      rewrite list_lookup_fmap, lookup_seq_lt by lia. simpl. do 2 f_equal. lia.
    + rewrite bool_decide_eq_false_2 by lia.
      rewrite !(lookup_app_r A) by lia.
      rewrite !lookup_app_r by (rewrite ?length_map, ?length_seq; lia).
      by rewrite length_map, length_seq.
Qed.

Lemma apply_result_fresh text T r :
  length T ≤ result_start text r →
  apply_result text (T ++ replicate (length text - length T) (py "O")) r
  = Some ((T ++ replicate (result_start text r - length T) (py "O")
             ++ map (span_tag (result_label r) (result_start text r))
                    (seq (result_start text r) (result_end text r - result_start text r)))
          ++ replicate (length text - result_end text r) (py "O")).
Proof.
  intros Hk. pose proof (result_end_bound text r) as He.
  pose proof (result_start_le_end text r) as Hse.
  set (s := result_start text r) in *. set (e := result_end text r) in *.
  unfold apply_result. cbn zeta. fold s e.
  replace (length text - length T) with ((s - length T) + ((e - s) + (length text - e))) by lia.
  rewrite !replicate_add. rewrite (app_assoc T).
  pose proof (write_range_app (span_tag (result_label r) s)
                (T ++ replicate (s - length T) (py "O"))
                (replicate (e - s) (py "O"))
                (replicate (length text - e) (py "O"))) as H.
  rewrite length_app, !length_replicate in H.
  replace (length T + (s - length T)) with s in H by lia.
  rewrite H. by rewrite <- !app_assoc.
Qed.

Lemma pipeline_decode text results : ∀ T,
  length T ≤ length text →
  left_to_right text (length T) results = true →
  Forall (fun r => opening (result_label r) = true) results →
  ∃ T', apply_results text (T ++ replicate (length text - length T) (py "O"))
                      (Some <$> results)
        = Some (T' ++ replicate (length text - length T') (py "O"))
        ∧ length T' ≤ length text
        ∧ flush (decode (idle []) (zip (take (length T') (chars text)) T'))
          = foldl (fun D r => add_entity (base_label (result_label r))
                                (slice text (result_start text r) (result_end text r)) D)
                  (flush (decode (idle []) (zip (take (length T) (chars text)) T)))
                  results.
Proof.
  induction results as [|r results IH]; intros T HT Hltr Hop.
  - by exists T.
  - cbn [left_to_right] in Hltr.
    apply andb_true_iff in Hltr as [Hltr Hrest].
    apply andb_true_iff in Hltr as [Hk Hse].
    apply Nat.leb_le in Hk. apply Nat.ltb_lt in Hse.
    inversion Hop as [|? ? Hl Hop']; subst.
    pose proof (result_end_bound text r) as He.
    set (s := result_start text r) in *. set (e := result_end text r) in *.
    set (T1 := T ++ replicate (s - length T) (py "O")
                 ++ map (span_tag (result_label r) s) (seq s (e - s))).
    assert (length T1 = e) as HT1.
    { subst T1. rewrite !length_app, length_replicate, length_map, length_seq. lia. }
    destruct (IH T1) as (T' & Hf & HT' & Hd); [lia | by rewrite HT1 | done |].
    exists T'. split; [|split; [done|]].
    + unfold apply_results in *. cbn [fmap list_fmap foldl mbind option_bind].
      rewrite apply_result_fresh by done. fold s e T1.
      rewrite HT1 in Hf. exact Hf.
    + rewrite Hd. cbn [foldl]. f_equal. rewrite HT1. subst T1. fold s e.
      assert (take e (chars text)
              = take (length T) (chars text)
                ++ take (s - length T) (drop (length T) (chars text))
                ++ take (e - s) (drop s (chars text))) as ->.
      { rewrite app_assoc, take_take_drop.
        replace (length T + (s - length T)) with s by lia.
        rewrite take_take_drop. by replace (s + (e - s)) with e by lia. }
      assert (length (chars text) = length text) as Hc by apply length_chars.
      rewrite zip_with_app by (rewrite length_take; lia).
      rewrite zip_with_app by (rewrite length_take, length_drop, length_replicate; lia).
      rewrite !decode_app, (chars_slice text s e).
      rewrite decode_result by (done || lia).
      by rewrite decode_outside_run.
Qed.

Lemma process_pipeline_results_returns (text : str)
    (results : option (list (option pipeline_result))) :
  ∃ p, process_pipeline_results text results = Some p
       ∧ p_tokens p = chars text
       ∧ length (p_ner_tags p) = length (p_tokens p)
       ∧ p_text p = text.
Proof.
  destruct results as [results|].
  - rewrite process_pipeline_results_unfold.
    destruct (apply_results_spec text (replicate (length text) (py "O")) results)
      as (tags & -> & Hl & _); [apply length_replicate|].
    eexists. split; [reflexivity|]. cbn. by rewrite length_chars.
  - eexists. split; [reflexivity|]. cbn. rewrite length_replicate. done.
Qed.

Lemma labels_of_values (id2label : list (str * str)) (pred_ids : list nat) tags :
  labels_of id2label pred_ids = Some tags →
  Forall (fun tag => tag = py "O" ∨ ∃ k, (k, tag) ∈ id2label) tags.
Proof.
  revert tags. induction pred_ids as [|i ids IH]; intros tags E.
  - injection E as <-. constructor.
  - cbn [labels_of mbind option_bind] in E.
    destruct (if i <? length id2label then _ else _) as [tag|] eqn:Et; [|done].
    cbn in E. destruct (labels_of id2label ids) as [tags'|]; [|done].
    cbn in E. injection E as <-. constructor; [|by apply IH].
    destruct (i <? length id2label).
    + right. eexists. by eapply dict_get_Some_elem.
    + left. by injection Et as <-.
Qed.

Lemma tags_of_predictions_lengths (id2label : list (str * str))
    (pred_ids : list nat) (text : str) :
  length (p_ner_tags (tags_of_predictions id2label pred_ids text))
  = length (p_tokens (tags_of_predictions id2label pred_ids text))
  ∧ p_tokens (tags_of_predictions id2label pred_ids text) = chars text
  ∧ p_text (tags_of_predictions id2label pred_ids text) = text.
Proof.
  unfold tags_of_predictions. cbn zeta.
  destruct (labels_of id2label pred_ids) as [tags|]; cbn [p_ner_tags p_tokens p_text].
  - split; [|done].
    rewrite length_app, length_replicate, length_take, !length_map. lia.
  - split; [by rewrite length_replicate | done].
Qed.

End InferenceFacts.

Section InferenceExtras.
Import Props Decoder Inference MoreProps.

(** X13.  [_process_pipeline_results] never fails with an [IndexError],
    whatever offsets the results carry (negative, past the end, or an end
    before its start): the clamping keeps every write inside the list.  The
    prediction has one token and one tag per character of the text. *)
Theorem process_pipeline_results_aligned (text : str)
    (results : option (list (option pipeline_result))) :
  ∃ p, process_pipeline_results text results = Some p
       ∧ p_tokens p = chars text
       ∧ length (p_ner_tags p) = length (p_tokens p)
       ∧ p_text p = text.
Proof. apply process_pipeline_results_returns. Qed.

(** X14.  The tag at an offset is decided by the last result whose clamped
    range holds the offset: results before it are overwritten there. *)
Theorem pipeline_tag_last_writer (text : str)
    (pre post : list (option pipeline_result)) (r : pipeline_result) (i : nat) :
  in_range text r i →
  (∀ r', Some r' ∈ post → ¬ in_range text r' i) →
  ∃ p, process_pipeline_results text (Some (pre ++ Some r :: post)) = Some p
       ∧ p_ner_tags p !! i
         = Some (span_tag (result_label r) (result_start text r) i).
Proof.
  intros Hr Hpost. rewrite process_pipeline_results_unfold.
  destruct (apply_results_spec text (replicate (length text) (py "O"))
              (pre ++ Some r :: post)) as (tags & -> & _ & _ & Hin);
    [apply length_replicate|].
  eexists. split; [reflexivity|]. cbn. by eapply Hin.
Qed.

Lemma pipeline_tag_last_writer_witness :
  let text := py "广州市天河路" in
  let r1 := mk_pipeline_result (Some 0%Z) None (Some 6%Z) None (Some (py "city")) None None in
  let r2 := mk_pipeline_result None (Some 3%Z) None (Some 99%Z) None None (Some (py "road")) in
  ∃ p, process_pipeline_results text (Some [Some r1; None; Some r2]) = Some p
       ∧ p_ner_tags p !! 4 = Some (py "I-road").
Proof.
  cbn zeta.
  apply (pipeline_tag_last_writer (py "广州市天河路") [_; None] []
           (mk_pipeline_result None (Some 3%Z) None (Some 99%Z) None None (Some (py "road"))) 4).
  - unfold in_range. vm_compute. lia.
  - by intros r' ?%elem_of_nil.
Defined.

(** X15.  An offset of the text that no result holds in its clamped range
    keeps the tag ['O']; so does every offset when the pipeline's answer is
    not a list. *)
Theorem pipeline_tag_untouched (text : str)
    (results : option (list (option pipeline_result))) (i : nat) :
  i < length text →
  (∀ l r, results = Some l → Some r ∈ l → ¬ in_range text r i) →
  ∃ p, process_pipeline_results text results = Some p
       ∧ p_ner_tags p !! i = Some (py "O").
Proof.
  intros Hi Hno. destruct results as [results|].
  - rewrite process_pipeline_results_unfold.
    destruct (apply_results_spec text (replicate (length text) (py "O")) results)
      as (tags & -> & _ & Hout & _); [apply length_replicate|].
    eexists. split; [reflexivity|]. cbn. rewrite Hout by (intros r Hr; by eapply Hno).
    by apply lookup_replicate_2.
  - eexists. split; [reflexivity|]. cbn. rewrite length_map.
    by apply lookup_replicate_2.
Qed.

Lemma pipeline_tag_untouched_witness :
  let text := py "广州市天河路" in
  let r := mk_pipeline_result (Some (-5)%Z) None (Some 3%Z) None (Some (py "city")) None None in
  ∃ p, process_pipeline_results text (Some [Some r]) = Some p
       ∧ p_ner_tags p !! 3 = Some (py "O").
Proof.
  cbn zeta. apply pipeline_tag_untouched.
  - vm_compute. lia.
  - intros l r [= <-] Hr. apply list_elem_of_singleton in Hr. injection Hr as ->.
    unfold in_range. vm_compute. lia.
Defined.

(** X16.  Composition with the decoder.  When the results cover non-empty
    ranges met from left to right, none reaching into the next, and every
    label is bare or starts with ['B-'], decoding the prediction gives each
    result's piece of the text under its label, in order: no closing tag
    ['E-'] is needed. *)
Theorem pipeline_entities_decoded (text : str) (results : list pipeline_result) :
  left_to_right text 0 results = true →
  Forall (fun r => opening (result_label r) = true) results →
  ∃ p, process_pipeline_results text (Some (Some <$> results)) = Some p
       ∧ extract_entities_from_tokens (p_tokens p) (p_ner_tags p)
         = foldl (fun D r => add_entity (base_label (result_label r))
                               (slice text (result_start text r) (result_end text r)) D)
                 [] results.
Proof.
  intros Hltr Hop. rewrite process_pipeline_results_unfold.
  destruct (pipeline_decode text results []) as (T' & Hf & HT' & Hd);
    [simpl; lia | done | done |].
  cbn [app length] in Hf. rewrite Nat.sub_0_r in Hf. rewrite Hf.
  eexists. split; [reflexivity|]. cbn [p_tokens p_ner_tags].
  unfold extract_entities_from_tokens. fold (idle []).
  change (foldl _ (idle []) ?l) with (decode (idle []) l).
  rewrite <- (take_drop (length T') (chars text)).
  rewrite zip_with_app by (rewrite length_take, length_chars; lia).
  rewrite decode_app, decode_outside_run. exact Hd.
Qed.

Lemma pipeline_entities_decoded_witness :
  let text := py "广州市天河路" in
  let r1 := mk_pipeline_result (Some 0%Z) None (Some 3%Z) None (Some (py "city")) None None in
  let r2 := mk_pipeline_result (Some 3%Z) None None None None (Some (py "B-road")) None in
  ∃ p, process_pipeline_results text (Some [Some r1; Some r2]) = Some p
       ∧ extract_entities_from_tokens (p_tokens p) (p_ner_tags p)
         = [(py "city", [py "广州市"]); (py "road", [py "天河路"])].
Proof.
  cbn zeta.
  apply (pipeline_entities_decoded (py "广州市天河路")
           [mk_pipeline_result (Some 0%Z) None (Some 3%Z) None (Some (py "city")) None None;
            mk_pipeline_result (Some 3%Z) None None None None (Some (py "B-road")) None]).
  - vm_compute. reflexivity.
  - repeat constructor.
Defined.

(** X17.  [_predict_with_model] always gives one tag per character, and
    each tag is ['O'] or a value of [id2label], whether the model gave too
    few ids, too many, or an id missing from [id2label]. *)
Theorem tags_of_predictions_aligned (id2label : list (str * str))
    (pred_ids : list nat) (text : str) :
  let p := tags_of_predictions id2label pred_ids text in
  length (p_ner_tags p) = length (p_tokens p)
  ∧ p_tokens p = chars text
  ∧ Forall (fun tag => tag = py "O" ∨ ∃ k, (k, tag) ∈ id2label) (p_ner_tags p).
Proof.
  cbn zeta. destruct (tags_of_predictions_lengths id2label pred_ids text) as (H1 & H2 & _).
  split; [done|]. split; [done|].
  unfold tags_of_predictions. cbn zeta.
  destruct (labels_of id2label pred_ids) as [tags|] eqn:E; cbn [p_ner_tags].
  - apply Forall_app. split.
    + apply Forall_take. by eapply labels_of_values.
    + apply Forall_replicate. by left.
  - apply Forall_replicate. by left.
Qed.

End InferenceExtras.

(** * The label list and the batch client *)

Section LabelFacts.
Import Labels.

Lemma str_leb_total a b : str_leb a b = true ∨ str_leb b a = true.
Proof.
  revert b. induction a as [|x a IH]; intros [|y b]; cbn; auto.
  destruct (N.compare_spec x y) as [->|Hlt|Hgt].
  - rewrite N.ltb_irrefl, N.eqb_refl. cbn. apply IH.
  - left. apply N.ltb_lt in Hlt as ->. done.
  - right. apply N.ltb_lt in Hgt as ->. done.
Qed.

Lemma str_leb_trans a b c :
  str_leb a b = true → str_leb b c = true → str_leb a c = true.
Proof.
  revert b c. induction a as [|x a IH]; intros [|y b] [|z c]; cbn; try done.
  intros H1 H2.
  apply orb_true_iff in H1 as [H1|[H1 H1']%andb_true_iff];
    apply orb_true_iff in H2 as [H2|[H2 H2']%andb_true_iff].
  - apply N.ltb_lt in H1, H2. apply orb_true_iff. left. apply N.ltb_lt. lia.
  - apply N.eqb_eq in H2 as <-. by rewrite H1.
  - apply N.eqb_eq in H1 as ->. by rewrite H2.
  - apply N.eqb_eq in H1 as ->. rewrite H2. cbn. rewrite (IH b c) by done.
    apply orb_true_r.
Qed.

Lemma str_leb_antisym a b : str_leb a b = true → str_leb b a = true → a = b.
Proof.
  revert b. induction a as [|x a IH]; intros [|y b]; cbn; try done.
  intros H1 H2.
  apply orb_true_iff in H1 as [H1|[H1 H1']%andb_true_iff];
    apply orb_true_iff in H2 as [H2|[H2 H2']%andb_true_iff].
  - apply N.ltb_lt in H1, H2. lia.
  - apply N.ltb_lt in H1. apply N.eqb_eq in H2. lia.
  - apply N.ltb_lt in H2. apply N.eqb_eq in H1. lia.
  - apply N.eqb_eq in H1 as ->. f_equal. by apply IH.
Qed.

Lemma elem_of_label_union (labels : list (list str)) (S : gset str) (x : str) :
  x ∈ foldl (fun unique_labels label => unique_labels ∪ list_to_set label) S labels
  ↔ x ∈ S ∨ ∃ label, label ∈ labels ∧ x ∈ label.
Proof.
  revert S. induction labels as [|l labels IH]; intros S; cbn [foldl].
  - split; [by left|]. intros [H|(l & Hl & _)]; [done|]. by apply elem_of_nil in Hl.
  - rewrite IH, elem_of_union, elem_of_list_to_set. split.
    + intros [[H|H]|(l' & Hl' & Hx)]; [by left | |].
      * right. exists l. split; [apply list_elem_of_here | done].
      * right. exists l'. split; [by apply list_elem_of_further | done].
    + intros [H|(l' & Hl' & Hx)]; [by left; left|].
      apply elem_of_cons in Hl' as [->|Hl']; [by left; right|].
      right. by exists l'.
Qed.

Lemma sorted_nodup_unique (l k : list str) :
  StronglySorted str_le l → StronglySorted str_le k → NoDup l → NoDup k →
  (∀ x, x ∈ l ↔ x ∈ k) → l = k.
Proof.
  revert k. induction l as [|a l IH]; intros k Hl Hk Nl Nk Hiff.
  - destruct k as [|b k]; [done|].
    exfalso. eapply not_elem_of_nil, Hiff, list_elem_of_here.
  - destruct k as [|b k].
    { exfalso. eapply not_elem_of_nil, Hiff, list_elem_of_here. }
    apply StronglySorted_inv in Hl as [Hl Ha]. apply StronglySorted_inv in Hk as [Hk Hb].
    apply NoDup_cons in Nl as [Hal Nl]. apply NoDup_cons in Nk as [Hbk Nk].
    rewrite Forall_forall in Ha, Hb.
    assert (a = b) as ->.
    { pose proof (proj1 (Hiff a) (list_elem_of_here _ _)) as H1.
      pose proof (proj2 (Hiff b) (list_elem_of_here _ _)) as H2.
      apply elem_of_cons in H1 as [H1|H1]; [done|].
      apply elem_of_cons in H2 as [H2|H2]; [done|].
      apply str_leb_antisym.
      - by apply Ha.
      - by apply Hb. }
    f_equal. apply IH; try done. intros x. split; intros Hx.
    + pose proof (proj1 (Hiff x) (list_elem_of_further _ _ _ Hx)) as H'.
      apply elem_of_cons in H' as [->|H']; done.
    + pose proof (proj2 (Hiff x) (list_elem_of_further _ _ _ Hx)) as H'.
      apply elem_of_cons in H' as [->|H']; done.
Qed.

End LabelFacts.

#[global] Instance str_le_total : Total Labels.str_le.
Proof. intros a b. apply str_leb_total. Qed.

#[global] Instance str_le_trans : Transitive Labels.str_le.
Proof. intros a b c. apply str_leb_trans. Qed.

Section LabelExtras.
Import Labels.

(** X18.  The label list holds exactly the tags that occur in some example,
    each once, in ascending order of code points; these three facts
    determine the list, whatever order the set is enumerated in. *)
Theorem get_label_list_sorted_set (labels : list (list str)) :
  let label_list := get_label_list labels in
  StronglySorted str_le label_list
  ∧ NoDup label_list
  ∧ (∀ x, x ∈ label_list ↔ ∃ label, label ∈ labels ∧ x ∈ label)
  ∧ (∀ l, StronglySorted str_le l → NoDup l →
          (∀ x, x ∈ l ↔ ∃ label, label ∈ labels ∧ x ∈ label) → l = label_list).
Proof.
  cbn zeta. unfold get_label_list. cbn zeta.
  set (U := foldl _ _ labels).
  assert (StronglySorted str_le (merge_sort str_le (elements U))) as Hs.
  { apply (StronglySorted_merge_sort str_le). }
  assert (NoDup (merge_sort str_le (elements U))) as Hn.
  { rewrite merge_sort_Permutation. apply NoDup_elements. }
  assert (∀ x, x ∈ merge_sort str_le (elements U)
               ↔ ∃ label, label ∈ labels ∧ x ∈ label) as Hm.
  { intros x. rewrite merge_sort_Permutation, elem_of_elements. subst U.
    rewrite elem_of_label_union. split; [|by right].
    intros [H|H]; [|done]. by apply elem_of_empty in H. }
  repeat split; try done; try apply Hm.
  intros l Hl Nl Hiff. apply sorted_nodup_unique; try done.
  intros x. by rewrite Hiff, Hm.
Qed.

End LabelExtras.

Section ClientFacts.
Import Client MoreProps.

(** The loop of [ordered_unique], with its two locals. *)
Lemma ordered_unique_state (urls : list str) :
  ∃ ordered seen,
    foldl (fun '(ordered, seen) u =>
             if bool_decide (u ∈ (seen : gset str)) then (ordered, seen)
             else (ordered ++ [u], seen ∪ {[u]}))
          ([], ∅) urls = (ordered, seen)
    ∧ (∀ u, u ∈ seen ↔ u ∈ urls)
    ∧ (∀ u, u ∈ ordered ↔ u ∈ urls)
    ∧ NoDup ordered
    ∧ sublist ordered urls
    ∧ head ordered = head urls.
Proof.
  induction urls as [|u urls IH] using rev_ind.
  - exists [], ∅. repeat split; try done; try constructor.
    all: intros H; first [by apply elem_of_empty in H | by apply elem_of_nil in H].
  - destruct IH as (ordered & seen & Hf & Hseen & Hord & Hnd & Hsub & Hhd).
    rewrite foldl_app, Hf. cbn [foldl].
    destruct (decide (u ∈ seen)) as [Hin|Hnin].
    + rewrite bool_decide_eq_true_2 by done. exists ordered, seen.
      split; [done|]. repeat split.
      * intros H. apply elem_of_app. left. by apply Hseen.
      * intros [H|H%list_elem_of_singleton]%elem_of_app; [by apply Hseen | by subst].
      * intros H. apply elem_of_app. left. by apply Hord.
      * intros [H|H%list_elem_of_singleton]%elem_of_app; [by apply Hord|].
        subst. by apply Hord, Hseen.
      * done.
      * by apply sublist_inserts_r.
      * rewrite Hhd. destruct urls; [|done].
        exfalso. by eapply not_elem_of_nil, Hseen.
    + rewrite bool_decide_eq_false_2 by done. exists (ordered ++ [u]), (seen ∪ {[u]}).
      split; [done|]. repeat split.
      * intros [H|H%elem_of_singleton]%elem_of_union; apply elem_of_app;
          [left; by apply Hseen | right; subst; apply list_elem_of_here].
      * intros [H|H%list_elem_of_singleton]%elem_of_app; apply elem_of_union;
          [left; by apply Hseen | right; by apply elem_of_singleton].
      * intros [H|H]%elem_of_app; apply elem_of_app; [left; by apply Hord | by right].
      * intros [H|H]%elem_of_app; apply elem_of_app; [left; by apply Hord | by right].
      * apply NoDup_app. split; [done|]. split; [|apply NoDup_singleton].
        intros x Hx ->%list_elem_of_singleton. by apply Hnin, Hseen, Hord.
      * by apply sublist_app.
      * destruct urls as [|v urls].
        -- destruct ordered as [|o ordered]; [done|].
           exfalso. eapply not_elem_of_nil, Hord, list_elem_of_here.
        -- destruct ordered as [|o ordered]; [done|]. exact Hhd.
Qed.

Lemma elem_of_given (u : str) (x : option str) : u ∈ given x ↔ x = Some u ∧ u ≠ [].
Proof.
  destruct x as [[|c s]|]; cbn.
  - split; [by intros ?%elem_of_nil | by intros [[= <-] ?]].
  - rewrite list_elem_of_singleton. split; [by intros -> | by intros [[= <-] _]].
  - split; [by intros ?%elem_of_nil | by intros [? _]].
Qed.

Lemma try_urls_spec {W R} (mgeo_post : str → W → reply R * W) urls calls w :
  ∃ asked,
    asked `prefix_of` urls
    ∧ (try_urls mgeo_post urls calls w).1.2 = calls ++ (request_all mgeo_post asked w).1
    ∧ (try_urls mgeo_post urls calls w).2 = (request_all mgeo_post asked w).2
    ∧ match (try_urls mgeo_post urls calls w).1.1 with
      | Some r => ∃ failed u, (request_all mgeo_post asked w).1 = failed ++ [(u, Response r)]
                              ∧ Forall (fun c => is_response c.2 = false) failed
      | None => asked = urls
                ∧ Forall (fun c => is_response c.2 = false) (request_all mgeo_post asked w).1
      end.
Proof.
  revert calls w. induction urls as [|u urls IH]; intros calls w.
  - exists []. cbn. rewrite app_nil_r. repeat split; try done. 
  - cbn [try_urls]. destruct (mgeo_post u w) as [resp w1] eqn:E.
    destruct resp as [r| |].
    + exists [u]. cbn. rewrite E. cbn. repeat split; try done.
      * by apply prefix_cons, prefix_nil.
      * exists [], u. split; [done | constructor].
    + destruct (IH (calls ++ [(u, NoResponse)]) w1) as (asked & Hp & Hc & Hw & Hr).
      exists (u :: asked). cbn [request_all]. rewrite E.
      destruct (request_all mgeo_post asked w1) as [cs w2] eqn:Er. cbn [fst snd] in *.
      split; [by apply prefix_cons|]. split; [by rewrite Hc, <- app_assoc|].
      split; [done|].
      destruct (try_urls mgeo_post urls (calls ++ [(u, NoResponse)]) w1).1.1 as [r|].
      * destruct Hr as (failed & u' & -> & Hf). exists ((u, NoResponse) :: failed), u'.
        split; [done|]. by constructor.
      * destruct Hr as [-> Hf]. split; [done|]. by constructor.
    + destruct (IH (calls ++ [(u, Raised)]) w1) as (asked & Hp & Hc & Hw & Hr).
      exists (u :: asked). cbn [request_all]. rewrite E.
      destruct (request_all mgeo_post asked w1) as [cs w2] eqn:Er. cbn [fst snd] in *.
      split; [by apply prefix_cons|]. split; [by rewrite Hc, <- app_assoc|].
      split; [done|].
      destruct (try_urls mgeo_post urls (calls ++ [(u, Raised)]) w1).1.1 as [r|].
      * destruct Hr as (failed & u' & -> & Hf). exists ((u, Raised) :: failed), u'.
        split; [done|]. by constructor.
      * destruct Hr as [-> Hf]. split; [done|]. by constructor.
Qed.

Lemma request_lines_spec {W R} (loads : str → parsed) (truthy encodable : R → bool)
    (mgeo_post : option (str → str → W → reply R * W)) (urls : list str)
    (limit : option Z) (lines : list str) :
  (∀ r, encodable r = true) →
  ∀ line_num st out w,
  readable loads lines →
  ∃ st' new w',
    request_lines loads truthy encodable mgeo_post urls limit line_num lines st out w
    = Some (st', out ++ new, w')
    ∧ total st' = total st + length new
    ∧ requests_success st'
      = requests_success st + length (filter (fun rec => w_error rec = false) new)
    ∧ requests_failed st'
      = requests_failed st + length (filter (fun rec => w_error rec = true) new)
    ∧ Forall (fun rec => line_num ≤ w_line_num rec < line_num + length lines) new
    ∧ StronglySorted lt (w_line_num <$> new)
    ∧ Forall (fun rec => w_error rec = false → is_Some (w_mgeo_response rec)) new
    ∧ (∀ l, limit = Some l → (0 < l)%Z → (Z.of_nat (total st) ≤ l)%Z →
            (Z.of_nat (total st') ≤ l)%Z).
Proof.
  intros Hall. induction lines as [|line lines IH]; intros line_num st out w Hread.
  - exists st, [], w. cbn. rewrite app_nil_r.
    repeat split; try done; try lia; constructor.
  - cbn [request_lines].
    destruct (limit_reached limit st) eqn:Elim.
    { exists st, [], w. cbn. rewrite app_nil_r.
      repeat split; try done; try lia; constructor. }
    apply Forall_cons in Hread as [Hline Hread].
    assert (∀ l, limit = Some l → (0 < l)%Z → (Z.of_nat (S (total st)) ≤ l)%Z) as Hroom.
    { intros l -> Hl. cbn in Elim. apply andb_false_iff in Elim as [E|E].
      - apply negb_false_iff, Z.eqb_eq in E. lia.
      - apply Z.leb_gt in E. lia. }
    assert (∀ (rec : written R) st1,
              total st1 = S (total st) →
              requests_success st1
              = requests_success st + (if w_error rec then 0 else 1) →
              requests_failed st1
              = requests_failed st + (if w_error rec then 1 else 0) →
              w_line_num rec = line_num →
              (w_error rec = false → is_Some (w_mgeo_response rec)) →
              ∀ w1, ∃ st' new w',
                request_lines loads truthy encodable mgeo_post urls limit (S line_num)
                  lines st1 (out ++ [rec]) w1 = Some (st', out ++ new, w')
                ∧ total st' = total st + length new
                ∧ requests_success st'
                  = requests_success st + length (filter (fun rec => w_error rec = false) new)
                ∧ requests_failed st'
                  = requests_failed st + length (filter (fun rec => w_error rec = true) new)
                ∧ Forall (fun rec => line_num ≤ w_line_num rec
                                     < line_num + length (line :: lines)) new
                ∧ StronglySorted lt (w_line_num <$> new)
                ∧ Forall (fun rec => w_error rec = false → is_Some (w_mgeo_response rec)) new
                ∧ (∀ l, limit = Some l → (0 < l)%Z → (Z.of_nat (total st) ≤ l)%Z →
                        (Z.of_nat (total st') ≤ l)%Z)) as Hstep.
    { intros rec st1 Ht Hs Hf Hn Hresp w1.
      destruct (IH (S line_num) st1 (out ++ [rec]) w1 Hread)
        as (st' & new & w' & Hrun & Ht' & Hs' & Hf' & Hnum & Hsort & Hok & Hlim).
      exists st', (rec :: new), w'. rewrite <- app_assoc in Hrun.
      split; [exact Hrun|]. cbn [length].
      split; [lia|].
      split.
      { rewrite filter_cons. destruct (w_error rec) eqn:Ee.
        - rewrite decide_False by done. lia.
        - rewrite decide_True by done. cbn [length]. lia. }
      split.
      { rewrite filter_cons. destruct (w_error rec) eqn:Ee.
        - rewrite decide_True by done. cbn [length]. lia.
        - rewrite decide_False by done. lia. }
      split.
      { constructor; [lia|]. eapply Forall_impl; [exact Hnum|]. cbn. intros; lia. }
      split.
      { cbn [fmap list_fmap]. constructor; [exact Hsort|].
        apply Forall_fmap. eapply Forall_impl; [exact Hnum|]. cbn. intros; lia. }
      split; [by constructor|].
      intros l Hl Hpos _. apply (Hlim l Hl Hpos). rewrite Ht. by apply Hroom. }
    destruct (strip line) as [|c rest] eqn:Es.
    { destruct (IH (S line_num) st out w Hread)
        as (st' & new & w' & Hrun & Ht' & Hs' & Hf' & Hnum & Hsort & Hok & Hlim).
      exists st', new, w'. repeat split; try done.
      eapply Forall_impl; [exact Hnum|]. cbn. intros; lia. }
    cbn [total requests_success requests_failed].
    destruct Hline as [Hline|Hline]; [done|].
    destruct (loads (c :: rest)) as [| |address entities_encodable] eqn:El; [|done|].
    + rewrite Hline. apply Hstep; cbn; try done; lia.
    + destruct Hline as [Haddr ->].
      destruct (post_with_fallback mgeo_post address urls w) as [[resp calls] w1].
      unfold record_encodable. rewrite Haddr.
      destruct resp as [r|]; cbn [truth negb andb]; rewrite ?Hall.
      * destruct (truthy r) eqn:Etr; apply Hstep; cbn; try done; lia.
      * apply Hstep; cbn; try done; lia.
Qed.

Lemma request_lines_unreadable {W R} (loads : str → parsed) (truthy encodable : R → bool)
    (mgeo_post : option (str → str → W → reply R * W)) (urls : list str)
    (limit : option Z) (pre : list str) (line : str) (post : list str) :
  (∀ st, limit_reached limit st = false) →
  strip line ≠ [] → loads (strip line) = NotADict →
  ∀ line_num st out w,
    request_lines loads truthy encodable mgeo_post urls limit line_num
      (pre ++ line :: post) st out w
    = None.
Proof.
  intros Hlim Hne Hl. induction pre as [|p pre IH]; intros line_num st out w.
  - cbn [app request_lines]. rewrite Hlim.
    destruct (strip line) as [|c rest]; [done|]. by rewrite Hl.
  - cbn [app request_lines]. rewrite Hlim.
    destruct (strip p) as [|c rest]; [apply IH|].
    destruct (loads (c :: rest)); [by destruct (has_surrogate _) | done |].
    destruct (post_with_fallback mgeo_post address urls w) as [[resp calls] w1].
    by destruct (record_encodable _ _ _ _).
Qed.

End ClientFacts.

Section ClientExtras.
Import Client MoreProps.

(** X19.  The candidate list never repeats a URL and always holds the
    default URL; it holds nothing but the command-line URL, the
    environment's URL and the default; they come in this order of priority,
    an empty URL counting as absent. *)
Theorem resolve_mgeo_url_candidates (cli_url env_url : option str) :
  let urls := resolve_mgeo_url cli_url env_url in
  NoDup urls
  ∧ (∀ u, u ∈ urls ↔ (cli_url = Some u ∧ u ≠ []) ∨ (env_url = Some u ∧ u ≠ [])
                      ∨ u = default_url)
  ∧ sublist urls (given cli_url ++ given env_url ++ [default_url])
  ∧ head urls = head (given cli_url ++ given env_url ++ [default_url]).
Proof.
  cbn zeta. unfold resolve_mgeo_url, ordered_unique.
  destruct (ordered_unique_state (given cli_url ++ given env_url ++ [default_url]))
    as (ordered & seen & -> & _ & Hord & Hnd & Hsub & Hhd).
  cbn [fst]. repeat split; try done.
  - intros H%Hord. rewrite !elem_of_app, !elem_of_given, list_elem_of_singleton in H.
    tauto.
  - intros H. apply Hord. rewrite !elem_of_app, !elem_of_given, list_elem_of_singleton.
    tauto.
Qed.

(** X20.  [post_with_fallback] requests the candidate URLs in order and
    stops at the first one that answers: the requests made are those of a
    prefix of the list, each but the last got no response or raised, and the
    value returned is the last reply.  It returns [None] only after every
    URL failed, or, with no request at all, when the client is missing. *)
Theorem post_with_fallback_first_response {W D R}
    (mgeo_post : option (D → str → W → reply R * W)) (data : D)
    (candidate_urls : list str) (w : W) :
  let '(resp, calls, w') := post_with_fallback mgeo_post data candidate_urls w in
  match mgeo_post with
  | None => resp = None ∧ calls = [] ∧ w' = w
  | Some post =>
    ∃ asked, asked `prefix_of` candidate_urls
             ∧ (calls, w') = request_all (post data) asked w
             ∧ match resp with
               | Some r => ∃ failed u, calls = failed ++ [(u, Response r)]
                                       ∧ Forall (fun c => is_response c.2 = false) failed
               | None => asked = candidate_urls
                         ∧ Forall (fun c => is_response c.2 = false) calls
               end
  end.
Proof.
  destruct mgeo_post as [post|]; cbn [post_with_fallback]; [|done].
  destruct (try_urls_spec (post data) candidate_urls [] w) as (asked & Hp & Hc & Hw & Hr).
  destruct (try_urls (post data) candidate_urls [] w) as [[resp calls] w'].
  cbn [fst snd app] in *. exists asked. split; [done|].
  destruct (request_all (post data) asked w) as [cs w2]. cbn [fst snd] in *.
  subst. done.
Qed.

(** X21.  When no line of the input holds JSON that is valid but not an
    object, and no record to write holds a surrogate (neither the lines
    that are not JSON, nor the addresses and entities of the objects, nor
    the responses of the service), the batch loop ends normally and its
    statistics agree with the response file: one record per counted line,
    [requests_success] the records without an error (each of them carries a
    response), [requests_failed] the others; the records carry increasing
    line numbers of the input; a positive [limit] bounds the number of
    counted lines. *)
Theorem batch_statistics {W R} (loads : str → parsed) (truthy encodable : R → bool)
    (mgeo_post : option (str → str → W → reply R * W))
    (lines : list str) (mgeo_url env_url : option str) (limit : option Z) (w : W) :
  readable loads lines →
  (∀ r, encodable r = true) →
  ∃ st out w',
    batch_request_mgeo loads truthy encodable mgeo_post lines mgeo_url env_url limit w
    = Some (st, out, w')
    ∧ total st = length out
    ∧ requests_success st = length (filter (fun rec => w_error rec = false) out)
    ∧ requests_failed st = length (filter (fun rec => w_error rec = true) out)
    ∧ requests_success st + requests_failed st = total st
    ∧ Forall (fun rec => w_error rec = false → is_Some (w_mgeo_response rec)) out
    ∧ StronglySorted lt (w_line_num <$> out)
    ∧ Forall (fun rec => 1 ≤ w_line_num rec ≤ length lines) out
    ∧ (∀ l, limit = Some l → (0 < l)%Z → (Z.of_nat (total st) ≤ l)%Z).
Proof.
  intros Hread Hall. unfold batch_request_mgeo.
  destruct (request_lines_spec loads truthy encodable mgeo_post
              (resolve_mgeo_url mgeo_url env_url) limit lines Hall 1 (mk_stats 0 0 0) [] w
              Hread)
    as (st & out & w' & Hrun & Ht & Hs & Hf & Hnum & Hsort & Hok & Hlim).
  cbn [app total requests_success requests_failed] in *.
  exists st, out, w'. split; [exact Hrun|].
  split; [lia|]. split; [lia|]. split; [lia|]. split.
  { rewrite Hs, Hf, Ht. clear. induction out as [|rec out IH]; [done|].
    rewrite !filter_cons. destruct (w_error rec).
    - rewrite decide_False, decide_True by done. cbn [length]. lia.
    - rewrite decide_True, decide_False by done. cbn [length]. lia. }
  split; [done|]. split; [done|]. split.
  { eapply Forall_impl; [exact Hnum|]. cbn. intros; lia. }
  intros l Hl Hpos. apply (Hlim l Hl Hpos). lia.
Qed.

Lemma batch_statistics_witness :
  let loads := fun line : str =>
    if bool_decide (line = py "{}") then Record_ [] true else ParseError in
  let mgeo_post := fun (address url : str) (w : nat) =>
    (if Nat.even w then NoResponse else Response w, S w) in
  let lines := [py "{}"; py " "; py "oops"; py "{}"; py "{}"] in
  ∃ st out w',
    batch_request_mgeo loads Nat.even (fun _ => true) (Some mgeo_post) lines None None
      (Some 3%Z) 1
    = Some (st, out, w')
    ∧ total st = length out
    ∧ requests_success st = length (filter (fun rec => w_error rec = false) out)
    ∧ requests_failed st = length (filter (fun rec => w_error rec = true) out)
    ∧ requests_success st + requests_failed st = total st
    ∧ Forall (fun rec => w_error rec = false → is_Some (w_mgeo_response rec)) out
    ∧ StronglySorted lt (w_line_num <$> out)
    ∧ Forall (fun rec => 1 ≤ w_line_num rec ≤ length lines) out
    ∧ (∀ l, Some 3%Z = Some l → (0 < l)%Z → (Z.of_nat (total st) ≤ l)%Z).
Proof.
  cbn zeta. apply batch_statistics; [|done].
  unfold readable. repeat (apply Forall_cons; split); [..|apply Forall_nil].
  all: first [ exact I
             | left; vm_compute; reflexivity
             | right; vm_compute; split; reflexivity
             | right; vm_compute; reflexivity ].
Defined.

(** A record that cannot be encoded ends the batch: an object whose address
    holds a surrogate makes the write of line 140 raise, whatever the
    service answered. *)
Example batch_aborts_on_surrogate :
  let loads := fun line : str => Record_ [55357%N] true in
  let mgeo_post := fun (address url : str) (w : nat) => (Response w, S w) in
  batch_request_mgeo loads Nat.even (fun _ => true) (Some mgeo_post) [py "{}"]
    None None None 0 = None.
Proof. vm_compute. reflexivity. Qed.

(** X22.  With no limit, one non-blank line holding JSON that is valid but
    not an object (a number, a string, a list, [null]) ends the whole batch
    with an uncaught exception (that of [data.get], unless an earlier
    record could not be written), whatever came before it: the final
    statistics are never printed. *)
Theorem batch_aborts_on_non_object {W R} (loads : str → parsed)
    (truthy encodable : R → bool)
    (mgeo_post : option (str → str → W → reply R * W))
    (pre : list str) (line : str) (post : list str)
    (mgeo_url env_url : option str) (limit : option Z) (w : W) :
  limit = None ∨ limit = Some 0%Z →
  strip line ≠ [] → loads (strip line) = NotADict →
  batch_request_mgeo loads truthy encodable mgeo_post (pre ++ line :: post)
    mgeo_url env_url limit w
  = None.
Proof.
  intros Hlim Hne Hl. unfold batch_request_mgeo.
  apply request_lines_unreadable; try done.
  intros st. by destruct Hlim as [-> | ->].
Qed.

Lemma batch_aborts_on_non_object_witness :
  let loads := fun line : str =>
    if bool_decide (line = py "[1]") then NotADict else Record_ line true in
  let mgeo_post := fun (address url : str) (w : nat) => (Response w, S w) in
  batch_request_mgeo loads Nat.even (fun _ => true) (Some mgeo_post)
    ([py "a"; py "b"] ++ py " [1] " :: [py "c"]) None None None 0 = None.
Proof.
  cbn zeta. apply batch_aborts_on_non_object.
  - by left.
  - vm_compute. discriminate.
  - vm_compute. reflexivity.
Defined.

End ClientExtras.

(** * Predictions: the label mapping and the choice of the predictor *)

Section PredictFacts.
Import Props Inference MoreProps.

Lemma str_of_nat_inj i j : str_of_nat i = str_of_nat j → i = j.
Proof.
  unfold str_of_nat. intros H.
  apply (f_equal (map ascii_of_N)) in H. rewrite !map_map in H.
  assert (∀ l, map (fun x => ascii_of_N (N_of_ascii x)) l = l) as Hid.
  { intros l. rewrite <- (map_id l) at 2. apply map_ext. apply ascii_N_embedding. }
  rewrite !Hid in H.
  apply (f_equal string_of_list_ascii) in H.
  rewrite !string_of_list_ascii_of_string in H.
  apply (f_equal NilEmpty.uint_of_string) in H. rewrite !NilEmpty.usu in H.
  injection H as H. apply (f_equal Nat.of_uint) in H.
  by rewrite !DecimalNat.Unsigned.of_to in H.
Qed.

Lemma dict_get_label_mapping_from (labels : list str) (k i : nat) :
  dict_get (str_of_nat (k + i))
           (imap (fun n label => (str_of_nat (k + n), label)) labels)
  = labels !! i.
Proof.
  revert k i. induction labels as [|l labels IH]; intros k i; [done|].
  cbn [imap dict_get]. destruct i as [|i].
  - by rewrite decide_True.
  - rewrite decide_False by (intros H%str_of_nat_inj; lia).
    change ((l :: labels) !! S i) with (labels !! i). rewrite <- (IH (S k) i).
    replace (k + S i) with (S k + i) by lia. f_equal.
    apply imap_ext. intros n x _. unfold compose.
    by replace (k + S n) with (S k + n) by lia.
Qed.

Lemma dict_get_label_mapping (labels : list str) (i : nat) :
  dict_get (str_of_nat i) (label_mapping labels) = labels !! i.
Proof. apply (dict_get_label_mapping_from labels 0 i). Qed.

Lemma labels_of_label_mapping (labels : list str) (pred_ids : list nat) :
  labels_of (label_mapping labels) pred_ids
  = Some (map (fun i => default (py "O") (labels !! i)) pred_ids).
Proof.
  induction pred_ids as [|i ids IH]; [done|].
  cbn [labels_of map]. rewrite IH. unfold label_mapping at 1. rewrite length_imap.
  destruct (i <? length labels) eqn:E.
  - apply Nat.ltb_lt in E. rewrite dict_get_label_mapping.
    destruct (lookup_lt_is_Some_2 labels i E) as [l ->]. done.
  - apply Nat.ltb_ge in E. by rewrite (lookup_ge_None_2 labels i E).
Qed.

Lemma predict_with_model_aligned self text p :
  predict_with_model self text = Some p →
  p_tokens p = chars text ∧ length (p_ner_tags p) = length (p_tokens p) ∧ p_text p = text.
Proof.
  unfold predict_with_model. destruct (model self) as [m|]; [|done].
  destruct (m text) as [ids|]; intros [= <-].
  - destruct (tags_of_predictions_lengths (id2label self) ids text) as (H1 & H2 & H3).
    done.
  - cbn. by rewrite length_replicate.
Qed.

Lemma process_pipeline_results_some text results p :
  process_pipeline_results text results = Some p →
  p_tokens p = chars text ∧ length (p_ner_tags p) = length (p_tokens p) ∧ p_text p = text.
Proof.
  destruct (process_pipeline_results_returns text results) as (p' & -> & H).
  by intros [= <-].
Qed.

Lemma predict_single_aligned self text p :
  predict_single self text = Some p →
  p_tokens p = chars text ∧ length (p_ner_tags p) = length (p_tokens p) ∧ p_text p = text.
Proof.
  unfold predict_single. destruct (nlp self) as [nlp0|].
  - destruct (nlp0 text) as [| |[results|]|results]; cbn zeta.
    + apply predict_with_model_aligned.
    + destruct (predict_with_model self text) eqn:E; [|done].
      intros [= <-]. by apply (predict_with_model_aligned self).
    + destruct (process_pipeline_results_returns text results) as (p' & -> & H).
      by intros [= <-].
    + destruct (predict_with_model self text) eqn:E; [|done].
      intros [= <-]. by apply (predict_with_model_aligned self).
    + destruct (process_pipeline_results_returns text results) as (p' & -> & H).
      by intros [= <-].
  - apply predict_with_model_aligned.
Qed.

Lemma run_of_chars text v : run_of (chars text) v → v ≠ [] ∧ substring_of text v.
Proof.
  intros (i & n & Hn & Hin & ->). rewrite length_chars in Hin.
  replace n with ((i + n) - i) by lia. rewrite chars_slice, join_chars. split.
  - intros H. apply (f_equal length) in H. unfold slice in H.
    rewrite length_take, length_drop in H. simpl in H. lia.
  - by exists i, (i + n).
Qed.

End PredictFacts.

Section PredictExtras.
Import Props Inference MoreProps.

(** X23.  With a mapping built as [_get_default_label_mapping] builds its
    own, no predicted id raises a [KeyError]: the tag at an offset of the
    text is the label numbered by the id predicted there, and ['O'] when
    the model gave no id for the offset or an id past the labels. *)
Theorem label_mapping_tags (labels : list str) (pred_ids : list nat) (text : str)
    (j : nat) :
  j < length text →
  p_ner_tags (tags_of_predictions (label_mapping labels) pred_ids text) !! j
  = Some (default (py "O") (i ← pred_ids !! j; labels !! i)).
Proof.
  intros Hj. unfold tags_of_predictions. rewrite labels_of_label_mapping.
  cbn [p_ner_tags]. rewrite length_map.
  set (tags := map _ pred_ids).
  assert (length tags = length pred_ids) as Hlen by apply length_map.
  destruct (decide (j < length pred_ids)) as [Hlt|Hge].
  - rewrite lookup_app_l by (rewrite length_take; lia).
    rewrite lookup_take_lt by done. subst tags. rewrite list_lookup_fmap.
    destruct (lookup_lt_is_Some_2 pred_ids j Hlt) as [i ->]. done.
  - rewrite lookup_app_r by (rewrite length_take; lia).
    rewrite (lookup_ge_None_2 pred_ids j) by lia. cbn.
    apply lookup_replicate_2. rewrite !length_take. lia.
Qed.

Lemma label_mapping_tags_witness :
  p_ner_tags (tags_of_predictions get_default_label_mapping [2; 38; 99]
                (py "广州市天河")) !! 1 = Some (py "I-city")
  ∧ p_ner_tags (tags_of_predictions get_default_label_mapping [2; 38; 99]
                  (py "广州市天河")) !! 4 = Some (py "O").
Proof.
  split.
  - apply (label_mapping_tags default_labels [2; 38; 99] (py "广州市天河") 1).
    vm_compute. lia.
  - apply (label_mapping_tags default_labels [2; 38; 99] (py "广州市天河") 4).
    vm_compute. lia.
Defined.

(** X24.  After a successful [__init__], [predict_single] raises exactly
    when the pipeline was loaded and its call raises, returns a string, or
    returns a dictionary without ['output']: the fallback to
    [_predict_with_model] then finds no model.  Every prediction returned
    has one token and one tag per character of the text. *)
Theorem predict_single_after_load (pipeline_ : option (str → pipeline_answer))
    (from_pretrained : option (str → option (list nat)))
    (labels : list (str * str)) (self : inference) (text : str) :
  load_model pipeline_ from_pretrained labels = Some self →
  (predict_single self text = None
   ↔ ∃ nlp, pipeline_ = Some nlp
            ∧ (nlp text = PipelineRaises ∨ nlp text = PipelineStr
               ∨ nlp text = PipelineDict None))
  ∧ (∀ p, predict_single self text = Some p →
          p_tokens p = chars text ∧ length (p_ner_tags p) = length (p_tokens p)
          ∧ p_text p = text).
Proof.
  intros Hload. split.
  - unfold load_model in Hload. destruct pipeline_ as [nlp0|].
    + injection Hload as <-. unfold predict_single, predict_with_model. cbn [nlp model].
      destruct (nlp0 text) as [| |[results|]|results] eqn:E.
      * split; [|done]. intros _. exists nlp0. auto.
      * split; [|done]. intros _. exists nlp0. auto.
      * destruct (process_pipeline_results_returns text results) as (p & -> & _).
        split; [done|]. intros (nlp1 & [= <-] & [H|[H|H]]); congruence.
      * split; [|done]. intros _. exists nlp0. auto.
      * destruct (process_pipeline_results_returns text results) as (p & -> & _).
        split; [done|]. intros (nlp1 & [= <-] & [H|[H|H]]); congruence.
    + destruct from_pretrained as [m|]; [|done]. injection Hload as <-.
      unfold predict_single, predict_with_model. cbn [nlp model].
      split; [|by intros (? & ? & _)]. by destruct (m text).
  - apply predict_single_aligned.
Qed.

Lemma predict_single_after_load_witness :
  let nlp := fun text : str => if bool_decide (text = []) then PipelineStr
                               else PipelineOther (Some []) in
  let self := mk_inference (Some nlp) None get_default_label_mapping in
  predict_single self [] = None
  ∧ ∃ p, predict_single self (py "广州") = Some p ∧ length (p_ner_tags p) = 2.
Proof.
  cbn zeta.
  set (nlp := fun text : str => if bool_decide (text = []) then PipelineStr
                                else PipelineOther (Some [])).
  split.
  - apply (predict_single_after_load (Some nlp) None get_default_label_mapping _ []
             eq_refl).
    exists nlp. split; [done|]. right. by left.
  - eexists. split; [reflexivity|].
    destruct (predict_single_after_load (Some nlp) None get_default_label_mapping
                (mk_inference (Some nlp) None get_default_label_mapping) (py "广州")
                eq_refl) as [_ H].
    destruct (H _ eq_refl) as (_ & -> & _). reflexivity.
Defined.

(** X25.  Every value [extract_entities] returns is a non-empty contiguous
    piece of the text, every category it returns has at least one value,
    and no category comes twice. *)
Theorem extract_entities_pieces_of_text (self : inference) (text : str)
    (entities : list (str * list str)) :
  extract_entities self text = Some entities →
  NoDup (map fst entities)
  ∧ Forall (fun kv : str * list str =>
              kv.2 ≠ [] ∧ Forall (fun v => v ≠ [] ∧ substring_of text v) kv.2)
           entities.
Proof.
  unfold extract_entities. destruct (predict_single self text) as [p|] eqn:E; [|done].
  intros [= <-]. destruct (predict_single_aligned self text p E) as (Ht & _ & _).
  destruct (extract_sound (p_tokens p) (p_ner_tags p)) as [Hnd Hne].
  split; [done|]. apply Forall_and. split; [done|].
  eapply Forall_impl; [apply extract_runs|]. cbn. intros kv Hkv.
  eapply Forall_impl; [exact Hkv|]. cbn. intros v Hv. rewrite Ht in Hv.
  by apply run_of_chars.
Qed.

Lemma extract_entities_pieces_of_text_witness :
  let r := mk_pipeline_result (Some 0%Z) None (Some 3%Z) None (Some (py "city")) None None in
  let self := mk_inference (Some (fun _ => PipelineDict (Some (Some [Some r]))))
                           None get_default_label_mapping in
  extract_entities self (py "广州市天河路") = Some [(py "city", [py "广州市"])]
  ∧ Forall (fun kv : str * list str =>
              kv.2 ≠ [] ∧ Forall (fun v => v ≠ [] ∧ substring_of (py "广州市天河路") v) kv.2)
           [(py "city", [py "广州市"])].
Proof.
  cbn zeta. split; [reflexivity|].
  apply (extract_entities_pieces_of_text
           (mk_inference
              (Some (fun _ => PipelineDict (Some (Some [Some
                 (mk_pipeline_result (Some 0%Z) None (Some 3%Z) None
                    (Some (py "city")) None None)]))))
              None get_default_label_mapping)
           (py "广州市天河路")).
  reflexivity.
Defined.

End PredictExtras.

(** * Nothing located, and the service as a whole *)

Section ServiceFacts.
Import Props Decoder Formatter Inference Levels LevelProps MoreProps Service.

Lemma spans_of_nothing keys (indices : index_map) :
  all_spans indices = [] → spans_of keys indices = [].
Proof.
  intros Hall. unfold spans_of. induction keys as [|k keys IH]; [done|].
  cbn [flat_map]. rewrite IH, app_nil_r.
  destruct (dict_get k indices) as [l|] eqn:E; [|done]. cbn.
  apply dict_get_Some_elem in E. destruct l as [|sp l]; [done|]. exfalso.
  assert (sp ∈ all_spans indices) as Hin.
  { unfold all_spans. apply list_elem_of_In, in_flat_map. exists (k, sp :: l).
    split; [by apply list_elem_of_In | by left]. }
  rewrite Hall in Hin. by apply elem_of_nil in Hin.
Qed.

Lemma omap_lookup_seq {A} (pre l : list A) :
  omap (fun i => (pre ++ l) !! i) (seq (length pre) (length l)) = l.
Proof.
  revert pre. induction l as [|c l IH]; intros pre; [done|].
  cbn [length seq omap list_omap]. rewrite list_lookup_middle by done. f_equal.
  specialize (IH (pre ++ [c])). rewrite length_app, <- app_assoc in IH.
  cbn [length app] in IH. by rewrite Nat.add_1_r in IH.
Qed.

Lemma chars_at_all (addr : str) :
  chars_at addr (uncovered addr []) = addr.
Proof.
  unfold chars_at, uncovered. cbn [span_offsets flat_map].
  assert (∀ l : list nat,
            List.filter (fun i => negb (bool_decide (i ∈ @nil nat))) l = l) as ->.
  { induction l as [|i l IH]; [done|]. cbn [List.filter].
    rewrite bool_decide_eq_false_2 by apply not_elem_of_nil. cbn. by rewrite IH. }
  apply (omap_lookup_seq [] addr).
Qed.

Lemma select_nothing keys (indices : index_map) eligible :
  all_spans indices = [] → select keys indices eligible = nothing.
Proof. intros H. unfold select. by rewrite spans_of_nothing. Qed.

Lemma format_address_values (raw : raw_data) (k v : str) :
  (k, v) ∈ f_entities (format_address raw) →
  ∃ l, (k, l) ∈ extract_entities_from_tokens (default [] (rd_tokens raw))
                                             (default [] (rd_ner_tags raw))
       ∧ v = join_with (py ", ") l.
Proof.
  pose proof (format_address_listing raw) as H. cbn zeta in H. rewrite H. clear H.
  intros [Hin|Hin]%elem_of_app.
  - apply list_elem_of_omap in Hin as (k' & _ & Hsome).
    destruct (dict_get k' _) as [l|] eqn:E; [|done]. injection Hsome as <- <-.
    exists l. split; [by apply dict_get_Some_elem | done].
  - apply list_elem_of_omap in Hin as ([k' l] & Hin & Hsome). cbn in Hsome.
    destruct (bool_decide _); [done|]. injection Hsome as <- <-. by exists l.
Qed.

Lemma Level11Result_id (data : levels) : error data = None → Level11Result data = data.
Proof. destruct data. cbn [error]. intros ->. reflexivity. Qed.

Lemma standardize_address_unfold frames inferencer request_address c address :
  strip request_address = c :: address →
  standardize_address frames (Some inferencer) true request_address
  = match predict_single inferencer (c :: address) with
    | None => Failed
    | Some p =>
      let e := format_address (mk_raw (Some (p_tokens p)) (Some (p_ner_tags p))
                                      (Some (p_text p))) in
      Standardized p e
        (Level11Result (classify_elements_to_11_levels frames (str_dict (f_entities e))
                          (c :: address)))
    end.
Proof. intros H. unfold standardize_address. cbn zeta. rewrite H. reflexivity. Qed.

(** A value that does not occur in the text is not found, whatever frames
    are left. *)
Lemma find_value_absent frames addr value used :
  find addr value 0 = None → find_value frames addr value used = Ok None.
Proof. intros H. unfold find_value. destruct frames; simpl; by rewrite H. Qed.

Lemma index_values_absent frames addr values used :
  Forall (fun v => find addr (strip v) 0 = None) values →
  index_values frames addr values used = Ok ([], used).
Proof.
  revert used. induction values as [|v values IH]; intros used Hall; [done|].
  apply Forall_cons in Hall as [Hv Hall].
  rewrite index_values_cons, find_value_absent by done. cbn. by apply IH.
Qed.

Lemma occurring_nil (d : list (str * str)) addr k v cand :
  occurring d addr = [] → (k, v) ∈ d → cand ∈ Encoder.split_entities v →
  find addr cand 0 = None.
Proof.
  unfold occurring. intros Hnil Hkv Hcand.
  destruct (find addr cand 0) as [pos|] eqn:E; [|done]. exfalso.
  assert (cand ∈ List.filter (fun cand => bool_decide (is_Some (find addr cand 0)))
            (flat_map (fun kv : str * str => Encoder.split_entities kv.2) d)) as Hin.
  { apply list_elem_of_In, filter_In. split.
    - apply in_flat_map. exists (k, v). split; by apply list_elem_of_In.
    - apply bool_decide_eq_true. rewrite E. by eexists. }
  rewrite Hnil in Hin. by apply elem_of_nil in Hin.
Qed.

Lemma all_spans_nil (indices : index_map) :
  all_spans indices = [] ↔ Forall (fun kv : str * list span => kv.2 = []) indices.
Proof.
  unfold all_spans. induction indices as [|[k l] indices IH]; cbn [flat_map snd].
  - split; [constructor | done].
  - rewrite Forall_cons. cbn [snd]. rewrite <- IH. split.
    + by intros [-> ->]%app_eq_nil.
    + by intros [-> ->].
Qed.

Lemma build_indices_absent frames addr (d items : list (str * str)) st :
  occurring d addr = [] → items ⊆ d → all_spans st.1 = [] →
  ∃ indices, build_indices frames addr (str_items items) st = Ok (indices, st.2)
             ∧ all_spans indices = [].
Proof.
  intros Hnil. revert st. induction items as [|[key value] items IH]; intros st Hsub Hst.
  - exists st.1. by destruct st.
  - cbn [str_items map build_indices fst snd].
    assert ((key, value) ∈ d) as Hkv by apply Hsub, list_elem_of_here.
    assert (∃ indices1, index_entry frames addr key (PyStr value) st = Ok (indices1, st.2)
                        ∧ all_spans indices1 = []) as (indices1 & -> & H1).
    { unfold index_entry. cbn [py_contains_comma mbind outcome_bind].
      destruct (contains comma value) eqn:Ec;
        cbn [py_split_comma py_find_arg mbind outcome_bind].
      - rewrite index_values_absent.
        + cbn. eexists. split; [reflexivity|].
          apply all_spans_nil, dict_set_Forall; [by apply all_spans_nil | done].
        + apply Forall_forall. intros v Hv.
          apply (occurring_nil d addr key value (strip v) Hnil Hkv).
          unfold Encoder.split_entities. rewrite Ec. apply list_elem_of_fmap. by exists v.
      - rewrite find_value_absent.
        + cbn. exists st.1. by destruct st.
        + apply (occurring_nil d addr key value value Hnil Hkv).
          unfold Encoder.split_entities. rewrite Ec. apply list_elem_of_here. }
    cbn [mbind outcome_bind].
    destruct (IH (indices1, st.2)) as (indices & Hb & Hi); [|done|by exists indices].
    intros x Hx. apply Hsub. by apply list_elem_of_further.
Qed.

End ServiceFacts.

Section ServiceExtras.
Import Props Decoder Formatter Inference Levels LevelProps MoreProps Service.

(** X26.  When no candidate string of the dictionary's values (a value, or
    a stripped part of one that contains a comma) occurs in the text, the
    record carries no [error] whatever frames are left, levels 1 to 4 are
    copied from the dictionary (['prov'] defaulting to 广东省, the others to
    the empty string), levels 5 to 11 are empty, and the whole text,
    stripped, goes to [remark]. *)
Theorem nothing_located_all_remark (frames : nat) (d : list (str * str)) (addr : str) :
  occurring d addr = [] →
  let r := classify_elements_to_11_levels frames (str_dict d) addr in
  error r = None
  ∧ level1 r = PyStr (default (py "广东省") (dict_get (py "prov") d))
  ∧ level2 r = PyStr (default [] (dict_get (py "city") d))
  ∧ level3 r = PyStr (default [] (dict_get (py "district") d))
  ∧ level4 r = PyStr (default [] (dict_get (py "town") d))
  ∧ Forall (fun level => level = []) [level5 r; level6 r; level7 r; level8 r; level9 r;
                                      level10 r; level11 r]
  ∧ remark r = strip addr.
Proof.
  intros Hnil. cbn zeta.
  destruct (build_indices_absent frames addr d d ([], ∅) Hnil) as (indices & Hb & Hi);
    [done | done |].
  assert (indices_of frames d addr = indices) as Hof by (unfold indices_of; by rewrite Hb).
  destruct (classify_str_dict frames d addr) as [[He ->]|[_ Hr]].
  2: { exfalso. revert Hr. unfold classify_elements_to_11_levels, classify_body, str_dict.
       cbn zeta. cbn [py_items mbind outcome_bind]. rewrite Hb. done. }
  cbn [error level1 level2 level3 level4 level5 level6 level7 level8 level9 level10
       level11 remark].
  unfold located_spans. rewrite Hof, Hi, chars_at_all.
  assert (poi_min_index indices = None) as Hpoi.
  { unfold poi_min_index. by rewrite spans_of_nothing. }
  assert (admin_max_index indices = None) as Hadmin.
  { unfold admin_max_index. by rewrite spans_of_nothing. }
  unfold assign. rewrite Hpoi, Hadmin.
  cbn [a_road_direction a_roadno a_poi a_additional_poi a_cellno a_floorno a_roomno].
  rewrite !select_nothing by done.
  split; [done|].
  repeat (split; [by destruct (dict_get _ d)|]).
  split; [|done]. by repeat constructor.
Qed.

Lemma nothing_located_all_remark_witness :
  let d := [(py "city", py "广州市"); (py "road", py "中山路, 解放路")] in
  let r := classify_elements_to_11_levels 1000 (str_dict d) (py " 天河北路8号 ") in
  occurring d (py " 天河北路8号 ") = []
  ∧ error r = None
  ∧ level1 r = PyStr (py "广东省") ∧ level2 r = PyStr (py "广州市")
  ∧ level5 r = [] ∧ remark r = py "天河北路8号".
Proof.
  cbn zeta.
  assert (occurring [(py "city", py "广州市"); (py "road", py "中山路, 解放路")]
            (py " 天河北路8号 ") = []) as Hnil by (vm_compute; reflexivity).
  split; [exact Hnil|].
  destruct (nothing_located_all_remark 1000 _ _ Hnil) as (He & H1 & H2 & _ & _ & Hl & Hr).
  split; [exact He|]. split; [exact H1|]. split; [exact H2|]. split.
  - apply Forall_cons in Hl as [Hl _]. exact Hl.
  - rewrite Hr. vm_compute. reflexivity.
Defined.

(** X27.  With the service loaded and an address that is not blank,
    [standardize_address] raises no HTTP error; it answers [success=False]
    exactly when [predict_single] raises on the stripped address.
    Otherwise every entity value is a non-empty list, joined by a comma and
    a space, of non-empty pieces of the stripped address, and the level
    record answered never has an [error]: it is the classifier's own record
    when that one has none, which is certain when [find_value] has more
    frames left than the address has characters; the only error the
    classifier can meet on the formatter's entities is [RecursionError],
    and [Level11Result] then drops it and answers empty levels.  Levels 5
    to 11 are pieces of the stripped address. *)
Theorem standardize_address_outcomes (frames : nat) (inferencer : inference)
    (request_address : str) :
  strip request_address ≠ [] →
  let address := strip request_address in
  match standardize_address frames (Some inferencer) true request_address with
  | HTTPException _ => False
  | Failed => predict_single inferencer address = None
  | Standardized token_result entity_result level11_result =>
    let level11_data :=
      classify_elements_to_11_levels frames (str_dict (f_entities entity_result))
                                     address in
    predict_single inferencer address = Some token_result
    ∧ f_original_text entity_result = address
    ∧ Forall (fun kv : str * str =>
                ∃ vs, vs ≠ [] ∧ kv.2 = join_with (py ", ") vs
                      ∧ Forall (fun v => v ≠ [] ∧ substring_of address v) vs)
             (f_entities entity_result)
    ∧ level11_result = Level11Result level11_data
    ∧ (error level11_data = None ∨ error level11_data = Some RecursionError)
    ∧ (length address < frames → error level11_data = None)
    ∧ (error level11_data = None → level11_result = level11_data)
    ∧ (error level11_data = Some RecursionError →
       level11_result
       = mk_levels (PyStr []) (PyStr []) (PyStr []) (PyStr [])
                   [] [] [] [] [] [] [] [] address None)
    ∧ error level11_result = None
    ∧ original_text level11_result = address
    ∧ Forall (substring_of address)
        [level5 level11_result; level6 level11_result; level7 level11_result;
         level8 level11_result; level9 level11_result; level10 level11_result;
         level11 level11_result]
  end.
Proof.
  intros Hne. cbn zeta.
  destruct (strip request_address) as [|c address] eqn:Es; [done|].
  rewrite (standardize_address_unfold frames inferencer request_address c address Es).
  destruct (predict_single inferencer (c :: address)) as [p|] eqn:Ep; [|reflexivity].
  destruct (predict_single_aligned inferencer (c :: address) p Ep) as (Htok & Hlen & Htext).
  cbv zeta.
  set (e := format_address _).
  split; [reflexivity|]. split; [exact Htext|]. split.
  { apply Forall_forall. intros [k v] Hkv.
    apply format_address_values in Hkv as (l & Hl & ->). cbn [rd_tokens rd_ner_tags default] in Hl.
    destruct (extract_sound (p_tokens p) (p_ner_tags p)) as [_ Hnonempty].
    rewrite Forall_forall in Hnonempty. specialize (Hnonempty _ Hl).
    pose proof (extract_runs (p_tokens p) (p_ner_tags p)) as Hruns.
    rewrite Forall_forall in Hruns. specialize (Hruns _ Hl). cbn [fst snd] in *.
    exists l. split; [exact Hnonempty|]. split; [reflexivity|].
    eapply Forall_impl; [exact Hruns|]. cbn beta. intros v Hv. rewrite Htok in Hv.
    by apply run_of_chars. }
  split; [reflexivity|].
  pose proof (levels_pieces_of_text frames (f_entities e) (c :: address)) as Hpieces.
  cbv zeta in Hpieces.
  destruct (classify_error_of frames (str_dict (f_entities e)) (c :: address))
    as (_ & Hcases & Henough).
  split; [by apply (Hcases (f_entities e))|].
  split; [by apply (Henough (f_entities e))|].
  split; [apply Level11Result_id|].
  destruct (classify_str_dict frames (f_entities e) (c :: address)) as [[He Hr]|[_ Hr]];
    cbv zeta in Hr |- *.
  - cbv zeta in He. split; [by rewrite He|]. rewrite Level11Result_id by exact He.
    split; [exact He|]. split; [by rewrite Hr|]. exact Hpieces.
  - rewrite Hr. split; [done|]. split; [done|]. split; [done|].
    repeat constructor; by exists 0, 0.
Qed.

Lemma standardize_address_outcomes_witness :
  let r := mk_pipeline_result (Some 0%Z) None (Some 3%Z) None (Some (py "road")) None None in
  let inferencer := mk_inference (Some (fun _ => PipelineOther (Some [Some r])))
                                 None get_default_label_mapping in
  match standardize_address 1000 (Some inferencer) true (py " 中山路8号 ") with
  | Standardized token_result entity_result level11_result =>
    f_entities entity_result = [(py "road", py "中山路")]
    ∧ level5 level11_result = py "中山路"
    ∧ remark level11_result = py "8号"
    ∧ error level11_result = None
  | _ => False
  end.
Proof.
  cbv zeta.
  set (inferencer := mk_inference _ None get_default_label_mapping).
  assert (strip (py " 中山路8号 ") ≠ []) as Hne by (vm_compute; discriminate).
  pose proof (standardize_address_outcomes 1000 inferencer (py " 中山路8号 ") Hne) as H.
  cbv zeta in H.
  destruct (standardize_address 1000 (Some inferencer) true (py " 中山路8号 "))
    as [n| |t e l] eqn:E.
  - exact H.
  - vm_compute in E. discriminate E.
  - destruct H as (_ & _ & _ & _ & _ & _ & _ & _ & Herr & _).
    split; [|split; [|split; [|exact Herr]]].
    all: clear Herr; vm_compute in E; injection E as <- <- <-; vm_compute; reflexivity.
Defined.

End ServiceExtras.
